(** * The adapt engine of t8code: [src/t8_forest/t8_forest_adapt.cxx]

    A shallow embedding of [t8_forest_adapt] and of its two helpers
    [t8_forest_adapt_coarsen_recursive] and [t8_forest_adapt_refine_recursive],
    together with the properties of the element sequences they produce.

    The counters of type [t8_locidx_t] are modelled by [Z]: they count the
    entries of arrays that are taken to hold fewer than 2^31 elements, so
    that none of them wraps.  The assertions ([T8_ASSERT]) are compiled in
    debug builds only and are left out; what the one on the answer of the
    predicate asks for is the contract [adapt_contract] below. *)

From Stdlib Require Import ZArith List Lia Bool Sorting.Sorted.
Import ListNotations.
Open Scope Z_scope.

Set Implicit Arguments.

(** ** Outcomes of the loops

    The C loops need not terminate (a predicate may refine for ever) and the
    arrays are read without bounds checks.  A run therefore ends in a value,
    in a read outside an array, or with its fuel used up. *)

Inductive outcome (A : Type) : Type :=
| Done (a : A)
| Fault
| Timeout.

Arguments Fault {A}.
Arguments Timeout {A}.

Definition bind {A B : Type} (m : outcome A) (f : A -> outcome B) : outcome B :=
  match m with
  | Done a => f a
  | Fault => Fault
  | Timeout => Timeout
  end.

Definition of_option {A : Type} (o : option A) : outcome A :=
  match o with
  | Some a => Done a
  | None => Fault
  end.

Notation "x <- m ;; k" := (bind m (fun x => k))
  (at level 61, m at next level, right associativity).
Notation "' p <- m ;; k" := (bind m (fun p => k))
  (at level 61, p pattern, m at next level, right associativity).

(** ** sc_array and sc_list *)

Definition elem_count {A : Type} (a : list A) : Z := Z.of_nat (length a).

(** [sc_array_index]: the element at position [i]; no element outside
    [0 <= i < elem_count]. *)
Definition sc_array_index {A : Type} (a : list A) (i : Z) : option A :=
  if i <? 0 then None else nth_error a (Z.to_nat i).

(** Setting [elem_count] to [n], as [sc_array_resize] and the assignment
    [telement->elem_count = *el_inserted] do; growing would expose
    uninitialised slots. *)
Definition sc_array_resize {A : Type} (a : list A) (n : Z) : option (list A) :=
  if (0 <=? n) && (n <=? elem_count a) then Some (firstn (Z.to_nat n) a)
  else None.

(** Overwriting the slot at position [i]. *)
Definition sc_array_write {A : Type} (a : list A) (i : Z) (x : A)
  : option (list A) :=
  if (0 <=? i) && (i <? elem_count a)
  then Some (firstn (Z.to_nat i) a ++ x :: skipn (S (Z.to_nat i)) a)
  else None.

(** [for (ci = n - 1; ci >= 0; ci--) sc_list_prepend (list, buf[ci])]. *)
Fixpoint sc_list_prepend_down {A : Type} (buf : list A) (n : nat) (l : list A)
  : outcome (list A) :=
  match n with
  | O => Done l
  | S m =>
      match nth_error buf m with
      | Some e => sc_list_prepend_down buf m (e :: l)
      | None => Fault
      end
  end.

(** The last entry of a list. *)
Fixpoint last_error {A : Type} (l : list A) : option A :=
  match l with
  | [] => None
  | [a] => Some a
  | _ :: l' => last_error l'
  end.

(** ** Element classes and schemes *)

Inductive t8_eclass_t : Type :=
| T8_ECLASS_VERTEX | T8_ECLASS_LINE | T8_ECLASS_QUAD | T8_ECLASS_TRIANGLE
| T8_ECLASS_HEX | T8_ECLASS_TET | T8_ECLASS_PRISM | T8_ECLASS_PYRAMID.

Section Adapt.

(** The opaque element and the user data behind the forest's user pointer. *)
Variable t8_element_t : Type.
Variable user_data_t : Type.

(** Modelled from the spec: the element scheme [t8_eclass_scheme_c], the
    table of element operations (section 4.1) that [t8_element_cxx.hxx]
    declares; the header and the schemes are not among the sources.
    [t8_element_children e n] is the array of [n] children that
    [ts->t8_element_children (e, n, c)] fills. *)
Record t8_eclass_scheme_c : Type := {
  t8_element_maxlevel : Z;
  t8_element_level : t8_element_t -> Z;
  t8_element_num_children : t8_element_t -> Z;
  t8_element_child_id : t8_element_t -> Z;
  t8_element_parent : t8_element_t -> t8_element_t;
  t8_element_child : t8_element_t -> Z -> t8_element_t;
  t8_element_children : t8_element_t -> Z -> list t8_element_t;
  t8_element_compare : t8_element_t -> t8_element_t -> Z
}.

(** The scheme [ts] with another answer to [t8_element_num_children]. *)
Definition with_num_children (ts : t8_eclass_scheme_c)
  (f : t8_element_t -> Z) : t8_eclass_scheme_c :=
  {| t8_element_maxlevel := t8_element_maxlevel ts;
     t8_element_level := t8_element_level ts;
     t8_element_num_children := f;
     t8_element_child_id := t8_element_child_id ts;
     t8_element_parent := t8_element_parent ts;
     t8_element_child := t8_element_child ts;
     t8_element_children := t8_element_children ts;
     t8_element_compare := t8_element_compare ts |}.

(** ** Callbacks and their trace

    [set_adapt_fn (forest, ltreeid, ts, n, elems)] returns an [int] and may
    change the user data; [set_replace_fn (forest, ltreeid, ts, n_out, out,
    n_in, in)] only changes the user data.  The scheme handed to them is
    the one of the tree [ltreeid]. *)
Definition t8_forest_adapt_t : Type :=
  user_data_t -> Z -> Z -> list t8_element_t -> Z * user_data_t.

Definition t8_forest_replace_t : Type :=
  user_data_t -> Z -> Z -> list t8_element_t -> Z -> list t8_element_t
  -> user_data_t.

(** Every call of a callback is recorded, with its arguments. *)
Inductive event : Type :=
| Ev_adapt (ltreeid num_elements : Z) (elements : list t8_element_t) (ret : Z)
| Ev_replace (ltreeid num_outgoing : Z) (outgoing : list t8_element_t)
    (num_incoming : Z) (incoming : list t8_element_t).

Record world : Type := {
  user_data : user_data_t;
  trace : list event
}.

Record t8_tree : Type := {
  eclass : t8_eclass_t;
  elements : list t8_element_t;
  elements_offset : Z
}.

(** The fields of [t8_forest] that [t8_forest_adapt] reads or writes;
    [set_from] holds the trees of the source forest. *)
Record t8_forest : Type := {
  trees : list t8_tree;
  local_num_elements : Z;
  set_from : list t8_tree;
  set_adapt_fn : t8_forest_adapt_t;
  set_replace_fn : option t8_forest_replace_t;
  set_adapt_recursive : bool;
  eclass_schemes : t8_eclass_t -> t8_eclass_scheme_c;
  forest_world : world
}.

Definition call_adapt (forest : t8_forest) (w : world) (ltreeid n : Z)
  (elems : list t8_element_t) : Z * world :=
  let '(r, u) := set_adapt_fn forest (user_data w) ltreeid n elems in
  (r, {| user_data := u; trace := trace w ++ [Ev_adapt ltreeid n elems r] |}).

(** [if (forest->set_replace_fn != NULL) forest->set_replace_fn (...)]. *)
Definition call_replace (forest : t8_forest) (w : world) (ltreeid n_out : Z)
  (out : list t8_element_t) (n_in : Z) (inc : list t8_element_t) : world :=
  match set_replace_fn forest with
  | Some f =>
      {| user_data := f (user_data w) ltreeid n_out out n_in inc;
         trace := trace w ++ [Ev_replace ltreeid n_out out n_in inc] |}
  | None => w
  end.

(** ** [t8_forest_adapt_coarsen_recursive] *)

(** The inner loop [for (i = 0; i < num_children; i++)]: it reads
    [fam[i] = telement[pos + i]] and leaves at the first child id that is
    not [i].  The result is [isfamily] and the entries of [fam] read. *)
Fixpoint coarsen_family (ts : t8_eclass_scheme_c) (telement : list t8_element_t)
  (pos : Z) (n : nat) (i : Z) (fam : list t8_element_t)
  : outcome (bool * list t8_element_t) :=
  match n with
  | O => Done (true, fam)
  | S n' =>
      e <- of_option (sc_array_index telement (pos + i)) ;;
      if t8_element_child_id ts e =? i
      then coarsen_family ts telement pos n' (i + 1) (fam ++ [e])
      else Done (false, fam ++ [e])
  end.

(** The [while] loop.  Leaving through the [else] branch sets [isfamily]
    to 0, which ends the loop; the state is the array, [*el_inserted],
    [element] and [pos]. *)
Fixpoint coarsen_recursive_loop (fuel : nat) (forest : t8_forest) (ltreeid : Z)
  (ts : t8_eclass_scheme_c) (num_children el_coarsen : Z)
  (telement : list t8_element_t) (el_inserted : Z) (element : t8_element_t)
  (pos : Z) (w : world) : outcome (list t8_element_t * Z * world) :=
  if (el_coarsen <=? pos)
     && (t8_element_child_id ts element =? num_children - 1)
  then
    match fuel with
    | O => Timeout
    | S fuel' =>
        '(isfamily, fam) <-
          coarsen_family ts telement pos (Z.to_nat num_children) 0 [] ;;
        if (isfamily : bool) then
          let '(r, w1) := call_adapt forest w ltreeid num_children fam in
          if r <? 0 then
            let el_inserted' := el_inserted - (num_children - 1) in
            telement1 <- of_option (sc_array_resize telement el_inserted') ;;
            fam0 <- of_option (nth_error fam 0) ;;
            let replace := t8_element_parent ts fam0 in
            let w2 :=
              call_replace forest w1 ltreeid num_children fam 1 [replace] in
            telement2 <- of_option (sc_array_write telement1 pos replace) ;;
            coarsen_recursive_loop fuel' forest ltreeid ts num_children
              el_coarsen telement2 el_inserted' replace
              (pos - (num_children - 1)) w2
          else Done (telement, el_inserted, w1)
        else Done (telement, el_inserted, w)
    end
  else Done (telement, el_inserted, w).

Definition t8_forest_adapt_coarsen_recursive (fuel : nat) (forest : t8_forest)
  (ltreeid : Z) (ts : t8_eclass_scheme_c) (telement : list t8_element_t)
  (el_coarsen el_inserted : Z) (w : world)
  : outcome (list t8_element_t * Z * world) :=
  element <- of_option (sc_array_index telement (el_inserted - 1)) ;;
  let num_children := t8_element_num_children ts element in
  coarsen_recursive_loop fuel forest ltreeid ts num_children el_coarsen
    telement el_inserted element (el_inserted - num_children) w.

(** ** [t8_forest_adapt_refine_recursive]

    [elem_list] is the list of candidates, its head the next one popped.
    The result is the list left, the array, [*num_inserted] and the world. *)
Fixpoint t8_forest_adapt_refine_recursive (fuel : nat) (forest : t8_forest)
  (ltreeid : Z) (ts : t8_eclass_scheme_c) (elem_list : list t8_element_t)
  (telements : list t8_element_t) (num_inserted : Z) (w : world)
  : outcome (list t8_element_t * list t8_element_t * Z * world) :=
  match elem_list with
  | [] => Done ([], telements, num_inserted, w)
  | el_pop :: rest =>
      match fuel with
      | O => Timeout
      | S fuel' =>
          let num_children := t8_element_num_children ts el_pop in
          let '(r, w1) := call_adapt forest w ltreeid 1 [el_pop] in
          if r >? 0 then
            let el_buffer := t8_element_children ts el_pop num_children in
            let w2 :=
              call_replace forest w1 ltreeid 1 [el_pop] num_children el_buffer in
            elem_list' <-
              sc_list_prepend_down el_buffer (Z.to_nat num_children) rest ;;
            t8_forest_adapt_refine_recursive fuel' forest ltreeid ts elem_list'
              telements num_inserted w2
          else
            t8_forest_adapt_refine_recursive fuel' forest ltreeid ts rest
              (telements ++ [el_pop]) (num_inserted + 1) w1
      end
  end.

(** ** [t8_forest_adapt] *)

(** The loop [for (zz = 0; zz < num_children && el_considered + zz <
    num_el_from; zz++)] that fills [elements_from] and leaves at the first
    child id that is not [zz].  The result is the final [zz] and the
    entries of [elements_from] read in this pass. *)
Fixpoint adapt_window (ts : t8_eclass_scheme_c)
  (telements_from : list t8_element_t) (el_considered : Z) (n : nat) (zz : Z)
  (elements_from : list t8_element_t) : outcome (Z * list t8_element_t) :=
  match n with
  | O => Done (zz, elements_from)
  | S n' =>
      if el_considered + zz <? elem_count telements_from then
        e <- of_option (sc_array_index telements_from (el_considered + zz)) ;;
        if t8_element_child_id ts e =? zz
        then adapt_window ts telements_from el_considered n' (zz + 1)
               (elements_from ++ [e])
        else Done (zz, elements_from ++ [e])
      else Done (zz, elements_from)
  end.

(** The variables of the [while] loop over one tree. *)
Record adapt_state : Type := {
  telements : list t8_element_t;
  el_considered : Z;
  el_inserted : Z;
  el_coarsen : Z;
  st_world : world
}.

(** One pass through the body of [while (el_considered < num_el_from)].
    The callbacks see the entries of [elements_from] read in this pass, the
    first [num_elements] of them for the predicate.  In the branch that
    refines without recursion the [num_children] slots pushed are the ones
    [t8_element_children] fills.  [refine_list] is empty between two
    passes, so it is no part of the state. *)
Definition t8_forest_adapt_body (fuel : nat) (forest : t8_forest) (tt : Z)
  (tscheme : t8_eclass_scheme_c) (telements_from : list t8_element_t)
  (num_children : Z) (st : adapt_state) : outcome adapt_state :=
  '(zz, elements_from) <-
    adapt_window tscheme telements_from (el_considered st)
      (Z.to_nat num_children) 0 [] ;;
  let num_elements := if zz =? num_children then num_children else 1 in
  let '(refine, w1) :=
    call_adapt forest (st_world st) tt num_elements
      (firstn (Z.to_nat num_elements) elements_from) in
  if refine >? 0 then
    from0 <- of_option (nth_error elements_from 0) ;;
    if set_adapt_recursive forest then
      let el_coarsen' := el_inserted st + num_children in
      let elements := t8_element_children tscheme from0 num_children in
      refine_list <-
        sc_list_prepend_down elements (Z.to_nat num_children) [] ;;
      let w2 := call_replace forest w1 tt 1 [from0] num_children elements in
      '(_, telements', el_inserted', w3) <-
        t8_forest_adapt_refine_recursive fuel forest tt tscheme refine_list
          (telements st) (el_inserted st) w2 ;;
      Done {| telements := telements';
              el_considered := el_considered st + 1;
              el_inserted := el_inserted';
              el_coarsen := el_coarsen';
              st_world := w3 |}
    else
      let elements := t8_element_children tscheme from0 num_children in
      let w2 := call_replace forest w1 tt 1 [from0] num_children elements in
      Done {| telements := telements st ++ elements;
              el_considered := el_considered st + 1;
              el_inserted := el_inserted st + num_children;
              el_coarsen := el_coarsen st;
              st_world := w2 |}
  else if refine <? 0 then
    from0 <- of_option (nth_error elements_from 0) ;;
    let parent := t8_element_parent tscheme from0 in
    let telements1 := telements st ++ [parent] in
    let w2 :=
      call_replace forest w1 tt num_children
        (firstn (Z.to_nat num_children) elements_from) 1 [parent] in
    let el_inserted1 := el_inserted st + 1 in
    '(telements2, el_inserted2, w3) <-
      (if set_adapt_recursive forest
          && (t8_element_child_id tscheme parent =? num_children - 1)
       then t8_forest_adapt_coarsen_recursive fuel forest tt tscheme
              telements1 (el_coarsen st) el_inserted1 w2
       else Done (telements1, el_inserted1, w2)) ;;
    Done {| telements := telements2;
            el_considered := el_considered st + num_children;
            el_inserted := el_inserted2;
            el_coarsen := el_coarsen st;
            st_world := w3 |}
  else
    from0 <- of_option (nth_error elements_from 0) ;;
    let telements1 := telements st ++ [from0] in
    let el_inserted1 := el_inserted st + 1 in
    '(telements2, el_inserted2, w3) <-
      (if set_adapt_recursive forest
          && (t8_element_child_id tscheme from0 =? num_children - 1)
       then t8_forest_adapt_coarsen_recursive fuel forest tt tscheme
              telements1 (el_coarsen st) el_inserted1 w1
       else Done (telements1, el_inserted1, w1)) ;;
    Done {| telements := telements2;
            el_considered := el_considered st + 1;
            el_inserted := el_inserted2;
            el_coarsen := el_coarsen st;
            st_world := w3 |}.

(** The answer [refine] that the predicate gives in the pass that starts in
    [st]: the first step of [t8_forest_adapt_body], on its own. *)
Definition t8_forest_adapt_decision (forest : t8_forest) (tt : Z)
  (tscheme : t8_eclass_scheme_c) (telements_from : list t8_element_t)
  (num_children : Z) (st : adapt_state) : outcome Z :=
  '(zz, elements_from) <-
    adapt_window tscheme telements_from (el_considered st)
      (Z.to_nat num_children) 0 [] ;;
  let num_elements := if zz =? num_children then num_children else 1 in
  Done (fst (call_adapt forest (st_world st) tt num_elements
               (firstn (Z.to_nat num_elements) elements_from))).

(** [while (el_considered < num_el_from)]. *)
Fixpoint t8_forest_adapt_loop (fuel : nat) (forest : t8_forest) (tt : Z)
  (tscheme : t8_eclass_scheme_c) (telements_from : list t8_element_t)
  (num_children : Z) (st : adapt_state) : outcome adapt_state :=
  if el_considered st <? elem_count telements_from then
    match fuel with
    | O => Timeout
    | S fuel' =>
        st' <- t8_forest_adapt_body fuel' forest tt tscheme telements_from
                 num_children st ;;
        t8_forest_adapt_loop fuel' forest tt tscheme telements_from
          num_children st'
    end
  else Done st.

(** The body of the loop [for (tt = 0; tt < forest->trees->elem_count;
    tt++)].  The loop over a [refine_list] that is left non-empty is never
    entered ([SC_ABORT_NOT_REACHED]): the list is empty after every call of
    [t8_forest_adapt_refine_recursive].  The result is the tree, its
    [el_inserted] and the world. *)
Definition t8_forest_adapt_tree (fuel : nat) (forest : t8_forest) (tt : Z)
  (tree : t8_tree) (el_offset : Z) (w : world)
  : outcome (t8_tree * Z * world) :=
  tree_from <- of_option (sc_array_index (set_from forest) tt) ;;
  let telements_from := elements tree_from in
  let tscheme := eclass_schemes forest (eclass tree) in
  first <- of_option (sc_array_index telements_from 0) ;;
  let num_children := t8_element_num_children tscheme first in
  st <- t8_forest_adapt_loop fuel forest tt tscheme telements_from
          num_children
          {| telements := elements tree;
             el_considered := 0;
             el_inserted := 0;
             el_coarsen := 0;
             st_world := w |} ;;
  telements' <- of_option (sc_array_resize (telements st) (el_inserted st)) ;;
  Done ({| eclass := eclass tree;
           elements := telements';
           elements_offset := el_offset |},
        el_inserted st, st_world st).

(** The loop over the trees, from tree [tt] on; [el_offset] and
    [local_num_elements] are carried along. *)
Fixpoint t8_forest_adapt_trees (fuel : nat) (forest : t8_forest) (tt : Z)
  (todo : list t8_tree) (el_offset local_num : Z) (w : world)
  : outcome (list t8_tree * Z * world) :=
  match todo with
  | [] => Done ([], local_num, w)
  | tree :: rest =>
      '(tree', el_inserted', w') <-
        t8_forest_adapt_tree fuel forest tt tree el_offset w ;;
      '(rest', local_num', w'') <-
        t8_forest_adapt_trees fuel forest (tt + 1) rest
          (el_offset + el_inserted') (local_num + el_inserted') w' ;;
      Done (tree' :: rest', local_num', w'')
  end.

(** [t8_forest_adapt]; the reduction of the global element count over the
    processes is left out. *)
Definition t8_forest_adapt (fuel : nat) (forest : t8_forest)
  : outcome t8_forest :=
  '(trees', local_num, w) <-
    t8_forest_adapt_trees fuel forest 0 (trees forest) 0 0
      (forest_world forest) ;;
  Done {| trees := trees';
          local_num_elements := local_num;
          set_from := set_from forest;
          set_adapt_fn := set_adapt_fn forest;
          set_replace_fn := set_replace_fn forest;
          set_adapt_recursive := set_adapt_recursive forest;
          eclass_schemes := eclass_schemes forest;
          forest_world := w |}.

End Adapt.

(** ** The element algebra *)

Section Algebra.

Variable t8_element_t : Type.
Variable ts : t8_eclass_scheme_c t8_element_t.

(** [a] comes before [b] in the order of [compare]. *)
Definition sfc_lt (a b : t8_element_t) : Prop := t8_element_compare ts a b < 0.

(** An element below the maximum level; only such an element has children. *)
Definition refinable (e : t8_element_t) : Prop :=
  t8_element_level ts e < t8_element_maxlevel ts.

(** The child ids [0, 1, ..., k - 1]. *)
Definition child_ids (k : Z) : list Z := map Z.of_nat (seq 0 (Z.to_nat k)).

(** [within a b]: [b] is [a] or one of its descendants. *)
Inductive within (a : t8_element_t) : t8_element_t -> Prop :=
| within_self : within a a
| within_child (b : t8_element_t) (i : Z) :
    within a b -> refinable b ->
    0 <= i < t8_element_num_children ts b ->
    within a (t8_element_child ts b i).

(** [adjacent a b]: on the space-filling curve [b] begins where [a] ends.
    Two consecutive children of one element are adjacent, the last child
    ends where its parent ends, and the first child begins where its parent
    begins. *)
Inductive adjacent : t8_element_t -> t8_element_t -> Prop :=
| adjacent_siblings (q : t8_element_t) (i : Z) :
    refinable q -> 0 <= i -> i + 1 < t8_element_num_children ts q ->
    adjacent (t8_element_child ts q i) (t8_element_child ts q (i + 1))
| adjacent_last (a b : t8_element_t) :
    adjacent a b -> refinable a ->
    adjacent (t8_element_child ts a (t8_element_num_children ts a - 1)) b
| adjacent_first (a b : t8_element_t) :
    adjacent a b -> refinable b ->
    adjacent a (t8_element_child ts b 0).

(** Modelled from the spec: the laws of the element algebra, which the
    schemes (not among the sources) have to meet: the range of the level
    (section 3) and of [child_id] (section 4.1), properties 1, 2 and 4 of
    section 8, and the
    description of [compare] as a total order in which an ancestor comes
    before its descendants and a deeper element is compared through its
    ancestor.  They are stated for the elements below the maximum level,
    the others have no children.  [k] is the number of children of the
    class. *)
Record scheme_laws (k : Z) : Prop := {
  law_num_children : forall e, t8_element_num_children ts e = k;
  law_some_child : 1 <= k;
  law_child_id_range : forall e, 0 <= t8_element_child_id ts e < k;
  law_children : forall e, refinable e ->
    t8_element_children ts e k = map (t8_element_child ts e) (child_ids k);
  law_level_nonneg : forall e, 0 <= t8_element_level ts e;
  law_level_child : forall e i, refinable e -> 0 <= i < k ->
    t8_element_level ts (t8_element_child ts e i) = t8_element_level ts e + 1;
  law_parent_child : forall e i, refinable e -> 0 <= i < k ->
    t8_element_parent ts (t8_element_child ts e i) = e;
  law_child_id_child : forall e i, refinable e -> 0 <= i < k ->
    t8_element_child_id ts (t8_element_child ts e i) = i;
  law_compare_refl : forall e, t8_element_compare ts e e = 0;
  law_compare_trans : forall a b c, sfc_lt a b -> sfc_lt b c -> sfc_lt a c;
  law_compare_children : forall e i j, refinable e ->
    0 <= i < k -> 0 <= j < k ->
    t8_element_compare ts (t8_element_child ts e i) (t8_element_child ts e j)
    = Z.sgn (i - j);
  law_compare_ancestor : forall e i, refinable e -> 0 <= i < k ->
    sfc_lt e (t8_element_child ts e i);
  law_compare_descend : forall a b i, refinable a -> 0 <= i < k ->
    t8_element_level ts b <= t8_element_maxlevel ts ->
    sfc_lt a b -> ~ within a b -> sfc_lt (t8_element_child ts a i) b
}.

(** A family: the children of one element, in the order of their ids. *)
Definition is_family (k : Z) (fam : list t8_element_t) : Prop :=
  exists q, refinable q /\ fam = map (t8_element_child ts q) (child_ids k).

(** A sequence that covers a contiguous range of the curve. *)
Definition contiguous (l : list t8_element_t) : Prop := Sorted adjacent l.

(** No element lies above the maximum level. *)
Definition levels_ok (l : list t8_element_t) : Prop :=
  Forall (fun e => t8_element_level ts e <= t8_element_maxlevel ts) l.

(** The elements of a tree of a committed forest. *)
Record committed_elements (l : list t8_element_t) : Prop := {
  committed_some : l <> [];
  committed_contiguous : contiguous l;
  committed_levels : levels_ok l
}.

(** Strictly sorted by [compare]: every element comes before all the
    later ones. *)
Definition sfc_sorted (l : list t8_element_t) : Prop :=
  StronglySorted sfc_lt l.

(** The words of section 4.1 for a family: [k] elements that share a
    parent and carry the child ids 0, 1, ..., k - 1 in this order. *)
Definition family_by_ids (k : Z) (fam : list t8_element_t) : Prop :=
  elem_count fam = k /\
  exists p, forall i e,
      nth_error fam i = Some e ->
      t8_element_parent ts e = p /\ t8_element_child_id ts e = Z.of_nat i.

(** The entries carry the child ids 0, 1, 2, ... in this order. *)
Definition ids_in_order (l : list t8_element_t) : Prop :=
  forall i e, nth_error l i = Some e -> t8_element_child_id ts e = Z.of_nat i.

End Algebra.

(** ** The contract of the predicate and the invariant of the loop *)

Section Contracts.

Variable t8_element_t : Type.
Variable user_data_t : Type.
Variable forest : t8_forest t8_element_t user_data_t.
Variable ltreeid : Z.
Variable ts : t8_eclass_scheme_c t8_element_t.
Variable k : Z.

(** The predicate contract of section 4.4, for the tree [ltreeid]: a
    negative answer is given to a family only, and a positive answer only
    when the first element handed over is below the maximum level. *)
Definition adapt_contract : Prop :=
  forall u n elems,
    let r := fst (set_adapt_fn forest u ltreeid n elems) in
    (r < 0 -> is_family ts k elems) /\
    (0 < r -> forall e, hd_error elems = Some e -> refinable ts e).

(** Between two passes of the loop over the source elements [src]: the
    counters are in step with the arrays, and the output followed by the
    source elements not yet considered is contiguous. *)
Record adapt_inv (src : list t8_element_t)
  (st : adapt_state t8_element_t user_data_t) : Prop := {
  inv_considered : 0 <= el_considered st <= elem_count src;
  inv_inserted : el_inserted st = elem_count (telements st);
  inv_coarsen : 0 <= el_coarsen st;
  inv_contiguous :
    contiguous ts (telements st ++ skipn (Z.to_nat (el_considered st)) src);
  inv_levels : levels_ok ts (telements st)
}.

End Contracts.

Section Ready.

Variable t8_element_t : Type.
Variable user_data_t : Type.
Variable forest : t8_forest t8_element_t user_data_t.

(** The scheme [forest->scheme_cxx->eclass_schemes[tree->eclass]]. *)
Definition tree_scheme (tree : t8_tree t8_element_t)
  : t8_eclass_scheme_c t8_element_t :=
  eclass_schemes forest (eclass tree).

(** What [t8_forest_adapt] expects of the tree [ltreeid]: its array in the
    new forest is still empty, its scheme meets the laws, the predicate
    keeps its contract, and the source tree is one of a committed forest. *)
Definition tree_ready (ltreeid : Z) (tree tree_from : t8_tree t8_element_t)
  : Prop :=
  elements tree = [] /\
  exists k,
    scheme_laws (tree_scheme tree) k /\
    adapt_contract forest ltreeid (tree_scheme tree) k /\
    committed_elements (tree_scheme tree) (elements tree_from).

(** The same of all trees: the new forest has one tree for each tree of
    the source forest. *)
Definition forest_ready : Prop :=
  length (trees forest) = length (set_from forest) /\
  forall i tree tree_from,
    nth_error (trees forest) i = Some tree ->
    nth_error (set_from forest) i = Some tree_from ->
    tree_ready (Z.of_nat i) tree tree_from.

End Ready.

(** A call of the predicate hands over one element, or the
    [num_children] elements of a family of the tree's class. *)
Definition adapt_call_ok {t8_element_t user_data_t : Type}
  (forest : t8_forest t8_element_t user_data_t) (ev : event t8_element_t)
  : Prop :=
  match ev with
  | Ev_adapt ltreeid n elems _ =>
      exists tree k,
        sc_array_index (trees forest) ltreeid = Some tree /\
        scheme_laws (tree_scheme forest tree) k /\
        (n = 1 \/
         (n = k /\
          is_family (tree_scheme forest tree) k elems /\
          family_by_ids (tree_scheme forest tree) k elems))
  | Ev_replace _ _ _ _ _ => True
  end.

(** The events of [w] are those of the world in which [forest] starts,
    or calls as [adapt_call_ok] describes them. *)
Definition calls_ok {t8_element_t user_data_t : Type}
  (forest : t8_forest t8_element_t user_data_t)
  (w : world t8_element_t user_data_t) : Prop :=
  forall ev, In ev (trace w) ->
             In ev (trace (forest_world forest)) \/ adapt_call_ok forest ev.

(** The number of elements of the full refinement of an element down to
    [d] levels below it, with [k] children each, all levels counted: a
    bound on the passes of the refinement loop that the element causes. *)
Fixpoint subtree_size (k d : nat) : nat :=
  match d with
  | O => 1
  | S d' => S (k * subtree_size k d')
  end.

Definition refine_weight {t8_element_t : Type}
  (ts : t8_eclass_scheme_c t8_element_t) (k : Z) (e : t8_element_t) : nat :=
  subtree_size (Z.to_nat k)
    (Z.to_nat (t8_element_maxlevel ts - t8_element_level ts e)).

Definition refine_fuel {t8_element_t : Type}
  (ts : t8_eclass_scheme_c t8_element_t) (k : Z) (stack : list t8_element_t)
  : nat :=
  list_sum (map (refine_weight ts k) stack).

(** The predicate does not refine an element of the maximum level. *)
Definition stops_at_maxlevel {t8_element_t user_data_t : Type}
  (forest : t8_forest t8_element_t user_data_t) (ltreeid : Z)
  (ts : t8_eclass_scheme_c t8_element_t) : Prop :=
  forall u e,
    t8_element_level ts e = t8_element_maxlevel ts ->
    fst (set_adapt_fn forest u ltreeid 1 [e]) <= 0.

(** Modelled from the spec: [set_adapt (from, fn, recursive)] of section
    4.5 on a new forest, whose code is not among the sources: the new
    forest has an empty tree for every tree of [from], of the same class,
    and shares the schemes, the replace callback and the user data with
    it. *)
Definition t8_forest_set_adapt {t8_element_t user_data_t : Type}
  (from : t8_forest t8_element_t user_data_t)
  (fn : t8_forest_adapt_t t8_element_t user_data_t) (recursive : bool)
  : t8_forest t8_element_t user_data_t :=
  {| trees :=
       map (fun tree => {| eclass := eclass tree;
                           elements := [];
                           elements_offset := 0 |}) (trees from);
     local_num_elements := 0;
     set_from := trees from;
     set_adapt_fn := fn;
     set_replace_fn := set_replace_fn from;
     set_adapt_recursive := recursive;
     eclass_schemes := eclass_schemes from;
     forest_world := forest_world from |}.

(** What the two runs of property 8 expect of the tree [i]: its array in
    the new forest is empty, its scheme meets the laws, the source tree
    has elements, all of them below the maximum level, and the predicate
    [fn2] of the second run answers every family with a negative number. *)
Definition refine_coarsen_ready {t8_element_t user_data_t : Type}
  (forest : t8_forest t8_element_t user_data_t)
  (fn2 : t8_forest_adapt_t t8_element_t user_data_t) : Prop :=
  length (trees forest) = length (set_from forest) /\
  forall i tree tree_from,
    nth_error (trees forest) i = Some tree ->
    nth_error (set_from forest) i = Some tree_from ->
    elements tree = [] /\
    elements tree_from <> [] /\
    exists k,
      scheme_laws (tree_scheme forest tree) k /\
      Forall (refinable (tree_scheme forest tree)) (elements tree_from) /\
      forall u q,
        refinable (tree_scheme forest tree) q ->
        fst (fn2 u (Z.of_nat i) k
               (map (t8_element_child (tree_scheme forest tree) q)
                  (child_ids k))) < 0.

(** The levels of the elements of an array, each counted one up: a bound
    on the passes of the coarsening loop. *)
Definition coarsen_fuel {t8_element_t : Type}
  (ts : t8_eclass_scheme_c t8_element_t) (tel : list t8_element_t) : nat :=
  list_sum (map (fun e => Z.to_nat (t8_element_level ts e + 1)) tel).

(** The number of elements of a list of trees. *)
Definition count_elements {t8_element_t : Type}
  (l : list (t8_tree t8_element_t)) : Z :=
  fold_right (fun tree n => elem_count (elements tree) + n) 0 l.

(** ** A scheme to run the engine on

    Elements of a class with two children, written as the path of child
    ids from the root: [false] for child 0, [true] for child 1. *)
Module Line.

Definition element : Type := list bool.

Definition child (e : element) (i : Z) : element := e ++ [0 <? i].

Fixpoint compare (a b : element) : Z :=
  match a, b with
  | [], [] => 0
  | [], _ :: _ => -1
  | _ :: _, [] => 1
  | x :: a', y :: b' =>
      if Bool.eqb x y then compare a' b' else if x then 1 else -1
  end.

Definition scheme (maxlevel : Z) : t8_eclass_scheme_c element :=
  {| t8_element_maxlevel := maxlevel;
     t8_element_level := fun e => Z.of_nat (length e);
     t8_element_num_children := fun _ => 2;
     t8_element_child_id := fun e => if last e false then 1 else 0;
     t8_element_parent := fun e => removelast e;
     t8_element_child := child;
     t8_element_children := fun e n =>
       map (fun i => child e (Z.of_nat i)) (seq 0 (Z.to_nat n));
     t8_element_compare := compare |}.

End Line.

(** ** A forest to run the engine on

    One tree of lines of maximum level 3.  The predicate counts its calls
    in the user data; it refines what lies above level 2 and coarsens the
    families of level 3.  The replace callback adds 100 to the count. *)
Module Demo.

Import Line.

Definition maxlevel : Z := 3.

Definition level (e : element) : Z := Z.of_nat (length e).

(** The children of one element below the maximum level. *)
Definition family_b (a b : element) : bool :=
  match rev a, rev b with
  | false :: qa, true :: qb =>
      (if list_eq_dec bool_dec qa qb then true else false)
      && (level (rev qa) <? maxlevel)
  | _, _ => false
  end.

Definition decide (n : Z) (elems : list element) : Z :=
  match elems with
  | [a; b] =>
      if (n =? 2) && family_b a b && (level a =? 3) then -1
      else if level a <? 2 then 1 else 0
  | a :: _ => if level a <? 2 then 1 else 0
  | [] => 0
  end.

Definition adapt_fn : t8_forest_adapt_t element nat :=
  fun u _ n elems => (decide n elems, S u).

Definition replace_fn : t8_forest_replace_t element nat :=
  fun u _ _ _ _ _ => (u + 100)%nat.

Definition source : list element :=
  [[false; false; false]; [false; false; true]; [false; true]; [true]].

Definition line_tree (l : list element) : t8_tree element :=
  {| eclass := T8_ECLASS_LINE; elements := l; elements_offset := 0 |}.

Definition forest_of (fn : t8_forest_adapt_t element nat) (recursive : bool)
  (from : list (list element)) : t8_forest element nat :=
  {| trees := map (fun _ => line_tree []) from;
     local_num_elements := 0;
     set_from := map line_tree from;
     set_adapt_fn := fn;
     set_replace_fn := Some replace_fn;
     set_adapt_recursive := recursive;
     eclass_schemes := fun _ => scheme maxlevel;
     forest_world := {| user_data := O; trace := [] |} |}.

Definition forest : t8_forest element nat := forest_of adapt_fn true [source].

(** The predicate that keeps every element, and a forest of two trees with
    it. *)
Definition keep_fn : t8_forest_adapt_t element nat :=
  fun u _ _ _ => (0, S u).

Definition keep_forest : t8_forest element nat :=
  forest_of keep_fn true [source; [[false]; [true]]].

(** The predicates of property 8: one that refines on every call, one
    that refines the single elements and coarsens the families, and one
    that coarsens the families and keeps the single elements. *)
Definition refine_all_fn : t8_forest_adapt_t element nat :=
  fun u _ _ _ => (1, S u).

Definition refine_singletons_fn : t8_forest_adapt_t element nat :=
  fun u _ n _ => (if n =? 1 then 1 else -1, S u).

Definition coarsen_families_fn : t8_forest_adapt_t element nat :=
  fun u _ n _ => (if n =? 2 then -1 else 0, S u).

Definition halves : list element := [[false]; [true]].

Definition refine_all_forest : t8_forest element nat :=
  forest_of refine_all_fn false [halves; [[]]].

(** Three trees: [source], the two children of the root, and the root. *)
Definition forest3 : t8_forest element nat :=
  forest_of adapt_fn true [source; [[false]; [true]]; [[]]].

(** The forest a run leaves; the forest itself when the run does not end. *)
Definition run (fuel : nat) (f : t8_forest element nat)
  : t8_forest element nat :=
  match t8_forest_adapt fuel f with
  | Done f' => f'
  | _ => f
  end.

Definition result : t8_forest element nat := Eval vm_compute in run 10 forest.

(** A forest whose source tree has no element. *)
Definition empty_forest : t8_forest element nat :=
  forest_of adapt_fn true [[]].

Definition result3 : t8_forest element nat :=
  Eval vm_compute in run 10 forest3.

(** The state in which the loop over a tree starts. *)
Definition start : adapt_state element nat :=
  {| telements := [];
     el_considered := 0;
     el_inserted := 0;
     el_coarsen := 0;
     st_world := {| user_data := O; trace := [] |} |}.

(** The state a pass or a loop leaves; [start] when it does not end. *)
Definition state_of (o : outcome (adapt_state element nat))
  : adapt_state element nat :=
  match o with
  | Done st => st
  | _ => start
  end.

(** A tree whose first element is refined and whose last three elements
    are coarsened and kept: the states after the first pass and at the end
    of the loop. *)
Definition source4 : list element :=
  [[false]; [true; false; false]; [true; false; true]; [true; true]].

Definition forest4 : t8_forest element nat :=
  forest_of adapt_fn true [source4].

Definition refined4 : adapt_state element nat :=
  Eval vm_compute in
    state_of (t8_forest_adapt_body 10 forest4 0 (scheme maxlevel) source4 2
                start).

Definition final4 : adapt_state element nat :=
  Eval vm_compute in
    state_of (t8_forest_adapt_loop 10 forest4 0 (scheme maxlevel) source4 2
                refined4).

(** A forest whose only tree is the root element, and the state after the
    single pass of the recursive adapt over it: the root is refined twice. *)
Definition root_forest : t8_forest element nat :=
  forest_of adapt_fn true [[[]]].

Definition root_refined : adapt_state element nat :=
  {| telements := [[false; false]; [false; true]; [true; false]; [true; true]];
     el_considered := 1;
     el_inserted := 4;
     el_coarsen := 2;
     st_world :=
       {| user_data := 307%nat;
          trace :=
            [Ev_adapt 0 1 [[]] 1;
             Ev_replace 0 1 [[]] 2 [[false]; [true]];
             Ev_adapt 0 1 [[false]] 1;
             Ev_replace 0 1 [[false]] 2 [[false; false]; [false; true]];
             Ev_adapt 0 1 [[false; false]] 0;
             Ev_adapt 0 1 [[false; true]] 0;
             Ev_adapt 0 1 [[true]] 1;
             Ev_replace 0 1 [[true]] 2 [[true; false]; [true; true]];
             Ev_adapt 0 1 [[true; false]] 0;
             Ev_adapt 0 1 [[true; true]] 0] |} |}.

End Demo.

(** ** Predicates, elements and calls of a run *)

(** The predicate never answers with a negative number, so it never wants
    to coarsen; and it never answers with a positive one. *)
Definition never_coarsens {t8_element_t user_data_t : Type}
  (forest : t8_forest t8_element_t user_data_t) : Prop :=
  forall u tt n elems, 0 <= fst (set_adapt_fn forest u tt n elems).

Definition never_refines {t8_element_t user_data_t : Type}
  (forest : t8_forest t8_element_t user_data_t) : Prop :=
  forall u tt n elems, fst (set_adapt_fn forest u tt n elems) <= 0.

(** The answer of the predicate depends on the tree and on the first
    element handed over only. *)
Definition looks_at_first_only {t8_element_t user_data_t : Type}
  (forest : t8_forest t8_element_t user_data_t) : Prop :=
  forall u u' tt n n' elems elems',
    hd_error elems = hd_error elems' ->
    fst (set_adapt_fn forest u tt n elems)
    = fst (set_adapt_fn forest u' tt n' elems').

(** The predicate answers with a positive number only when the first
    element handed over lies below level [M]. *)
Definition refines_below {t8_element_t user_data_t : Type}
  (forest : t8_forest t8_element_t user_data_t) (M : Z) : Prop :=
  forall i tree u n elems e,
    nth_error (trees forest) i = Some tree ->
    0 < fst (set_adapt_fn forest u (Z.of_nat i) n elems) ->
    hd_error elems = Some e ->
    t8_element_level (tree_scheme forest tree) e < M.

(** No source element lies above level [M]. *)
Definition levels_below {t8_element_t user_data_t : Type}
  (forest : t8_forest t8_element_t user_data_t) (M : Z) : Prop :=
  forall i tree tree_from,
    nth_error (trees forest) i = Some tree ->
    nth_error (set_from forest) i = Some tree_from ->
    Forall (fun e => t8_element_level (tree_scheme forest tree) e <= M)
      (elements tree_from).

(** [o] is one of the elements [src], a child of one, or the parent of
    one. *)
Definition one_level {t8_element_t : Type}
  (ts : t8_eclass_scheme_c t8_element_t) (k : Z) (src : list t8_element_t)
  (o : t8_element_t) : Prop :=
  exists s,
    In s src /\
    (o = s \/
     (refinable ts s /\ exists j, 0 <= j < k /\ o = t8_element_child ts s j) \/
     (refinable ts o /\ exists j, 0 <= j < k /\ s = t8_element_child ts o j)).

(** A call that [t8_forest_adapt_refine_recursive] makes for the tree
    [ltreeid], when [added] are the elements it appends: the predicate is
    asked about one element, which is appended when the answer is not
    positive and lies below the maximum level when it is; the replace
    callback is handed one element and its children. *)
Definition refine_event_ok {t8_element_t : Type}
  (ts : t8_eclass_scheme_c t8_element_t) (k ltreeid : Z)
  (added : list t8_element_t) (ev : event t8_element_t) : Prop :=
  match ev with
  | Ev_adapt t n elems r =>
      t = ltreeid /\ n = 1 /\
      exists e, elems = [e] /\ (r <= 0 -> In e added) /\
                (0 < r -> refinable ts e)
  | Ev_replace t n_out out n_in inc =>
      t = ltreeid /\ n_out = 1 /\ n_in = k /\
      exists e, refinable ts e /\ out = [e] /\
                inc = map (t8_element_child ts e) (child_ids k)
  end.

(** A call of the replace callback hands over one element as the old one
    and its children as the new ones, or a family as the old ones and its
    parent as the new one. *)
Definition replace_call_ok {t8_element_t user_data_t : Type}
  (forest : t8_forest t8_element_t user_data_t) (ev : event t8_element_t)
  : Prop :=
  match ev with
  | Ev_adapt _ _ _ _ => True
  | Ev_replace ltreeid n_out out n_in inc =>
      exists tree k q,
        sc_array_index (trees forest) ltreeid = Some tree /\
        scheme_laws (tree_scheme forest tree) k /\
        refinable (tree_scheme forest tree) q /\
        let family :=
          map (t8_element_child (tree_scheme forest tree) q) (child_ids k) in
        (n_out = 1 /\ out = [q] /\ n_in = k /\ inc = family) \/
        (n_out = k /\ out = family /\ n_in = 1 /\ inc = [q])
  end.

Definition replaces_ok {t8_element_t user_data_t : Type}
  (forest : t8_forest t8_element_t user_data_t)
  (w : world t8_element_t user_data_t) : Prop :=
  forall ev, In ev (trace w) ->
             In ev (trace (forest_world forest)) \/ replace_call_ok forest ev.

(** The numbers of calls of the predicate and of the replace callback
    among the events [l]. *)
Definition is_adapt_call {t8_element_t : Type} (ev : event t8_element_t)
  : bool :=
  match ev with
  | Ev_adapt _ _ _ _ => true
  | Ev_replace _ _ _ _ _ => false
  end.

Definition count_adapt_calls {t8_element_t : Type}
  (l : list (event t8_element_t)) : Z :=
  elem_count (filter is_adapt_call l).

Definition count_replace_calls {t8_element_t : Type}
  (l : list (event t8_element_t)) : Z :=
  elem_count (filter (fun ev => negb (is_adapt_call ev)) l).

(** ** The adapt callback of [example/geometry/t8_example_geometries.cxx] *)

(** The functions of the scheme, the forest and the coarse mesh that the
    callback calls for the faces of an element; their code is not among
    the sources, so they are parameters. *)
Record t8_face_functions (t8_element_t : Type) : Type := {
  t8_element_num_faces : t8_element_t -> Z;
  t8_element_is_root_boundary : t8_element_t -> Z -> bool;
  t8_element_tree_face : t8_element_t -> Z -> Z;
  t8_forest_ltreeid_to_cmesh_ltreeid : Z -> Z;
  t8_cmesh_tree_face_is_boundary : Z -> Z -> bool
}.

Section Boundary.

Variable t8_element_t : Type.
Variable ts : t8_eclass_scheme_c t8_element_t.
Variable fs : t8_face_functions t8_element_t.

(** The loop [for (iface = 0; iface < num_faces; ++iface)] with [n] faces
    left from [iface] on: it returns 1 at the first face that lies on the
    boundary of the tree and whose tree face lies on the boundary of the
    domain. *)
Fixpoint adapt_boundary_faces (ltree_id : Z) (e : t8_element_t) (n : nat)
  (iface : Z) : Z :=
  match n with
  | O => 0
  | S n' =>
      if t8_element_is_root_boundary fs e iface
         && t8_cmesh_tree_face_is_boundary fs
              (t8_forest_ltreeid_to_cmesh_ltreeid fs ltree_id)
              (t8_element_tree_face fs e iface)
      then 1
      else adapt_boundary_faces ltree_id e n' (iface + 1)
  end.

(** [t8_geom_adapt_boundary]; [maxlevel] is the number that the user data
    of the forest points to.  Only [elements[0]] is read. *)
Definition t8_geom_adapt_boundary (maxlevel : Z)
  (ltree_id lelement_id is_family num_elements : Z)
  (elements : list t8_element_t) : outcome Z :=
  e <- of_option (nth_error elements 0) ;;
  let num_faces := t8_element_num_faces fs e in
  if t8_element_level ts e >=? maxlevel then Done 0
  else Done (adapt_boundary_faces ltree_id e (Z.to_nat num_faces) 0).

(** The callback as the predicate of a forest of [t8_forest_adapt] above,
    which hands over the tree, the number of elements and the elements;
    the user data is not changed. *)
Definition boundary_adapt_fn (user_data_t : Type) (maxlevel : Z)
  : t8_forest_adapt_t t8_element_t user_data_t :=
  fun u ltreeid n elems =>
    match t8_geom_adapt_boundary maxlevel ltreeid 0 0 n elems with
    | Done r => (r, u)
    | _ => (0, u)
    end.

End Boundary.

Arguments boundary_adapt_fn {t8_element_t} ts fs user_data_t maxlevel.

(** ** More forests to run the engine on *)

Module Runs.

Import Line.

(** The four elements of level 2. *)
Definition quarters : list element :=
  [[false; false]; [false; true]; [true; false]; [true; true]].

(** A predicate that coarsens every family and keeps the other elements. *)
Definition coarsen_fn : t8_forest_adapt_t element nat :=
  fun u _ n elems =>
    (match elems with
     | [a; b] => if (n =? 2) && Demo.family_b a b then -1 else 0
     | _ => 0
     end, S u).

Definition coarsen_forest : t8_forest element nat :=
  Demo.forest_of coarsen_fn true [quarters].

Definition coarsen_result : t8_forest element nat :=
  Eval vm_compute in Demo.run 10 coarsen_forest.

(** The two halves under the predicate of [Demo], with recursion. *)
Definition halves_forest : t8_forest element nat :=
  Demo.forest_of Demo.adapt_fn true [Demo.halves].

Definition halves_result : t8_forest element nat :=
  Eval vm_compute in Demo.run 10 halves_forest.

(** The tree of [Demo] without recursion, and the run of its one tree. *)
Definition flat_forest : t8_forest element nat :=
  Demo.forest_of Demo.adapt_fn false [Demo.source].

Definition flat_result : t8_forest element nat :=
  Eval vm_compute in Demo.run 10 flat_forest.

(** What a run that ends returns; [d] when it does not end. *)
Definition returned {A : Type} (d : A) (o : outcome A) : A :=
  match o with
  | Done a => a
  | _ => d
  end.

Definition start_world : world element nat :=
  {| user_data := O; trace := [] |}.

Definition flat_tree : t8_tree element * Z * world element nat :=
  Eval vm_compute in
    returned (Demo.line_tree [], 0, start_world)
      (t8_forest_adapt_tree 10 flat_forest 0 (Demo.line_tree []) 0
         start_world).

(** An array whose last two elements are a family of level 3, and the
    candidates that a refinement of the root leaves. *)
Definition tail_family : list element :=
  [[false]; [true; true; false]; [true; true; true]].

Definition coarsened_tail : list element * Z * world element nat :=
  Eval vm_compute in
    returned ([], 0, start_world)
      (t8_forest_adapt_coarsen_recursive 4 Demo.forest 0
         (scheme Demo.maxlevel) tail_family 0 3 start_world).

Definition refined_halves
  : list element * list element * Z * world element nat :=
  Eval vm_compute in
    returned ([], [], 0, start_world)
      (t8_forest_adapt_refine_recursive 10 Demo.forest 0
         (scheme Demo.maxlevel) Demo.halves [] 0 start_world).

End Runs.

(** The line with its two ends as the faces of the domain, and the
    callback of the example on it: the elements at the two ends are
    refined down to level 3. *)
Module Ends.

Import Line.

Definition faces : t8_face_functions element :=
  {| t8_element_num_faces := fun _ => 2;
     t8_element_is_root_boundary := fun e iface =>
       if iface =? 0 then forallb negb e else forallb (fun b => b) e;
     t8_element_tree_face := fun _ iface => iface;
     t8_forest_ltreeid_to_cmesh_ltreeid := fun ltreeid => ltreeid;
     t8_cmesh_tree_face_is_boundary := fun _ _ => true |}.

Definition forest : t8_forest element nat :=
  Demo.forest_of (boundary_adapt_fn (scheme Demo.maxlevel) faces nat 3) true
    [Demo.halves].

Definition result : t8_forest element nat :=
  Eval vm_compute in Demo.run 20 forest.

End Ends.

(** * Properties *)

Unset Implicit Arguments.

(** ** Lists whose consecutive entries are related *)

Section Chains.

Variable A : Type.
Variable R : A -> A -> Prop.

Lemma last_error_snoc (l : list A) (a : A) : last_error (l ++ [a]) = Some a.
Proof.
  induction l as [| x l IH]; [reflexivity |].
  simpl. destruct (l ++ [a]) eqn:E; [now destruct l | exact IH].
Qed.

Lemma last_error_app (l1 l2 : list A) :
  l2 <> [] -> last_error (l1 ++ l2) = last_error l2.
Proof.
  intros H2. induction l1 as [| x l1 IH]; [reflexivity |].
  simpl. destruct (l1 ++ l2) eqn:E; [| exact IH].
  apply app_eq_nil in E. now destruct E.
Qed.

Lemma last_error_None (l : list A) : last_error l = None -> l = [].
Proof.
  induction l as [| x l IH]; [reflexivity |].
  simpl. destruct l; [discriminate |]. intros H. now specialize (IH H).
Qed.

Lemma last_error_Some (l : list A) (a : A) :
  last_error l = Some a -> exists l', l = l' ++ [a].
Proof.
  induction l as [| x l IH]; [discriminate |].
  simpl. destruct l as [| y l].
  - intros [= ->]. now exists [].
  - intros H. destruct (IH H) as [l' ->]. now exists (x :: l').
Qed.

Lemma Sorted_app_iff (l1 l2 : list A) :
  Sorted R (l1 ++ l2) <->
  Sorted R l1 /\ Sorted R l2 /\
  (forall a b, last_error l1 = Some a -> hd_error l2 = Some b -> R a b).
Proof.
  induction l1 as [| x l1 IH]; simpl.
  - split; [intros H; repeat split; [constructor | exact H | discriminate]
           | now intros (_ & H & _)].
  - split.
    + intros H. inversion H as [| ? ? Hs Hh]; subst.
      apply IH in Hs. destruct Hs as (H1 & H2 & H3).
      destruct l1 as [| y l1].
      * repeat split; [repeat constructor | exact H2 |].
        intros a b [= <-] Hb. destruct l2; [discriminate |].
        injection Hb as ->. now inversion Hh.
      * repeat split; [| exact H2 | exact H3].
        constructor; [exact H1 |]. inversion Hh. now constructor.
    + intros (H1 & H2 & H3). inversion H1 as [| ? ? Hs Hh]; subst.
      constructor.
      * apply IH. repeat split; [exact Hs | exact H2 |].
        destruct l1; [discriminate | exact H3].
      * destruct l1 as [| y l1]; simpl.
        -- destruct l2; constructor. now apply H3.
        -- inversion Hh. now constructor.
Qed.

(** Replacing a part [m] of the list by [m'] keeps the list a chain when
    [m'] is a chain that takes over the neighbours of [m]. *)
Lemma Sorted_splice (l1 m m' l2 : list A) :
  Sorted R (l1 ++ m ++ l2) ->
  Sorted R m' -> m' <> [] ->
  (forall x a a', hd_error m = Some a -> hd_error m' = Some a' ->
                  R x a -> R x a') ->
  (forall y b b', last_error m = Some b -> last_error m' = Some b' ->
                  R b y -> R b' y) ->
  (m = [] -> False) ->
  Sorted R (l1 ++ m' ++ l2).
Proof.
  intros H Hm' Hne Hhd Hlast Hm.
  apply Sorted_app_iff in H. destruct H as (H1 & H & H1m).
  apply Sorted_app_iff in H. destruct H as (_ & H2 & Hm2).
  destruct m as [| a m]; [now destruct Hm |].
  destruct m' as [| a' m']; [now destruct Hne |].
  destruct (last_error (a :: m)) as [b |] eqn:Eb;
    [| apply last_error_None in Eb; discriminate].
  destruct (last_error (a' :: m')) as [b' |] eqn:Eb';
    [| apply last_error_None in Eb'; discriminate].
  apply Sorted_app_iff. repeat split; [exact H1 | |].
  - apply Sorted_app_iff. repeat split; [exact Hm' | exact H2 |].
    intros x y Hx Hy. rewrite Eb' in Hx. injection Hx as <-.
    apply (Hlast y b b'); [reflexivity | reflexivity |]. now apply Hm2.
  - intros x y Hx Hy. simpl in Hy. injection Hy as <-.
    apply (Hhd x a a'); [reflexivity | reflexivity |]. now apply H1m.
Qed.

Lemma last_error_nth (l : list A) :
  last_error l = nth_error l (length l - 1).
Proof.
  induction l as [| x l IH]; [reflexivity |].
  destruct l as [| y l]; [reflexivity |].
  change (last_error (x :: y :: l)) with (last_error (y :: l)).
  rewrite IH. cbn [length].
  replace (S (S (length l)) - 1)%nat with (S (S (length l) - 1)) by lia.
  reflexivity.
Qed.

(** A prefix [x] of [a ++ b] that is no longer than [a] is a prefix of
    [a]. *)
Lemma app_prefix_short (x rest a b : list A) :
  a ++ b = x ++ rest -> (length x <= length a)%nat ->
  exists rest', a = x ++ rest'.
Proof.
  intros H Hlen. exists (skipn (length x) a).
  rewrite <- (firstn_skipn (length x) a) at 1. f_equal.
  apply (f_equal (firstn (length x))) in H.
  rewrite firstn_app in H.
  replace (length x - length a)%nat with 0%nat in H by lia.
  rewrite firstn_O, app_nil_r in H. rewrite H.
  rewrite firstn_app, Nat.sub_diag, firstn_O, app_nil_r.
  apply firstn_all.
Qed.

End Chains.

(** ** Arrays *)

Section Arrays.

Variable A : Type.

Lemma sc_array_index_Some (a : list A) (i : Z) (e : A) :
  sc_array_index a i = Some e <-> 0 <= i /\ nth_error a (Z.to_nat i) = Some e.
Proof.
  unfold sc_array_index. destruct (Z.ltb_spec i 0); split.
  - discriminate.
  - intros [Hi _]. lia.
  - intros H'. split; [lia | exact H'].
  - now intros [_ H'].
Qed.

Lemma sc_array_index_in_range (a : list A) (i : Z) :
  0 <= i < elem_count a -> exists e, sc_array_index a i = Some e.
Proof.
  intros Hi. unfold elem_count in Hi.
  destruct (nth_error a (Z.to_nat i)) as [e |] eqn:E.
  - exists e. apply sc_array_index_Some. split; [lia | exact E].
  - apply nth_error_None in E. lia.
Qed.

Lemma sc_array_index_bound (a : list A) (i : Z) (e : A) :
  sc_array_index a i = Some e -> 0 <= i < elem_count a.
Proof.
  intros H. apply sc_array_index_Some in H. destruct H as [Hi H].
  assert (nth_error a (Z.to_nat i) <> None) as Hn by congruence.
  apply nth_error_Some in Hn. unfold elem_count. lia.
Qed.

Lemma firstn_succ_nth (l : list A) (m : nat) (e : A) :
  nth_error l m = Some e -> firstn (S m) l = firstn m l ++ [e].
Proof.
  revert m. induction l as [| x l IH]; intros [| m] H; try discriminate.
  - injection H as ->. reflexivity.
  - simpl in *. f_equal. now apply IH.
Qed.

Lemma skipn_nth_cons (l : list A) (m : nat) (e : A) :
  nth_error l m = Some e -> skipn m l = e :: skipn (S m) l.
Proof.
  revert m. induction l as [| x l IH]; intros [| m] H; try discriminate.
  - injection H as ->. reflexivity.
  - simpl in *. now apply IH.
Qed.

Lemma sc_array_resize_full (a : list A) :
  sc_array_resize a (elem_count a) = Some a.
Proof.
  unfold sc_array_resize, elem_count.
  destruct (Z.leb_spec 0 (Z.of_nat (length a))); [| lia].
  destruct (Z.leb_spec (Z.of_nat (length a)) (Z.of_nat (length a))); [| lia].
  simpl. now rewrite Nat2Z.id, firstn_all.
Qed.

Lemma sc_array_resize_Some (a b : list A) (n : Z) :
  sc_array_resize a n = Some b ->
  b = firstn (Z.to_nat n) a /\ elem_count b = n /\ 0 <= n <= elem_count a.
Proof.
  unfold sc_array_resize, elem_count.
  destruct (Z.leb_spec 0 n); [| discriminate].
  destruct (Z.leb_spec n (Z.of_nat (length a))); [| discriminate].
  simpl. intros [= <-]. rewrite length_firstn. repeat split; lia.
Qed.

Lemma sc_list_prepend_down_firstn (buf : list A) (n : nat) (l : list A) :
  (n <= length buf)%nat ->
  sc_list_prepend_down buf n l = Done (firstn n buf ++ l).
Proof.
  revert l. induction n as [| n IH]; intros l Hn; [reflexivity |].
  simpl sc_list_prepend_down.
  destruct (nth_error buf n) as [e |] eqn:E.
  - rewrite IH by lia. rewrite (firstn_succ_nth _ _ _ E), <- app_assoc.
    reflexivity.
  - apply nth_error_None in E. lia.
Qed.

Lemma sc_list_prepend_down_all (buf l : list A) :
  sc_list_prepend_down buf (length buf) l = Done (buf ++ l).
Proof.
  rewrite sc_list_prepend_down_firstn by lia. now rewrite firstn_all.
Qed.

Lemma sc_array_index_app_skipn (a : list A) (pos i : Z) (e : A) :
  0 <= pos -> 0 <= i ->
  sc_array_index a (pos + i) = Some e ->
  nth_error (skipn (Z.to_nat pos) a) (Z.to_nat i) = Some e.
Proof.
  intros Hp Hi H. apply sc_array_index_Some in H. destruct H as [_ H].
  rewrite nth_error_skipn, <- H. f_equal. lia.
Qed.

(** Putting one element in the place of the last entries [w] of an array,
    the way the coarsening does: the count is lowered first, then the slot
    of the first entry of [w] is overwritten. *)
Lemma sc_array_replace_tail (a w : list A) (x : A) :
  w <> [] ->
  exists b,
    sc_array_resize (a ++ w) (elem_count (a ++ w) - (elem_count w - 1))
    = Some b /\
    sc_array_write b (elem_count a) x = Some (a ++ [x]).
Proof.
  intros Hw. destruct w as [| y w]; [now destruct Hw |].
  exists (a ++ [y]). unfold sc_array_resize, sc_array_write, elem_count.
  rewrite !length_app. simpl length. split.
  - destruct (Z.leb_spec 0 (Z.of_nat (length a + S (length w))
                            - (Z.of_nat (S (length w)) - 1))); [| lia].
    destruct (Z.leb_spec (Z.of_nat (length a + S (length w))
                          - (Z.of_nat (S (length w)) - 1))
                (Z.of_nat (length a + S (length w)))); [| lia].
    simpl andb. cbv iota. f_equal.
    replace (Z.to_nat _) with (length a + 1)%nat by lia.
    rewrite firstn_app. replace (length a + 1 - length a)%nat with 1%nat by lia.
    rewrite firstn_all2 by lia. reflexivity.
  - destruct (Z.leb_spec 0 (Z.of_nat (length a))); [| lia].
    destruct (Z.ltb_spec (Z.of_nat (length a)) (Z.of_nat (length a + 1)));
      [| lia].
    simpl andb. cbv iota. rewrite Nat2Z.id. f_equal.
    rewrite firstn_app, Nat.sub_diag, firstn_all. simpl firstn.
    rewrite app_nil_r. f_equal. f_equal.
    rewrite skipn_all2; [reflexivity |]. rewrite length_app. simpl. lia.
Qed.

End Arrays.

(** ** The element algebra *)

Section AlgebraFacts.

Variable t8_element_t : Type.
Variable ts : t8_eclass_scheme_c t8_element_t.
Variable k : Z.
Hypothesis laws : scheme_laws ts k.

Local Abbreviation child := (t8_element_child ts).
Local Abbreviation level := (t8_element_level ts).

Lemma child_ids_length (n : Z) : length (child_ids n) = Z.to_nat n.
Proof. unfold child_ids. now rewrite length_map, length_seq. Qed.

Lemma child_ids_nth (n : Z) (i : nat) :
  (i < Z.to_nat n)%nat -> nth_error (child_ids n) i = Some (Z.of_nat i).
Proof.
  intros Hi. unfold child_ids.
  rewrite nth_error_map, nth_error_seq.
  destruct (Nat.ltb_spec i (Z.to_nat n)); [reflexivity | lia].
Qed.

Lemma child_ids_range (n i : Z) : In i (child_ids n) -> 0 <= i < n.
Proof.
  unfold child_ids. rewrite in_map_iff. intros (j & <- & Hj).
  apply in_seq in Hj. lia.
Qed.

Lemma within_level (a b : t8_element_t) :
  within ts a b -> a = b \/ level a < level b.
Proof.
  induction 1 as [| b i Hab IH Hb Hi]; [now left | right].
  rewrite (law_num_children laws) in Hi.
  rewrite (law_level_child laws) by assumption.
  destruct IH as [-> | IH]; lia.
Qed.

Lemma within_trans (a b c : t8_element_t) :
  within ts a b -> within ts b c -> within ts a c.
Proof.
  intros Hab Hbc. induction Hbc; [assumption | now constructor].
Qed.

Lemma within_child_inv (a b : t8_element_t) (i : Z) :
  refinable ts b -> 0 <= i < k ->
  within ts a (child b i) -> a = child b i \/ within ts a b.
Proof.
  intros Hb Hi H. inversion H as [Heq | b' i' Hab' Hb' Hi' Heq]; [now left |].
  right. rewrite (law_num_children laws) in Hi'.
  assert (b' = b) as ->; [| assumption].
  rewrite <- (law_parent_child laws Hb' Hi'), Heq.
  now apply (law_parent_child laws).
Qed.

Lemma sfc_lt_irrefl (a : t8_element_t) : ~ sfc_lt ts a a.
Proof. unfold sfc_lt. rewrite (law_compare_refl laws). lia. Qed.

Lemma adjacent_levels (a b : t8_element_t) :
  adjacent ts a b ->
  level a <= t8_element_maxlevel ts /\ level b <= t8_element_maxlevel ts.
Proof.
  pose proof (law_some_child laws) as Hk. unfold refinable.
  induction 1 as [q i Hq Hi Hik | a b Hab [IH1 IH2] Ha | a b Hab [IH1 IH2] Hb];
    rewrite ?(law_num_children laws) in *;
    rewrite ?(law_level_child laws) by (assumption || lia);
    unfold refinable in *; lia.
Qed.

(** Adjacent elements are in order, and the second one is no descendant of
    the first. *)
Lemma adjacent_sfc (a b : t8_element_t) :
  adjacent ts a b -> sfc_lt ts a b /\ ~ within ts a b.
Proof.
  induction 1 as [q i Hq Hi Hik | a b Hab [IH1 IH2] Ha | a b Hab [IH1 IH2] Hb].
  - rewrite (law_num_children laws) in Hik. split.
    + unfold sfc_lt. rewrite (law_compare_children laws) by (assumption || lia).
      lia.
    + intros H. apply within_level in H.
      rewrite !(law_level_child laws) in H by (assumption || lia).
      destruct H as [H | H]; [| lia].
      apply (f_equal (t8_element_child_id ts)) in H.
      rewrite !(law_child_id_child laws) in H by (assumption || lia). lia.
  - rewrite (law_num_children laws).
    pose proof (law_some_child laws) as Hk. split.
    + apply (law_compare_descend laws); try (assumption || lia).
      now apply adjacent_levels in Hab.
    + intros H. apply IH2. apply within_trans with (2 := H).
      apply within_child; [constructor | assumption |].
      rewrite (law_num_children laws). lia.
  - pose proof (law_some_child laws) as Hk.
    assert (Hlt : sfc_lt ts b (child b 0))
      by (apply (law_compare_ancestor laws); (assumption || lia)).
    split.
    + now apply (law_compare_trans laws) with b.
    + intros H. apply within_child_inv in H; [| assumption | lia].
      destruct H as [-> | H]; [| now apply IH2].
      apply (sfc_lt_irrefl b).
      now apply (law_compare_trans laws) with (child b 0).
Qed.

(** What ends where the first child begins ends where the parent begins. *)
Lemma adjacent_first_inv (x c : t8_element_t) :
  adjacent ts x c ->
  forall q, refinable ts q -> c = child q 0 -> adjacent ts x q.
Proof.
  pose proof (law_some_child laws) as Hk.
  induction 1 as [q' i Hq' Hi Hik | a b Hab IH Ha | a b Hab IH Hb];
    intros q Hq Heq.
  - rewrite (law_num_children laws) in Hik.
    apply (f_equal (t8_element_child_id ts)) in Heq.
    rewrite !(law_child_id_child laws) in Heq by (assumption || lia). lia.
  - apply adjacent_last; [| assumption]. now apply IH.
  - assert (b = q) as ->; [| assumption].
    rewrite <- (law_parent_child laws (e := b) (i := 0)) by (assumption || lia).
    rewrite Heq. apply (law_parent_child laws); (assumption || lia).
Qed.

(** What begins where the last child ends begins where the parent ends. *)
Lemma adjacent_last_inv (c y : t8_element_t) :
  adjacent ts c y ->
  forall q, refinable ts q -> c = child q (k - 1) -> adjacent ts q y.
Proof.
  pose proof (law_some_child laws) as Hk.
  induction 1 as [q' i Hq' Hi Hik | a b Hab IH Ha | a b Hab IH Hb];
    intros q Hq Heq.
  - rewrite (law_num_children laws) in Hik.
    apply (f_equal (t8_element_child_id ts)) in Heq.
    rewrite !(law_child_id_child laws) in Heq by (assumption || lia). lia.
  - rewrite (law_num_children laws) in Heq.
    assert (a = q) as ->; [| assumption].
    rewrite <- (law_parent_child laws (e := a) (i := k - 1))
      by (assumption || lia).
    rewrite Heq. apply (law_parent_child laws); (assumption || lia).
  - apply adjacent_first; [| assumption]. now apply IH.
Qed.

Lemma children_seq_contiguous (q : t8_element_t) (n s : nat) :
  refinable ts q -> Z.of_nat (s + n) <= k ->
  contiguous ts (map (child q) (map Z.of_nat (seq s n))).
Proof.
  intros Hq. revert s. induction n as [| n IH]; intros s Hs; cbn [map seq].
  - constructor.
  - constructor; [apply IH; lia |].
    destruct n as [| n]; cbn [map seq]; constructor.
    replace (Z.of_nat (S s)) with (Z.of_nat s + 1) by lia.
    apply adjacent_siblings;
      [assumption | lia | rewrite (law_num_children laws); lia].
Qed.

Lemma children_contiguous (q : t8_element_t) :
  refinable ts q -> contiguous ts (map (child q) (child_ids k)).
Proof.
  intros Hq. apply children_seq_contiguous; [assumption |].
  pose proof (law_some_child laws). lia.
Qed.

Lemma child_ids_first : exists l, child_ids k = 0 :: l.
Proof.
  pose proof (law_some_child laws) as Hk. unfold child_ids.
  destruct (Z.to_nat k) as [| n] eqn:E; [lia |]. now exists (map Z.of_nat (seq 1 n)).
Qed.

Lemma child_ids_last : child_ids k = child_ids (k - 1) ++ [k - 1].
Proof.
  pose proof (law_some_child laws) as Hk. unfold child_ids.
  replace (Z.to_nat k) with (S (Z.to_nat (k - 1))) by lia.
  rewrite seq_S, map_app. simpl. do 2 f_equal. lia.
Qed.

Lemma children_hd (q : t8_element_t) :
  hd_error (map (child q) (child_ids k)) = Some (child q 0).
Proof. destruct child_ids_first as [l ->]. reflexivity. Qed.

Lemma children_last (q : t8_element_t) :
  last_error (map (child q) (child_ids k)) = Some (child q (k - 1)).
Proof. rewrite child_ids_last, map_app. apply last_error_snoc. Qed.

Lemma children_not_nil (q : t8_element_t) : map (child q) (child_ids k) <> [].
Proof. destruct child_ids_first as [l ->]. discriminate. Qed.

Lemma children_length (q : t8_element_t) :
  elem_count (map (child q) (child_ids k)) = k.
Proof.
  pose proof (law_some_child laws) as Hk. unfold elem_count.
  rewrite length_map, child_ids_length. lia.
Qed.

Lemma children_levels (q : t8_element_t) :
  refinable ts q -> levels_ok ts (map (child q) (child_ids k)).
Proof.
  intros Hq. apply Forall_forall. intros e He.
  apply in_map_iff in He. destruct He as (i & <- & Hi).
  apply child_ids_range in Hi.
  rewrite (law_level_child laws) by assumption. unfold refinable in Hq. lia.
Qed.

Lemma family_parent_level (q : t8_element_t) :
  refinable ts q -> level q <= t8_element_maxlevel ts.
Proof. unfold refinable. lia. Qed.

(** Refining one element of a contiguous sequence. *)
Lemma contiguous_refine (l1 l2 : list t8_element_t) (e : t8_element_t) :
  refinable ts e ->
  contiguous ts (l1 ++ [e] ++ l2) ->
  contiguous ts (l1 ++ map (child e) (child_ids k) ++ l2).
Proof.
  intros He H. pose proof (law_some_child laws) as Hk.
  apply Sorted_splice with (m := [e]); try assumption.
  - now apply children_contiguous.
  - apply children_not_nil.
  - intros x a a' [= <-]. rewrite children_hd. intros [= <-] Hx.
    now apply adjacent_first.
  - intros y b b' [= <-]. rewrite children_last. intros [= <-] Hy.
    rewrite <- (law_num_children laws e). now apply adjacent_last.
  - discriminate.
Qed.

(** Coarsening one family of a contiguous sequence. *)
Lemma contiguous_coarsen (l1 l2 : list t8_element_t) (q : t8_element_t) :
  refinable ts q ->
  contiguous ts (l1 ++ map (child q) (child_ids k) ++ l2) ->
  contiguous ts (l1 ++ [q] ++ l2).
Proof.
  intros Hq H.
  apply Sorted_splice with (m := map (child q) (child_ids k)); try assumption.
  - repeat constructor.
  - discriminate.
  - intros x a a'. rewrite children_hd. intros [= <-] [= <-] Hx.
    now apply adjacent_first_inv with (child q 0).
  - intros y b b'. rewrite children_last. intros [= <-] [= <-] Hy.
    now apply adjacent_last_inv with (child q (k - 1)).
  - apply children_not_nil.
Qed.

Lemma contiguous_sorted (l : list t8_element_t) :
  contiguous ts l -> sfc_sorted ts l.
Proof.
  intros H. apply Sorted_StronglySorted.
  - intros a b c. apply (law_compare_trans laws).
  - induction H as [| a l Hl IH Ha]; constructor; [assumption |].
    destruct Ha; constructor. now apply adjacent_sfc.
Qed.

Lemma sfc_sorted_NoDup (l : list t8_element_t) : sfc_sorted ts l -> NoDup l.
Proof.
  induction 1 as [| a l Hl IH Ha]; constructor; [| assumption].
  intros Hin. rewrite Forall_forall in Ha.
  now apply (sfc_lt_irrefl a), Ha.
Qed.

(** Two adjacent elements with consecutive child ids are siblings. *)
Lemma adjacent_consecutive_ids (a b : t8_element_t) :
  adjacent ts a b ->
  t8_element_child_id ts b = t8_element_child_id ts a + 1 ->
  exists q,
    refinable ts q /\
    a = child q (t8_element_child_id ts a) /\
    b = child q (t8_element_child_id ts a + 1) /\
    t8_element_child_id ts a + 1 < k.
Proof.
  pose proof (law_some_child laws) as Hk.
  intros Hadj Hid.
  pose proof (law_child_id_range laws a) as Ha.
  pose proof (law_child_id_range laws b) as Hb.
  destruct Hadj as [q i Hq Hi Hik | a' b Hab Ha' | a b' Hab Hb'].
  - rewrite (law_num_children laws) in Hik. exists q.
    rewrite (law_child_id_child laws) by (assumption || lia).
    repeat split; (assumption || lia).
  - rewrite (law_num_children laws) in *.
    rewrite (law_child_id_child laws) in Hid by (assumption || lia). lia.
  - rewrite (law_child_id_child laws) in Hid by (assumption || lia). lia.
Qed.

Lemma siblings_from (q : t8_element_t) (l : list t8_element_t) :
  refinable ts q ->
  forall i,
    0 <= i < k ->
    contiguous ts (child q i :: l) ->
    (forall j e, nth_error l j = Some e ->
                 t8_element_child_id ts e = i + 1 + Z.of_nat j) ->
    l = map (child q) (map (fun j => i + 1 + Z.of_nat j) (seq 0 (length l))).
Proof.
  intros Hq. induction l as [| e l IH]; intros i Hi Hc Hids; [reflexivity |].
  inversion Hc as [| ? ? Hc' Hhd]; subst. inversion Hhd as [| ? ? Hadj]; subst.
  pose proof (Hids 0%nat e eq_refl) as He. rewrite Z.add_0_r in He.
  destruct (adjacent_consecutive_ids _ _ Hadj) as (q' & Hq' & Ea & Eb & Hlt).
  { rewrite (law_child_id_child laws) by assumption. exact He. }
  rewrite (law_child_id_child laws) in Ea, Eb, Hlt by assumption.
  assert (q' = q) as ->.
  { rewrite <- (law_parent_child laws (e := q') (i := i)) by (assumption || lia).
    rewrite <- Ea. apply (law_parent_child laws); assumption. }
  cbn [length seq map]. rewrite Z.add_0_r. f_equal; [exact Eb |].
  rewrite <- seq_shift, map_map.
  etransitivity; [apply (IH (i + 1)) |].
  - lia.
  - now rewrite <- Eb.
  - intros j x Hx. rewrite (Hids (S j) x Hx). lia.
  - rewrite !map_map. apply map_ext. intros j. f_equal. lia.
Qed.

(** In a contiguous sequence, [k] elements in a row that carry the child
    ids 0, 1, ..., k - 1 are a family, when a family has two elements at
    least. *)
Lemma contiguous_ids_family (fam : list t8_element_t) :
  2 <= k ->
  contiguous ts fam -> ids_in_order ts fam -> elem_count fam = k ->
  is_family ts k fam.
Proof.
  intros Hk Hc Hids Hlen. unfold elem_count in Hlen.
  destruct fam as [| e0 [| e1 l]]; try (simpl in Hlen; lia).
  assert (Hlen' : Z.of_nat (length (e0 :: e1 :: l)) <= k <=
                  Z.of_nat (length (e0 :: e1 :: l))) by lia.
  clear Hlen.
  inversion Hc as [| ? ? Hc' Hhd]; subst. inversion Hhd as [| ? ? Hadj]; subst.
  pose proof (Hids 0%nat e0 eq_refl) as H0.
  pose proof (Hids 1%nat e1 eq_refl) as H1.
  destruct (adjacent_consecutive_ids _ _ Hadj) as (q & Hq & Ea & _ & _);
    [rewrite H0, H1; reflexivity |].
  rewrite H0 in Ea. exists q. split; [exact Hq |].
  rewrite Ea in Hc.
  pose proof (siblings_from q (e1 :: l) Hq 0 ltac:(lia) Hc) as Hl.
  rewrite Hl.
  - rewrite Ea at 1. unfold child_ids.
    replace (Z.to_nat k) with (S (length (e1 :: l)))
      by (cbn [length] in *; lia).
    cbn [seq map]. f_equal.
    rewrite <- seq_shift, !map_map. apply map_ext. intros j. f_equal. lia.
  - intros j e He. rewrite (Hids (S j) e He). lia.
Qed.

Lemma contiguous_app_l (l1 l2 : list t8_element_t) :
  contiguous ts (l1 ++ l2) -> contiguous ts l1.
Proof. intros H. now apply Sorted_app_iff in H. Qed.

Lemma contiguous_app_r (l1 l2 : list t8_element_t) :
  contiguous ts (l1 ++ l2) -> contiguous ts l2.
Proof. intros H. now apply Sorted_app_iff in H. Qed.

(** A family shares its parent and carries the child ids in order. *)
Lemma is_family_by_ids (fam : list t8_element_t) :
  is_family ts k fam -> family_by_ids ts k fam.
Proof.
  intros (q & Hq & ->). split; [apply children_length |].
  exists q. intros i e He. rewrite nth_error_map in He.
  destruct (nth_error (child_ids k) i) as [j |] eqn:Ej; [| discriminate].
  injection He as <-.
  assert (Hi : (i < Z.to_nat k)%nat).
  { rewrite <- child_ids_length. apply nth_error_Some. congruence. }
  rewrite child_ids_nth in Ej by assumption. injection Ej as <-.
  split; [apply (law_parent_child laws) | apply (law_child_id_child laws)];
    (assumption || lia).
Qed.

End AlgebraFacts.

(** ** The window of the main loop *)

Section WindowFacts.

Variable t8_element_t : Type.
Variable ts : t8_eclass_scheme_c t8_element_t.
Variable src : list t8_element_t.
Variable c : Z.
Hypothesis c_nonneg : 0 <= c.

Local Abbreviation rest := (skipn (Z.to_nat c) src).

Lemma ids_in_order_snoc (l : list t8_element_t) (e : t8_element_t) :
  ids_in_order ts l -> t8_element_child_id ts e = Z.of_nat (length l) ->
  ids_in_order ts (l ++ [e]).
Proof.
  intros Hl He i x Hx.
  destruct (Nat.lt_ge_cases i (length l)) as [Hi | Hi].
  - rewrite nth_error_app1 in Hx by assumption. now apply Hl.
  - rewrite nth_error_app2 in Hx by assumption.
    destruct (i - length l)%nat as [| j] eqn:E; simpl in Hx.
    + injection Hx as <-. rewrite He. f_equal. lia.
    + now destruct j.
Qed.

Lemma adapt_window_spec (n : nat) (zz : Z) (buf : list t8_element_t) :
  0 <= zz ->
  buf = firstn (Z.to_nat zz) rest -> length buf = Z.to_nat zz ->
  ids_in_order ts buf ->
  exists zz' buf',
    adapt_window ts src c n zz buf = Done (zz', buf') /\
    zz <= zz' <= zz + Z.of_nat n /\
    buf' = firstn (length buf') rest /\
    (zz' = zz + Z.of_nat n -> length buf' = Z.to_nat zz' /\ ids_in_order ts buf') /\
    (zz' < zz + Z.of_nat n ->
       if c + zz' <? elem_count src
       then exists e, nth_error buf' (Z.to_nat zz') = Some e /\
                      length buf' = S (Z.to_nat zz') /\
                      t8_element_child_id ts e <> zz'
       else length buf' = Z.to_nat zz').
Proof.
  revert zz buf. induction n as [| n IH]; intros zz buf Hzz Hbuf Hlen Hids.
  - exists zz, buf. simpl. repeat split; try lia; try assumption.
    now rewrite Hlen.
  - cbn [adapt_window].
    destruct (Z.ltb_spec (c + zz) (elem_count src)) as [Hin | Hout].
    + destruct (@sc_array_index_in_range _ src (c + zz)) as [e He];
        [lia |].
      rewrite He. cbn [of_option bind].
      apply sc_array_index_Some in He. destruct He as [_ He].
      assert (Hnth : nth_error rest (Z.to_nat zz) = Some e).
      { rewrite nth_error_skipn. rewrite <- He. f_equal. lia. }
      assert (Hbuf' : buf ++ [e] = firstn (Z.to_nat (zz + 1)) rest).
      { replace (Z.to_nat (zz + 1)) with (S (Z.to_nat zz)) by lia.
        rewrite (firstn_succ_nth _ _ _ _ Hnth). now rewrite <- Hbuf. }
      assert (Hlen' : length (buf ++ [e]) = Z.to_nat (zz + 1)).
      { rewrite length_app. simpl. lia. }
      destruct (Z.eqb_spec (t8_element_child_id ts e) zz) as [Hid | Hid].
      * destruct (IH (zz + 1) (buf ++ [e])) as (zz' & buf' & H1 & H2 & H3 & H4 & H5);
          [lia | assumption | assumption | |].
        { apply ids_in_order_snoc; [assumption |]. rewrite Hid. lia. }
        exists zz', buf'. split; [exact H1 |]. split; [lia |].
        split; [exact H3 |]. split.
        -- intros E. apply H4. lia.
        -- intros E. apply H5. lia.
      * exists zz, (buf ++ [e]). split; [reflexivity |]. split; [lia |].
        split; [| split].
        -- now rewrite Hlen', <- Hbuf'.
        -- lia.
        -- intros _. destruct (Z.ltb_spec (c + zz) (elem_count src)); [| lia].
           exists e. split; [| split; [| assumption]].
           ++ rewrite nth_error_app2 by lia. now rewrite Hlen, Nat.sub_diag.
           ++ rewrite length_app. simpl. lia.
    + exists zz, buf. split; [reflexivity |]. split; [lia |].
      split; [now rewrite Hlen |]. split; [lia |].
      intros _. destruct (Z.ltb_spec (c + zz) (elem_count src)); [lia |].
      assumption.
Qed.

End WindowFacts.

(** ** The family scan of the recursive coarsening *)

Section FamilyFacts.

Variable t8_element_t : Type.
Variable ts : t8_eclass_scheme_c t8_element_t.
Variable tel : list t8_element_t.
Variable pos : Z.
Hypothesis pos_nonneg : 0 <= pos.

Lemma coarsen_family_spec (n : nat) (i : Z) (fam : list t8_element_t) :
  0 <= i ->
  fam = firstn (Z.to_nat i) (skipn (Z.to_nat pos) tel) ->
  length fam = Z.to_nat i ->
  ids_in_order ts fam ->
  pos + i + Z.of_nat n <= elem_count tel ->
  exists b fam',
    coarsen_family ts tel pos n i fam = Done (b, fam') /\
    (b = true ->
     fam' = firstn (Z.to_nat i + n) (skipn (Z.to_nat pos) tel) /\
     length fam' = (Z.to_nat i + n)%nat /\
     ids_in_order ts fam').
Proof.
  revert i fam. induction n as [| n IH]; intros i fam Hi Hfam Hlen Hids Hn.
  - exists true, fam. split; [reflexivity |]. intros _.
    rewrite Nat.add_0_r. now repeat split.
  - cbn [coarsen_family].
    destruct (@sc_array_index_in_range _ tel (pos + i)) as [e He]; [lia |].
    rewrite He. cbn [of_option bind].
    pose proof (sc_array_index_app_skipn _ _ _ _ _ pos_nonneg Hi He) as Hnth.
    destruct (Z.eqb_spec (t8_element_child_id ts e) i) as [Hid | Hid].
    + destruct (IH (i + 1) (fam ++ [e])) as (b & fam' & H1 & H2).
      * lia.
      * replace (Z.to_nat (i + 1)) with (S (Z.to_nat i)) by lia.
        rewrite (firstn_succ_nth _ _ _ _ Hnth). now rewrite <- Hfam.
      * rewrite length_app. simpl. lia.
      * apply ids_in_order_snoc; [assumption |]. rewrite Hid. lia.
      * lia.
      * exists b, fam'. split; [exact H1 |]. intros Hb.
        replace (Z.to_nat i + S n)%nat with (Z.to_nat (i + 1) + n)%nat by lia.
        now apply H2.
    + exists false, (fam ++ [e]). split; [reflexivity | discriminate].
Qed.

End FamilyFacts.

(** ** The refinement loop *)

Section RefineFacts.

Variable t8_element_t : Type.
Variable user_data_t : Type.
Variable forest : t8_forest t8_element_t user_data_t.
Variable tt : Z.
Variable ts : t8_eclass_scheme_c t8_element_t.
Variable k : Z.
Hypothesis laws : scheme_laws ts k.

Local Abbreviation children q := (map (t8_element_child ts q) (child_ids k)).

Lemma prepend_children (q : t8_element_t) (l : list t8_element_t) :
  refinable ts q ->
  sc_list_prepend_down (t8_element_children ts q k) (Z.to_nat k) l
  = Done (children q ++ l).
Proof.
  intros Hq. rewrite (law_children laws) by assumption.
  rewrite <- (child_ids_length k), <- (length_map (t8_element_child ts q)).
  apply sc_list_prepend_down_all.
Qed.

(** The rule of the loop: a property of the stack, the array and the
    world that a commit and a refinement keep holds at the end; a
    refinement has to be one of an element below the maximum level. *)
Lemma refine_recursive_rule_gen
  (P : list t8_element_t -> list t8_element_t
       -> world t8_element_t user_data_t -> Prop) :
  (forall e stack tel w r w1,
      call_adapt forest w tt 1 [e] = (r, w1) ->
      P (e :: stack) tel w ->
      (r <= 0 -> P stack (tel ++ [e]) w1) /\
      (0 < r ->
       refinable ts e /\
       P (children e ++ stack) tel
         (call_replace forest w1 tt 1 [e] k (children e)))) ->
  forall fuel stack tel ins w l' tel' ins' w',
    ins = elem_count tel ->
    P stack tel w ->
    t8_forest_adapt_refine_recursive fuel forest tt ts stack tel ins w
    = Done (l', tel', ins', w') ->
    l' = [] /\ P [] tel' w' /\ ins' = elem_count tel'.
Proof.
  intros Hstep. induction fuel as [| fuel IH];
    intros stack tel ins w l' tel' ins' w' Hins HP Hrun.
  - destruct stack; [| discriminate]. simpl in Hrun.
    injection Hrun as <- <- <- <-. now repeat split.
  - destruct stack as [| e stack].
    + simpl in Hrun. injection Hrun as <- <- <- <-. now repeat split.
    + cbn [t8_forest_adapt_refine_recursive] in Hrun.
      rewrite (law_num_children laws) in Hrun.
      destruct (call_adapt forest w tt 1 [e]) as [r w1] eqn:Ecall.
      destruct (Hstep e stack tel w r w1 Ecall HP) as [Hcommit Hrefine].
      destruct (Z.gtb_spec r 0) as [Hr | Hr].
      * destruct (Hrefine ltac:(lia)) as [He HP'].
        rewrite (prepend_children e stack He) in Hrun. cbn [bind] in Hrun.
        rewrite (law_children laws) in Hrun by assumption.
        now apply IH in Hrun.
      * apply IH in Hrun; [exact Hrun | |].
        -- unfold elem_count in *. rewrite length_app. simpl. lia.
        -- apply Hcommit. lia.
Qed.

Lemma refine_weight_pos (e : t8_element_t) : (1 <= refine_weight ts k e)%nat.
Proof.
  unfold refine_weight.
  destruct (Z.to_nat (t8_element_maxlevel ts - t8_element_level ts e));
    simpl; lia.
Qed.

Lemma refine_weight_parent (e : t8_element_t) :
  refinable ts e ->
  refine_weight ts k e
  = S (Z.to_nat k
       * subtree_size (Z.to_nat k)
           (Z.to_nat (t8_element_maxlevel ts - t8_element_level ts e - 1))).
Proof.
  unfold refinable, refine_weight. intros He.
  replace (Z.to_nat (t8_element_maxlevel ts - t8_element_level ts e))
    with (S (Z.to_nat (t8_element_maxlevel ts - t8_element_level ts e - 1)))
    by lia.
  reflexivity.
Qed.

Lemma list_sum_constant {X : Type} (f : X -> nat) (c : nat) (l : list X) :
  (forall x, In x l -> f x = c) -> list_sum (map f l) = (length l * c)%nat.
Proof.
  induction l as [| x l IH]; intros Hall; [reflexivity |].
  change (list_sum (map f (x :: l))) with (f x + list_sum (map f l))%nat.
  rewrite Hall by now left.
  rewrite IH by (intros y Hy; apply Hall; now right).
  reflexivity.
Qed.

Lemma refine_fuel_children (e : t8_element_t) :
  refinable ts e ->
  S (refine_fuel ts k (children e)) = refine_weight ts k e.
Proof.
  intros He. rewrite (refine_weight_parent e He). f_equal.
  unfold refine_fuel. rewrite <- (child_ids_length k) at 1.
  rewrite <- (length_map (t8_element_child ts e)).
  apply list_sum_constant. intros x Hx.
  apply in_map_iff in Hx. destruct Hx as (i & <- & Hi).
  apply child_ids_range in Hi. unfold refine_weight.
  rewrite (law_level_child laws) by assumption. do 2 f_equal. lia.
Qed.

Lemma refine_fuel_app (l1 l2 : list t8_element_t) :
  refine_fuel ts k (l1 ++ l2)
  = (refine_fuel ts k l1 + refine_fuel ts k l2)%nat.
Proof. unfold refine_fuel. now rewrite map_app, list_sum_app. Qed.

Lemma refine_fuel_cons (e : t8_element_t) (l : list t8_element_t) :
  refine_fuel ts k (e :: l)
  = (refine_weight ts k e + refine_fuel ts k l)%nat.
Proof. reflexivity. Qed.

Hypothesis stops : stops_at_maxlevel forest tt ts.

Lemma refine_answer_refinable (w w1 : world t8_element_t user_data_t)
  (e : t8_element_t) (r : Z) :
  call_adapt forest w tt 1 [e] = (r, w1) ->
  t8_element_level ts e <= t8_element_maxlevel ts ->
  0 < r -> refinable ts e.
Proof.
  unfold call_adapt, refinable. intros Hcall Hle Hr.
  pose proof (stops (user_data w) e) as Hs.
  destruct (set_adapt_fn forest (user_data w) tt 1 [e]) as [r' u].
  injection Hcall as <- _. simpl in Hs.
  destruct (Z.eq_dec (t8_element_level ts e) (t8_element_maxlevel ts)) as [E | E];
    [specialize (Hs E) |]; lia.
Qed.

(** The loop ends within [refine_fuel] passes. *)
Lemma refine_recursive_total (fuel : nat) :
  forall stack tel ins w,
    levels_ok ts stack ->
    (refine_fuel ts k stack <= fuel)%nat ->
    exists tel' ins' w',
      t8_forest_adapt_refine_recursive fuel forest tt ts stack tel ins w
      = Done ([], tel', ins', w').
Proof.
  induction fuel as [| fuel IH]; intros stack tel ins w Hl Hfuel.
  - destruct stack as [| e stack]; [simpl; eauto |].
    pose proof (refine_weight_pos e). rewrite refine_fuel_cons in Hfuel. lia.
  - destruct stack as [| e stack]; [simpl; eauto |].
    inversion Hl as [| ? ? He Hstack]; subst.
    cbn [t8_forest_adapt_refine_recursive].
    rewrite (law_num_children laws).
    destruct (call_adapt forest w tt 1 [e]) as [r w1] eqn:Ecall.
    rewrite refine_fuel_cons in Hfuel.
    destruct (Z.gtb_spec r 0) as [Hr | Hr].
    + pose proof (refine_answer_refinable _ _ _ _ Ecall He Hr) as Href.
      rewrite (prepend_children e stack Href). cbn [bind].
      apply IH.
      * apply Forall_app. split; [| assumption].
        now apply (children_levels _ ts k laws).
      * rewrite refine_fuel_app.
        pose proof (refine_fuel_children e Href). lia.
    + apply IH; [assumption |]. pose proof (refine_weight_pos e). lia.
Qed.

(** C6.  With a predicate that answers no element of the maximum level
    with a positive number, the refinement loop on a contiguous list of
    candidates within the levels ends; its list of candidates is then
    empty, and the elements that it has appended to the array are
    pairwise different (and different from the elements before them). *)
Theorem refine_recursive_terminates (stack tel : list t8_element_t)
  (w : world t8_element_t user_data_t) :
  levels_ok ts stack ->
  contiguous ts (tel ++ stack) ->
  exists fuel tel' ins' w' added,
    t8_forest_adapt_refine_recursive fuel forest tt ts stack tel
      (elem_count tel) w = Done ([], tel', ins', w') /\
    tel' = tel ++ added /\ NoDup added /\ NoDup tel'.
Proof.
  intros Hl Hc.
  destruct (refine_recursive_total (refine_fuel ts k stack) stack tel
              (elem_count tel) w Hl (le_n _)) as (tel' & ins' & w' & Hrun).
  exists (refine_fuel ts k stack), tel', ins', w'.
  pose proof Hrun as Hrun'.
  apply (refine_recursive_rule_gen
           (fun stack0 tel0 _ =>
              contiguous ts (tel0 ++ stack0) /\ levels_ok ts stack0 /\
              exists added, tel0 = tel ++ added)) in Hrun';
    [| | reflexivity
     | split; [exact Hc | split; [exact Hl | exists []; now rewrite app_nil_r]]].
  - destruct Hrun' as (_ & (Hc' & _ & added & Htel) & _).
    exists added. rewrite app_nil_r in Hc'.
    assert (Hnd : NoDup tel')
      by now apply (sfc_sorted_NoDup _ ts k laws), (contiguous_sorted _ ts k laws).
    repeat split; try assumption.
    rewrite Htel in Hnd. now apply NoDup_app_remove_l in Hnd.
  - clear - laws stops.
    intros e stack0 tel0 w0 r w1 Hcall (Hc & Hl & added & ->).
    inversion Hl as [| ? ? He Hstack]; subst. split.
    + intros _. rewrite <- !app_assoc in *. repeat split; try assumption.
      exists (added ++ [e]). now rewrite app_assoc.
    + intros Hr.
      pose proof (refine_answer_refinable _ _ _ _ Hcall He Hr) as Href.
      split; [exact Href |]. repeat split.
      * now apply (contiguous_refine _ ts k laws).
      * apply Forall_app. split; [| assumption].
        now apply (children_levels _ ts k laws).
      * now exists added.
Qed.

End RefineFacts.

(** ** The two recursive helpers *)

Section HelperFacts.

Variable t8_element_t : Type.
Variable user_data_t : Type.
Variable forest : t8_forest t8_element_t user_data_t.
Variable tt : Z.
Variable ts : t8_eclass_scheme_c t8_element_t.
Variable k : Z.
Hypothesis laws : scheme_laws ts k.
Hypothesis contract : adapt_contract forest tt ts k.

Local Abbreviation children q := (map (t8_element_child ts q) (child_ids k)).

Lemma call_adapt_contract (w w1 : world t8_element_t user_data_t) (n r : Z)
  (elems : list t8_element_t) :
  call_adapt forest w tt n elems = (r, w1) ->
  (r < 0 -> is_family ts k elems) /\
  (0 < r -> forall e, hd_error elems = Some e -> refinable ts e).
Proof.
  unfold call_adapt. intros H. pose proof (contract (user_data w) n elems) as C.
  destruct (set_adapt_fn forest (user_data w) tt n elems) as [r' u].
  injection H as <- _. exact C.
Qed.

Lemma call_adapt_trace (w w1 : world t8_element_t user_data_t) (n r : Z)
  (elems : list t8_element_t) :
  call_adapt forest w tt n elems = (r, w1) ->
  trace w1 = trace w ++ [Ev_adapt tt n elems r].
Proof.
  unfold call_adapt.
  destruct (set_adapt_fn forest (user_data w) tt n elems) as [r' u].
  now intros [= <- <-].
Qed.

(** A rule for the refinement loop: what holds of the stack, the array
    and the world at the start and is kept by a commit and by a refinement
    holds at the end, when the stack is empty. *)
Lemma refine_recursive_rule
  (P : list t8_element_t -> list t8_element_t
       -> world t8_element_t user_data_t -> Prop) :
  (forall e stack tel w r w1,
      call_adapt forest w tt 1 [e] = (r, w1) ->
      P (e :: stack) tel w ->
      (r <= 0 -> P stack (tel ++ [e]) w1) /\
      (0 < r -> refinable ts e ->
       P (children e ++ stack) tel
         (call_replace forest w1 tt 1 [e] k (children e)))) ->
  forall fuel stack tel ins w l' tel' ins' w',
    ins = elem_count tel ->
    P stack tel w ->
    t8_forest_adapt_refine_recursive fuel forest tt ts stack tel ins w
    = Done (l', tel', ins', w') ->
    l' = [] /\ P [] tel' w' /\ ins' = elem_count tel'.
Proof.
  intros Hstep. apply (refine_recursive_rule_gen _ _ forest tt ts k laws P).
  intros e stack tel w r w1 Hcall HP.
  destruct (Hstep e stack tel w r w1 Hcall HP) as [Hcommit Hrefine].
  split; [exact Hcommit |]. intros Hr.
  assert (He : refinable ts e).
  { apply (call_adapt_contract _ _ _ _ _ Hcall); [lia | reflexivity]. }
  split; [exact He | now apply Hrefine].
Qed.

Lemma family_split (tel fam : list t8_element_t) (pos : Z) :
  0 <= pos -> pos + k = elem_count tel ->
  fam = firstn (Z.to_nat 0 + Z.to_nat k) (skipn (Z.to_nat pos) tel) ->
  exists A, tel = A ++ fam /\ elem_count A = pos /\ elem_count fam = k.
Proof.
  intros Hpos Hlen Hfam. pose proof (law_some_child laws) as Hk.
  unfold elem_count in *. exists (firstn (Z.to_nat pos) tel).
  assert (E : fam = skipn (Z.to_nat pos) tel).
  { rewrite Hfam. apply firstn_all2. rewrite length_skipn. lia. }
  rewrite E. rewrite firstn_skipn, length_firstn, length_skipn.
  repeat split; lia.
Qed.

(** A rule for the coarsening loop: what holds of the array and the world
    at the start, is kept by a call of the predicate on the last
    [num_children] entries and by putting their parent in their place,
    holds at the end. *)
Lemma coarsen_recursive_rule (el_coarsen : Z)
  (P : list t8_element_t -> world t8_element_t user_data_t -> Prop) :
  0 <= el_coarsen ->
  (forall A fam w r w1,
      elem_count fam = k -> ids_in_order ts fam ->
      el_coarsen <= elem_count A ->
      call_adapt forest w tt k fam = (r, w1) ->
      P (A ++ fam) w ->
      (0 <= r -> P (A ++ fam) w1) /\
      (r < 0 -> forall q, refinable ts q -> fam = children q ->
       P (A ++ [q]) (call_replace forest w1 tt k fam 1 [q]))) ->
  forall fuel tel ins element pos w tel' ins' w',
    ins = elem_count tel -> pos = ins - k ->
    P tel w ->
    coarsen_recursive_loop fuel forest tt ts k el_coarsen tel ins element
      pos w = Done (tel', ins', w') ->
    P tel' w' /\ ins' = elem_count tel'.
Proof.
  intros Hfloor Hstep. pose proof (law_some_child laws) as Hk.
  induction fuel as [| fuel IH];
    intros tel ins element pos w tel' ins' w' Hins Hpos HP Hrun;
    cbn [coarsen_recursive_loop] in Hrun;
    destruct ((el_coarsen <=? pos)
              && (t8_element_child_id ts element =? k - 1)) eqn:G;
    try discriminate;
    try (injection Hrun as <- <- <-; now split).
  apply andb_true_iff in G. destruct G as [G _]. apply Z.leb_le in G.
  destruct (coarsen_family_spec _ ts tel pos ltac:(lia) (Z.to_nat k) 0 [])
    as (b & fam & Hscan & Hfam);
    [lia | reflexivity | reflexivity | now intros [| ?] ? | lia |].
  rewrite Hscan in Hrun. cbn [bind] in Hrun.
  destruct b; [| injection Hrun as <- <- <-; now split].
  destruct (Hfam eq_refl) as (Efam & _ & Hids).
  destruct (family_split tel fam pos) as (A & -> & HA & Hcount);
    [lia | lia | exact Efam |].
  destruct (call_adapt forest w tt k fam) as [r w1] eqn:Ecall.
  destruct (Hstep A fam w r w1 Hcount Hids ltac:(lia) Ecall HP)
    as [Hkeep Hcoarsen].
  destruct (Z.ltb_spec r 0) as [Hr | Hr];
    [| injection Hrun as <- <- <-; split; [apply Hkeep; lia | assumption]].
  destruct (proj1 (call_adapt_contract _ _ _ _ _ Ecall) Hr) as (q & Hq & Eq).
  assert (Hne : fam <> []) by (rewrite Eq; apply (children_not_nil _ _ k laws)).
  destruct (sc_array_replace_tail _ A fam (t8_element_parent ts (t8_element_child ts q 0)) Hne)
    as (b & Hb1 & Hb2).
  rewrite Hins, <- Hcount in Hrun at 1.
  rewrite Hb1 in Hrun. cbn [of_option bind] in Hrun.
  assert (E0 : nth_error fam 0 = Some (t8_element_child ts q 0)).
  { rewrite Eq. destruct (child_ids_first _ ts k laws) as [l ->]. reflexivity. }
  rewrite E0 in Hrun. cbn [of_option bind] in Hrun.
  rewrite Hpos, Hins in Hrun.
  replace (elem_count (A ++ fam) - k) with (elem_count A) in Hrun
    by (unfold elem_count in *; rewrite length_app; lia).
  rewrite Hb2 in Hrun. cbn [of_option bind] in Hrun.
  rewrite (law_parent_child laws) in Hrun by (assumption || lia).
  apply IH in Hrun.
  - exact Hrun.
  - unfold elem_count in *. rewrite !length_app in *. simpl. lia.
  - unfold elem_count in *. rewrite !length_app in *. simpl. lia.
  - now apply Hcoarsen.
Qed.

Lemma coarsen_recursive_call_rule (el_coarsen : Z)
  (P : list t8_element_t -> world t8_element_t user_data_t -> Prop) :
  0 <= el_coarsen ->
  (forall A fam w r w1,
      elem_count fam = k -> ids_in_order ts fam ->
      el_coarsen <= elem_count A ->
      call_adapt forest w tt k fam = (r, w1) ->
      P (A ++ fam) w ->
      (0 <= r -> P (A ++ fam) w1) /\
      (r < 0 -> forall q, refinable ts q -> fam = children q ->
       P (A ++ [q]) (call_replace forest w1 tt k fam 1 [q]))) ->
  forall (b : bool) fuel tel ins w tel' ins' w',
    ins = elem_count tel ->
    P tel w ->
    (if b
     then t8_forest_adapt_coarsen_recursive fuel forest tt ts tel el_coarsen
            ins w
     else Done (tel, ins, w)) = Done (tel', ins', w') ->
    P tel' w' /\ ins' = elem_count tel'.
Proof.
  intros Hfloor Hstep b fuel tel ins w tel' ins' w' Hins HP Hrun.
  destruct b; [| injection Hrun as <- <- <-; now split].
  unfold t8_forest_adapt_coarsen_recursive in Hrun.
  destruct (sc_array_index tel (ins - 1)) as [element |];
    [| discriminate].
  cbn [of_option bind] in Hrun. rewrite (law_num_children laws) in Hrun.
  now apply (coarsen_recursive_rule el_coarsen P Hfloor Hstep) in Hrun.
Qed.

(** A property [W] of the world that every call of a callback keeps, when
    the predicate is handed one element or a family. *)
Variable W : world t8_element_t user_data_t -> Prop.
Hypothesis W_adapt :
  forall w n elems r w1,
    call_adapt forest w tt n elems = (r, w1) ->
    n = 1 \/ (n = k /\ is_family ts k elems) ->
    W w -> W w1.
Hypothesis W_replace :
  forall w n_out out n_in inc,
    W w -> W (call_replace forest w tt n_out out n_in inc).

(** The refinement loop keeps the output, the stack and the elements that
    follow a contiguous sequence. *)
Lemma refine_recursive_contiguous (rest : list t8_element_t) fuel stack tel
  ins w l' tel' ins' w' :
  ins = elem_count tel ->
  contiguous ts (tel ++ stack ++ rest) ->
  levels_ok ts tel -> levels_ok ts stack -> W w ->
  t8_forest_adapt_refine_recursive fuel forest tt ts stack tel ins w
  = Done (l', tel', ins', w') ->
  contiguous ts (tel' ++ rest) /\ levels_ok ts tel' /\
  ins' = elem_count tel' /\ W w'.
Proof.
  intros Hins Hc Hl1 Hl2 HW Hrun.
  apply (refine_recursive_rule
           (fun stack tel w =>
              contiguous ts (tel ++ stack ++ rest) /\
              levels_ok ts tel /\ levels_ok ts stack /\ W w)) in Hrun;
    [| | exact Hins | now repeat split].
  - destruct Hrun as (_ & (H1 & H2 & _ & H4) & H3). now repeat split.
  - clear - laws W_adapt W_replace.
    intros e stack tel w r w1 Hcall (Hc & Hl1 & Hl2 & HW).
    assert (HW1 : W w1) by (apply (W_adapt _ _ _ _ _ Hcall); [now left | exact HW]).
    inversion Hl2 as [| ? ? He Hstack]; subst. split.
    + intros _. rewrite <- app_assoc. repeat split; try assumption.
      apply Forall_app. split; [assumption | now constructor].
    + intros _ Href. rewrite <- app_assoc. repeat split; try assumption.
      * now apply (contiguous_refine _ ts k laws).
      * apply Forall_app. split; [| assumption].
        now apply (children_levels _ ts k laws).
      * now apply W_replace.
Qed.

Lemma window_one_or_family (A fam rest : list t8_element_t) :
  contiguous ts ((A ++ fam) ++ rest) ->
  ids_in_order ts fam -> elem_count fam = k ->
  k = 1 \/ (k = k /\ is_family ts k fam).
Proof.
  intros Hc Hids Hlen. pose proof (law_some_child laws) as Hk.
  destruct (Z.eq_dec k 1) as [E | E]; [now left | right].
  split; [reflexivity |].
  apply (contiguous_ids_family _ ts k laws); try assumption; try lia.
  apply contiguous_app_l in Hc. now apply contiguous_app_r in Hc.
Qed.

(** So does the coarsening loop. *)
Lemma coarsen_recursive_contiguous (rest : list t8_element_t) el_coarsen
  (b : bool) fuel tel ins w tel' ins' w' :
  0 <= el_coarsen ->
  ins = elem_count tel ->
  contiguous ts (tel ++ rest) ->
  levels_ok ts tel -> W w ->
  (if b
   then t8_forest_adapt_coarsen_recursive fuel forest tt ts tel el_coarsen
          ins w
   else Done (tel, ins, w)) = Done (tel', ins', w') ->
  contiguous ts (tel' ++ rest) /\ levels_ok ts tel' /\
  ins' = elem_count tel' /\ W w'.
Proof.
  intros Hfloor Hins Hc Hl HW Hrun.
  apply (coarsen_recursive_call_rule el_coarsen
           (fun tel w => contiguous ts (tel ++ rest) /\ levels_ok ts tel /\ W w)
           Hfloor) in Hrun; [| | exact Hins | now repeat split].
  - destruct Hrun as ((H1 & H2 & H4) & H3). now repeat split.
  - clear - laws W_adapt W_replace.
    intros A fam w r w1 Hlen Hids _ Hcall (Hc & Hl & HW).
    assert (HW1 : W w1).
    { apply (W_adapt _ _ _ _ _ Hcall); [| exact HW].
      destruct (window_one_or_family A fam rest Hc Hids Hlen) as [E | E];
        [left | right]; assumption. }
    split; [now repeat split |].
    intros _ q Hq ->. rewrite <- app_assoc in *. repeat split.
    + now apply (contiguous_coarsen _ ts k laws).
    + apply Forall_app in Hl. destruct Hl as [Hl _].
      apply Forall_app. split; [assumption |]. constructor; [| constructor].
      now apply family_parent_level.
    + now apply W_replace.
Qed.

End HelperFacts.

(** ** One pass of the main loop *)

Section BodyFacts.

Variable t8_element_t : Type.
Variable user_data_t : Type.
Variable forest : t8_forest t8_element_t user_data_t.
Variable tt : Z.
Variable ts : t8_eclass_scheme_c t8_element_t.
Variable k : Z.
Hypothesis laws : scheme_laws ts k.
Hypothesis contract : adapt_contract forest tt ts k.
Variable src : list t8_element_t.

Local Abbreviation children q := (map (t8_element_child ts q) (child_ids k)).

(** The window at [c]: all of a candidate family, or the element at [c]
    alone. *)
Lemma adapt_window_cases (c : Z) :
  0 <= c < elem_count src ->
  exists zz buf from0,
    adapt_window ts src c (Z.to_nat k) 0 [] = Done (zz, buf) /\
    skipn (Z.to_nat c) src = from0 :: skipn (Z.to_nat (c + 1)) src /\
    nth_error buf 0 = Some from0 /\
    ((zz = k /\ buf = firstn (Z.to_nat k) (skipn (Z.to_nat c) src) /\
      elem_count buf = k /\ ids_in_order ts buf /\ c + k <= elem_count src)
     \/
     (zz <> k /\ firstn 1 buf = [from0] /\
      (k = 1 -> t8_element_child_id ts from0 <> 0))).
Proof.
  intros Hc. pose proof (law_some_child laws) as Hk.
  destruct (adapt_window_spec _ ts src c ltac:(lia) (Z.to_nat k) 0 [])
    as (zz & buf & Hrun & Hzz & Hbuf & Hfull & Hpart);
    [lia | reflexivity | reflexivity | now intros [| ?] ? |].
  destruct (@sc_array_index_in_range _ src c Hc) as [from0 Hfrom].
  apply sc_array_index_Some in Hfrom. destruct Hfrom as [_ Hfrom].
  pose proof (skipn_nth_cons _ _ _ _ Hfrom) as Hrest.
  replace (S (Z.to_nat c)) with (Z.to_nat (c + 1)) in Hrest by lia.
  exists zz, buf, from0. split; [exact Hrun |]. split; [exact Hrest |].
  assert (Hlen : (1 <= length buf)%nat).
  { destruct (Z.eq_dec zz k) as [E | E].
    - destruct Hfull as [Hl _]; lia.
    - specialize (Hpart ltac:(lia)).
      destruct (Z.ltb_spec (c + zz) (elem_count src)).
      + destruct Hpart as (e & _ & Hl & _). lia.
      + lia. }
  assert (H0 : nth_error buf 0 = Some from0).
  { rewrite Hbuf, Hrest. destruct (length buf); [lia | reflexivity]. }
  split; [exact H0 |].
  destruct (Z.eq_dec zz k) as [E | E]; [left | right].
  - destruct Hfull as [Hl Hids]; [lia |].
    assert (Ebuf : buf = firstn (Z.to_nat k) (skipn (Z.to_nat c) src))
      by (rewrite Hbuf at 1; now rewrite Hl, E).
    repeat split; try assumption.
    + unfold elem_count. lia.
    + apply (f_equal (@length _)) in Ebuf.
      rewrite length_firstn, length_skipn in Ebuf. unfold elem_count. lia.
  - split; [exact E |]. split.
    + destruct buf as [| x buf]; [discriminate |]. now injection H0 as ->.
    + intros Hk1. specialize (Hpart ltac:(lia)).
      assert (zz = 0) as -> by lia.
      destruct (Z.ltb_spec (c + 0) (elem_count src)); [| lia].
      destruct Hpart as (e & He & _ & Hid).
      change (Z.to_nat 0) with 0%nat in He. rewrite H0 in He. now injection He as <-.
Qed.

Lemma bind_Done {X Y : Type} (m : outcome X) (f : X -> outcome Y) (y : Y) :
  bind m f = Done y -> exists x, m = Done x /\ f x = Done y.
Proof. destruct m; try discriminate. intros H. now exists a. Qed.

(** The shapes of a pass that ends: the window, the answer of the
    predicate, and what the branch taken does. *)
Lemma adapt_body_cases (fuel : nat)
  (st st' : adapt_state t8_element_t user_data_t) :
  0 <= el_considered st < elem_count src ->
  t8_forest_adapt_body fuel forest tt ts src k st = Done st' ->
  exists from0 n elems r w1,
    skipn (Z.to_nat (el_considered st)) src
    = from0 :: skipn (Z.to_nat (el_considered st + 1)) src /\
    hd_error elems = Some from0 /\
    call_adapt forest (st_world st) tt n elems = (r, w1) /\
    t8_forest_adapt_decision forest tt ts src k st = Done r /\
    ((n = k /\
      elems = firstn (Z.to_nat k) (skipn (Z.to_nat (el_considered st)) src) /\
      elem_count elems = k /\ ids_in_order ts elems /\
      el_considered st + k <= elem_count src)
     \/ (n = 1 /\ elems = [from0])) /\
    ((0 < r /\ refinable ts from0 /\ set_adapt_recursive forest = true /\
      el_considered st' = el_considered st + 1 /\
      el_coarsen st' = el_inserted st + k /\
      exists l',
        t8_forest_adapt_refine_recursive fuel forest tt ts (children from0)
          (telements st) (el_inserted st)
          (call_replace forest w1 tt 1 [from0] k (children from0))
        = Done (l', telements st', el_inserted st', st_world st'))
     \/
     (0 < r /\ refinable ts from0 /\ set_adapt_recursive forest = false /\
      st' = {| telements := telements st ++ children from0;
               el_considered := el_considered st + 1;
               el_inserted := el_inserted st + k;
               el_coarsen := el_coarsen st;
               st_world :=
                 call_replace forest w1 tt 1 [from0] k (children from0) |})
     \/
     (r < 0 /\ n = k /\
      el_considered st' = el_considered st + k /\
      el_coarsen st' = el_coarsen st /\
      exists q, refinable ts q /\ elems = children q /\
        (if set_adapt_recursive forest
            && (t8_element_child_id ts q =? k - 1)
         then t8_forest_adapt_coarsen_recursive fuel forest tt ts
                (telements st ++ [q]) (el_coarsen st) (el_inserted st + 1)
                (call_replace forest w1 tt k elems 1 [q])
         else Done (telements st ++ [q], el_inserted st + 1,
                    call_replace forest w1 tt k elems 1 [q]))
        = Done (telements st', el_inserted st', st_world st'))
     \/
     (r = 0 /\
      el_considered st' = el_considered st + 1 /\
      el_coarsen st' = el_coarsen st /\
      (if set_adapt_recursive forest
          && (t8_element_child_id ts from0 =? k - 1)
       then t8_forest_adapt_coarsen_recursive fuel forest tt ts
              (telements st ++ [from0]) (el_coarsen st) (el_inserted st + 1)
              w1
       else Done (telements st ++ [from0], el_inserted st + 1, w1))
      = Done (telements st', el_inserted st', st_world st'))).
Proof.
  intros Hc Hrun. pose proof (law_some_child laws) as Hk.
  unfold t8_forest_adapt_body in Hrun.
  destruct (adapt_window_cases (el_considered st) Hc)
    as (zz & buf & from0 & Hwin & Hrest & Hbuf0 & Hcases).
  rewrite Hwin in Hrun. cbn [bind] in Hrun.
  set (n := if zz =? k then k else 1) in *.
  set (elems := firstn (Z.to_nat n) buf) in *.
  assert (Hshape :
    (n = k /\
     elems = firstn (Z.to_nat k) (skipn (Z.to_nat (el_considered st)) src) /\
     elem_count elems = k /\ ids_in_order ts elems /\
     el_considered st + k <= elem_count src /\ buf = elems)
    \/ (n = 1 /\ elems = [from0] /\
        (k = 1 -> t8_element_child_id ts from0 <> 0))).
  { destruct Hcases as [(Ezz & Ebuf & Hcnt & Hids & Hle) | (Ezz & Ebuf & Hid)].
    - left. assert (En : n = k) by (unfold n; now rewrite Ezz, Z.eqb_refl).
      assert (Ee : elems = buf).
      { unfold elems. rewrite En. apply firstn_all2.
        unfold elem_count in Hcnt. lia. }
      rewrite Ee. repeat split; try assumption.
    - right. assert (En : n = 1)
        by (unfold n; now destruct (Z.eqb_spec zz k)).
      split; [exact En |]. split; [| exact Hid].
      unfold elems. rewrite En. exact Ebuf. }
  assert (Hhd : hd_error elems = Some from0).
  { destruct Hshape as [(_ & _ & _ & _ & _ & <-) | (_ & -> & _)];
      [| reflexivity].
    destruct buf; [discriminate | exact Hbuf0]. }
  destruct (call_adapt forest (st_world st) tt n elems) as [r w1] eqn:Ecall.
  destruct (call_adapt_contract _ _ forest tt ts k contract _ _ _ _ _ Ecall)
    as [Cneg Cpos].
  rewrite Hbuf0 in Hrun. cbn [of_option bind] in Hrun.
  exists from0, n, elems, r, w1.
  split; [exact Hrest |]. split; [exact Hhd |]. split; [exact Ecall |].
  split; [unfold t8_forest_adapt_decision; rewrite Hwin; cbn [bind];
          fold n; fold elems; now rewrite Ecall |].
  split; [destruct Hshape as [(H1 & H2 & H3 & H4 & H5 & _) | (H1 & H2 & _)];
          [left | right]; now repeat split |].
  destruct (Z.gtb_spec r 0) as [Hr | Hr].
  - assert (Hfrom : refinable ts from0) by (apply Cpos; [lia | exact Hhd]).
    rewrite (law_children laws) in Hrun by assumption.
    destruct (set_adapt_recursive forest) eqn:Erec.
    + left.
      rewrite <- (law_children laws) in Hrun at 1 by assumption.
      rewrite (prepend_children _ ts k laws from0 [] Hfrom) in Hrun.
      cbn [bind] in Hrun. rewrite app_nil_r in Hrun.
      apply bind_Done in Hrun.
      destruct Hrun as ([[[l' tel'] ins'] w3] & Hrec & Hst).
      injection Hst as <-. cbn.
      repeat split; try assumption; try lia. now exists l'.
    + right; left. injection Hrun as <-. repeat split; (assumption || lia).
  - destruct (Z.ltb_spec r 0) as [Hneg | Hzero].
    + right; right; left.
      destruct (Cneg Hneg) as (q & Hq & Eq).
      assert (En : n = k /\ buf = elems).
      { destruct Hshape as [(H1 & _ & _ & _ & _ & H6) | (_ & E1 & Hid)];
          [now split | exfalso].
        rewrite E1 in Eq.
        assert (k = 1).
        { apply (f_equal (@length _)) in Eq.
          rewrite length_map, child_ids_length in Eq. simpl in Eq. lia. }
        destruct (child_ids_first _ ts k laws) as [l El].
        rewrite El in Eq. simpl in Eq. injection Eq as -> _.
        apply Hid; [assumption |].
        apply (law_child_id_child laws); (assumption || lia). }
      destruct En as [En Ebuf].
      assert (Efirst : firstn (Z.to_nat k) buf = elems).
      { unfold elems. now rewrite En. }
      assert (Eparent : t8_element_parent ts from0 = q).
      { rewrite Eq in Hhd. rewrite (children_hd _ ts k laws) in Hhd.
        injection Hhd as <-.
        apply (law_parent_child laws); (assumption || lia). }
      rewrite Efirst, Eparent in Hrun.
      apply bind_Done in Hrun.
      destruct Hrun as ([[tel2 ins2] w3] & Hco & Hst).
      injection Hst as <-. cbn.
      repeat split; try assumption; try lia.
      exists q. repeat split; assumption.
    + right; right; right.
      apply bind_Done in Hrun.
      destruct Hrun as ([[tel2 ins2] w3] & Hco & Hst).
      injection Hst as <-. cbn.
      repeat split; try assumption; lia.
Qed.

Hypothesis src_levels : levels_ok ts src.

Lemma levels_ok_skipn_head (c : nat) (e : t8_element_t)
  (l : list t8_element_t) :
  skipn c src = e :: l -> t8_element_level ts e <= t8_element_maxlevel ts.
Proof.
  intros H. unfold levels_ok in src_levels.
  rewrite <- (firstn_skipn c src), H in src_levels.
  apply Forall_app in src_levels. destruct src_levels as [_ Hl].
  now inversion Hl.
Qed.

Variable W : world t8_element_t user_data_t -> Prop.
Hypothesis W_adapt :
  forall w n elems r w1,
    call_adapt forest w tt n elems = (r, w1) ->
    n = 1 \/ (n = k /\ is_family ts k elems) ->
    W w -> W w1.
Hypothesis W_replace :
  forall w n_out out n_in inc,
    W w -> W (call_replace forest w tt n_out out n_in inc).

(** A pass of the loop keeps the invariant, and a property of the world
    that the calls of the callbacks keep. *)
Lemma adapt_body_inv (fuel : nat)
  (st st' : adapt_state t8_element_t user_data_t) :
  adapt_inv ts src st -> W (st_world st) ->
  el_considered st < elem_count src ->
  t8_forest_adapt_body fuel forest tt ts src k st = Done st' ->
  adapt_inv ts src st' /\ W (st_world st').
Proof.
  intros [Hc Hins Hfl Hcont Hlev] HW Hlt Hrun.
  pose proof (law_some_child laws) as Hk.
  destruct (adapt_body_cases fuel st st' ltac:(lia) Hrun)
    as (from0 & n & elems & r & w1 & Hrest & Hhd & Ecall & _ & Hwin & Hbranch).
  assert (HW1 : W w1).
  { apply (W_adapt _ _ _ _ _ Ecall); [| exact HW].
    destruct Hwin as [(En & Ewin & Hcnt & Hids & _) | (En & _)];
      [| now left].
    rewrite <- (firstn_skipn (Z.to_nat k)
                  (skipn (Z.to_nat (el_considered st)) src)) in Hcont.
    rewrite <- Ewin, app_assoc in Hcont. rewrite En.
    destruct (window_one_or_family _ ts k laws _ _ _ Hcont Hids Hcnt)
      as [E | E]; [left | right]; assumption. }
  rewrite Hrest in Hcont.
  pose proof (levels_ok_skipn_head _ _ _ Hrest) as Hfrom0.
  destruct Hbranch as [(Hr & Href & Hrec & Ec & Efl & l' & Hrun')
                      | [(Hr & Href & Hrec & ->)
                      | [(Hr & En & Ec & Efl & q & Hq & Eq & Hrun')
                      | (Hr & Ec & Efl & Hrun')]]].
  - apply (refine_recursive_contiguous _ _ forest tt ts k laws contract
             W W_adapt W_replace
             (skipn (Z.to_nat (el_considered st + 1)) src)) in Hrun';
      [| assumption
       | now apply (contiguous_refine _ ts k laws _ _ _ Href)
       | assumption
       | now apply (children_levels _ ts k laws)
       | now apply W_replace ].
    destruct Hrun' as (H1 & H2 & H3 & H4). split; [| exact H4].
    constructor; rewrite ?Ec, ?Efl; try assumption;
      unfold elem_count in *; lia.
  - split; [| now apply W_replace]. constructor; cbn.
    + lia.
    + unfold elem_count in *. rewrite length_app, length_map, child_ids_length.
      lia.
    + assumption.
    + rewrite <- app_assoc.
      now apply (contiguous_refine _ ts k laws _ _ _ Href).
    + apply Forall_app. split; [assumption |].
      now apply (children_levels _ ts k laws).
  - assert (Ewin : elems = firstn (Z.to_nat k)
                             (skipn (Z.to_nat (el_considered st)) src)
                   /\ el_considered st + k <= elem_count src).
    { destruct Hwin as [(_ & Ewin & _ & _ & Hle) | (_ & E1)]; [now split |].
      assert (k = 1) as ->.
      { rewrite E1 in Eq. apply (f_equal (@length _)) in Eq.
        rewrite length_map, child_ids_length in Eq. simpl in Eq. lia. }
      rewrite Hrest, E1. split; [reflexivity | lia]. }
    destruct Ewin as [Ewin Hle].
    assert (Esplit : from0 :: skipn (Z.to_nat (el_considered st + 1)) src
                     = children q ++ skipn (Z.to_nat (el_considered st + k)) src).
    { rewrite <- Hrest, <- Eq, Ewin.
      rewrite <- (firstn_skipn (Z.to_nat k)
                    (skipn (Z.to_nat (el_considered st)) src)) at 1.
      f_equal. rewrite skipn_skipn. f_equal. lia. }
    rewrite Esplit in Hcont.
    apply (coarsen_recursive_contiguous _ _ forest tt ts k laws contract
             W W_adapt W_replace
             (skipn (Z.to_nat (el_considered st + k)) src)) in Hrun'.
    + destruct Hrun' as (H1 & H2 & H3 & H4). split; [| exact H4].
      constructor; rewrite ?Ec, ?Efl; try assumption; lia.
    + assumption.
    + unfold elem_count in *. rewrite length_app. simpl. lia.
    + rewrite <- app_assoc.
      now apply (contiguous_coarsen _ ts k laws).
    + apply Forall_app. split; [assumption |]. constructor; [| constructor].
      now apply family_parent_level.
    + now apply W_replace.
  - apply (coarsen_recursive_contiguous _ _ forest tt ts k laws contract
             W W_adapt W_replace
             (skipn (Z.to_nat (el_considered st + 1)) src)) in Hrun'.
    + destruct Hrun' as (H1 & H2 & H3 & H4). split; [| exact H4].
      constructor; rewrite ?Ec, ?Efl; try assumption; lia.
    + assumption.
    + unfold elem_count in *. rewrite length_app. simpl. lia.
    + now rewrite <- app_assoc.
    + apply Forall_app. split; [assumption |]. now repeat constructor.
    + assumption.
Qed.

(** The loop keeps them, and considers every source element. *)
Lemma adapt_loop_inv (fuel : nat)
  (st st' : adapt_state t8_element_t user_data_t) :
  adapt_inv ts src st -> W (st_world st) ->
  t8_forest_adapt_loop fuel forest tt ts src k st = Done st' ->
  adapt_inv ts src st' /\ el_considered st' = elem_count src /\
  W (st_world st').
Proof.
  revert st. induction fuel as [| fuel IH]; intros st Hinv HW Hrun;
    cbn [t8_forest_adapt_loop] in Hrun;
    destruct (Z.ltb_spec (el_considered st) (elem_count src)) as [Hlt | Hge];
    try discriminate;
    try (injection Hrun as <-; split; [assumption |]; split; [| assumption];
         destruct Hinv as [Hc _ _ _ _]; lia).
  apply bind_Done in Hrun. destruct Hrun as (st1 & Hbody & Hloop).
  destruct (adapt_body_inv fuel st st1 Hinv HW Hlt Hbody) as [Hinv1 HW1].
  now apply IH in Hloop.
Qed.

End BodyFacts.

(** ** The loop over the trees *)

Section TreeFacts.

Variable t8_element_t : Type.
Variable user_data_t : Type.
Variable forest : t8_forest t8_element_t user_data_t.

(** Every tree of the result comes from a run of the body of the loop on
    the tree at the same place. *)
Lemma adapt_trees_nth (fuel : nat) (todo : list (t8_tree t8_element_t)) :
  forall tt el_offset local_num w trees' local_num' w',
    t8_forest_adapt_trees fuel forest tt todo el_offset local_num w
    = Done (trees', local_num', w') ->
    length trees' = length todo /\
    forall i tree',
      nth_error trees' i = Some tree' ->
      exists tree off w0 ins w1,
        nth_error todo i = Some tree /\
        t8_forest_adapt_tree fuel forest (tt + Z.of_nat i) tree off w0
        = Done (tree', ins, w1).
Proof.
  induction todo as [| tree rest IH];
    intros tt off loc w trees' loc' w' Hrun; cbn [t8_forest_adapt_trees] in Hrun.
  - injection Hrun as <- <- <-. split; [reflexivity |]. now intros [| ?].
  - apply bind_Done in Hrun. destruct Hrun as ([[tree1 ins1] w1] & Htree & Hrun).
    apply bind_Done in Hrun. destruct Hrun as ([[rest1 loc1] w2] & Hrest & Hd).
    injection Hd as <- <- <-.
    destruct (IH _ _ _ _ _ _ _ Hrest) as [Hlen Hnth].
    split; [simpl; now rewrite Hlen |].
    intros [| i] tree' Hi.
    + injection Hi as <-. exists tree, off, w, ins1, w1.
      split; [reflexivity |]. now rewrite Z.add_0_r.
    + destruct (Hnth i tree' Hi) as (tr & off' & w0 & ins & w3 & H1 & H2).
      exists tr, off', w0, ins, w3. split; [exact H1 |].
      now replace (tt + Z.of_nat (S i)) with (tt + 1 + Z.of_nat i) by lia.
Qed.

Lemma adapt_forest_nth (fuel : nat)
  (forest' : t8_forest t8_element_t user_data_t) :
  t8_forest_adapt fuel forest = Done forest' ->
  length (trees forest') = length (trees forest) /\
  forall i tree',
    nth_error (trees forest') i = Some tree' ->
    exists tree off w0 ins w1,
      nth_error (trees forest) i = Some tree /\
      t8_forest_adapt_tree fuel forest (Z.of_nat i) tree off w0
      = Done (tree', ins, w1).
Proof.
  unfold t8_forest_adapt. intros Hrun. apply bind_Done in Hrun.
  destruct Hrun as ([[trees' loc] w] & Hrun & Hd). injection Hd as <-.
  apply adapt_trees_nth in Hrun. exact Hrun.
Qed.

(** The output of one tree, and a property [W] of the world that the calls
    of the callbacks for this tree keep. *)
Lemma adapt_tree_contiguous (fuel : nat) (tt : Z)
  (tree tree' : t8_tree t8_element_t) (off ins : Z)
  (w w' : world t8_element_t user_data_t)
  (W : world t8_element_t user_data_t -> Prop) :
  (forall tree_from, sc_array_index (set_from forest) tt = Some tree_from ->
                     tree_ready forest tt tree tree_from) ->
  (forall k w0 n elems r w1,
      scheme_laws (tree_scheme forest tree) k ->
      call_adapt forest w0 tt n elems = (r, w1) ->
      n = 1 \/ (n = k /\ is_family (tree_scheme forest tree) k elems) ->
      W w0 -> W w1) ->
  (forall w0 n_out out n_in inc,
      W w0 -> W (call_replace forest w0 tt n_out out n_in inc)) ->
  W w ->
  t8_forest_adapt_tree fuel forest tt tree off w = Done (tree', ins, w') ->
  eclass tree' = eclass tree /\
  elements_offset tree' = off /\
  ins = elem_count (elements tree') /\
  contiguous (tree_scheme forest tree) (elements tree') /\
  levels_ok (tree_scheme forest tree) (elements tree') /\
  W w'.
Proof.
  intros Hready W_adapt W_replace HW Hrun.
  unfold t8_forest_adapt_tree in Hrun.
  apply bind_Done in Hrun. destruct Hrun as (tree_from & Hfrom & Hrun).
  destruct (sc_array_index (set_from forest) tt) as [tf |] eqn:Etf;
    [| discriminate].
  injection Hfrom as ->.
  destruct (Hready tree_from eq_refl) as (Hempty & k & laws & contract & Hsrc).
  apply bind_Done in Hrun. destruct Hrun as (first & _ & Hrun).
  apply bind_Done in Hrun. destruct Hrun as (st & Hloop & Hrun).
  rewrite (law_num_children laws) in Hloop.
  apply (adapt_loop_inv _ _ forest tt _ k laws contract _
           (committed_levels Hsrc) W (fun w0 n elems r w1 =>
                                        W_adapt k w0 n elems r w1 laws)
           W_replace) in Hloop.
  - destruct Hloop as ([Hc Hins Hfl Hcont Hlev] & Hend & HW').
    rewrite Hins, sc_array_resize_full in Hrun. cbn [of_option bind] in Hrun.
    injection Hrun as <- <- <-. cbn. repeat split; try assumption.
    rewrite Hend in Hcont. unfold elem_count in Hcont.
    rewrite Nat2Z.id, skipn_all, app_nil_r in Hcont. exact Hcont.
  - constructor; cbn; rewrite ?Hempty; try (unfold elem_count; simpl; lia).
    + apply (committed_contiguous Hsrc).
    + constructor.
  - exact HW.
Qed.

(** The loop over the trees ends when the body ends on every tree, and
    what the body ensures of a tree holds of every tree of the result. *)
Lemma adapt_trees_total (Q : Z -> t8_tree t8_element_t -> Prop) (fuel : nat)
  (todo : list (t8_tree t8_element_t)) :
  forall tt el_offset local_num w,
    (forall i tree,
        nth_error todo i = Some tree ->
        forall off w0,
        exists tree' ins w1,
          t8_forest_adapt_tree fuel forest (tt + Z.of_nat i) tree off w0
          = Done (tree', ins, w1) /\ Q (tt + Z.of_nat i) tree') ->
    exists trees' local_num' w',
      t8_forest_adapt_trees fuel forest tt todo el_offset local_num w
      = Done (trees', local_num', w') /\
      length trees' = length todo /\
      forall i tree',
        nth_error trees' i = Some tree' -> Q (tt + Z.of_nat i) tree'.
Proof.
  induction todo as [| tree rest IH]; intros tt off loc w Hbody.
  - exists [], loc, w. split; [reflexivity |]. split; [reflexivity |].
    now intros [| ?].
  - cbn [t8_forest_adapt_trees].
    destruct (Hbody 0%nat tree eq_refl off w) as (tree1 & ins1 & w1 & Hrun & HQ).
    rewrite Z.add_0_r in Hrun, HQ. rewrite Hrun. cbn [bind].
    destruct (IH (tt + 1) (off + ins1) (loc + ins1) w1)
      as (rest1 & loc1 & w2 & Hrest & Hlen & HQrest).
    + intros i tr Hi off' w0.
      destruct (Hbody (S i) tr Hi off' w0) as (tr' & ins & w3 & H1 & H2).
      replace (tt + Z.of_nat (S i)) with (tt + 1 + Z.of_nat i) in H1, H2
        by lia.
      now exists tr', ins, w3.
    + rewrite Hrest. cbn [bind]. exists (tree1 :: rest1), loc1, w2.
      split; [reflexivity |]. split; [simpl; now rewrite Hlen |].
      intros [| i] tree' Hi.
      * injection Hi as <-. now rewrite Z.add_0_r.
      * replace (tt + Z.of_nat (S i)) with (tt + 1 + Z.of_nat i) by lia.
        now apply HQrest.
Qed.

Lemma adapt_forest_total (Q : Z -> t8_tree t8_element_t -> Prop)
  (fuel : nat) :
  (forall i tree,
      nth_error (trees forest) i = Some tree ->
      forall off w0,
      exists tree' ins w1,
        t8_forest_adapt_tree fuel forest (Z.of_nat i) tree off w0
        = Done (tree', ins, w1) /\ Q (Z.of_nat i) tree') ->
  exists forest',
    t8_forest_adapt fuel forest = Done forest' /\
    length (trees forest') = length (trees forest) /\
    forall i tree',
      nth_error (trees forest') i = Some tree' -> Q (Z.of_nat i) tree'.
Proof.
  intros Hbody. unfold t8_forest_adapt.
  destruct (adapt_trees_total Q fuel (trees forest) 0 0 0
              (forest_world forest) Hbody)
    as (trees' & loc & w & Hrun & Hlen & HQ).
  rewrite Hrun. cbn [bind]. eexists. split; [reflexivity |]. cbn.
  split; [exact Hlen | exact HQ].
Qed.

Lemma count_elements_nth (l : list (t8_tree t8_element_t)) (i : nat)
  (tree : t8_tree t8_element_t) :
  nth_error l i = Some tree ->
  elem_count (elements tree) <= count_elements l.
Proof.
  revert i. induction l as [| x l IH]; intros [| i] H; try discriminate.
  - injection H as ->. simpl.
    assert (0 <= count_elements l);
      [| lia].
    clear. induction l; simpl; unfold elem_count in *; lia.
  - simpl in *. specialize (IH i H). unfold elem_count in *. lia.
Qed.

(** A property of the world that the body keeps on every tree holds after
    the loop over the trees. *)
Lemma adapt_trees_world (W : world t8_element_t user_data_t -> Prop)
  (fuel : nat) (todo : list (t8_tree t8_element_t)) :
  forall tt el_offset local_num w trees' local_num' w',
    (forall i tree off w0 tree' ins w1,
        nth_error todo i = Some tree -> W w0 ->
        t8_forest_adapt_tree fuel forest (tt + Z.of_nat i) tree off w0
        = Done (tree', ins, w1) -> W w1) ->
    W w ->
    t8_forest_adapt_trees fuel forest tt todo el_offset local_num w
    = Done (trees', local_num', w') ->
    W w'.
Proof.
  induction todo as [| tree rest IH];
    intros tt off loc w trees' loc' w' Hbody HW Hrun;
    cbn [t8_forest_adapt_trees] in Hrun.
  - now injection Hrun as <- <- <-.
  - apply bind_Done in Hrun. destruct Hrun as ([[tree1 ins1] w1] & Htree & Hrun).
    apply bind_Done in Hrun. destruct Hrun as ([[rest1 loc1] w2] & Hrest & Hd).
    injection Hd as <- <- <-.
    apply (IH _ _ _ _ _ _ _) with (3 := Hrest).
    + intros i tr off' w0 tr' ins w3 Hi HW0 Hrun.
      apply (Hbody (S i) tr off' w0 tr' ins w3 Hi HW0).
      now replace (tt + Z.of_nat (S i)) with (tt + 1 + Z.of_nat i) by lia.
    + apply (Hbody 0%nat tree off w tree1 ins1 w1 eq_refl HW).
      now rewrite Z.add_0_r.
Qed.

Lemma adapt_forest_fields (fuel : nat)
  (forest' : t8_forest t8_element_t user_data_t) :
  t8_forest_adapt fuel forest = Done forest' ->
  eclass_schemes forest' = eclass_schemes forest /\
  set_from forest' = set_from forest /\
  set_replace_fn forest' = set_replace_fn forest.
Proof.
  unfold t8_forest_adapt. intros Hrun. apply bind_Done in Hrun.
  destruct Hrun as ([[trees' loc] w] & _ & Hd). now injection Hd as <-.
Qed.

Lemma nth_error_same_length {X Y : Type} (l : list X) (l' : list Y)
  (i : nat) (x : X) :
  length l = length l' -> nth_error l i = Some x ->
  exists y, nth_error l' i = Some y.
Proof.
  intros Hlen Hx. destruct (nth_error l' i) as [y |] eqn:E; [eauto |].
  apply nth_error_None in E.
  assert (nth_error l i <> None) as Hn by congruence.
  apply nth_error_Some in Hn. lia.
Qed.

(** The body of the loop over the trees, from a run of the loop over the
    elements that ends with the counter in step with the array. *)
Lemma adapt_tree_from_loop (fuel : nat) (i : nat)
  (tree tree_from : t8_tree t8_element_t) (off : Z)
  (w : world t8_element_t user_data_t) (k : Z)
  (st' : adapt_state t8_element_t user_data_t) :
  nth_error (set_from forest) i = Some tree_from ->
  elements tree_from <> [] ->
  scheme_laws (tree_scheme forest tree) k ->
  t8_forest_adapt_loop fuel forest (Z.of_nat i) (tree_scheme forest tree)
    (elements tree_from) k
    {| telements := elements tree;
       el_considered := 0;
       el_inserted := 0;
       el_coarsen := 0;
       st_world := w |} = Done st' ->
  el_inserted st' = elem_count (telements st') ->
  t8_forest_adapt_tree fuel forest (Z.of_nat i) tree off w
  = Done ({| eclass := eclass tree;
             elements := telements st';
             elements_offset := off |},
          elem_count (telements st'), st_world st').
Proof.
  intros Hfrom Hne laws Hloop Hins. unfold t8_forest_adapt_tree.
  assert (E : sc_array_index (set_from forest) (Z.of_nat i) = Some tree_from).
  { apply sc_array_index_Some. split; [lia |]. now rewrite Nat2Z.id. }
  rewrite E. cbn [of_option bind].
  destruct (elements tree_from) as [| first rest] eqn:Esrc;
    [now destruct Hne |].
  cbn [sc_array_index Z.ltb Z.compare Z.to_nat nth_error of_option bind].
  unfold tree_scheme in *. rewrite (law_num_children laws), Hloop.
  cbn [bind]. rewrite Hins, sc_array_resize_full. reflexivity.
Qed.

End TreeFacts.

(** ** The runs end *)

Section Fuel.

Variable t8_element_t : Type.
Variable user_data_t : Type.
Variable forest : t8_forest t8_element_t user_data_t.
Variable tt : Z.
Variable ts : t8_eclass_scheme_c t8_element_t.

(** More fuel does not change a run that ends. *)
Lemma coarsen_recursive_loop_mono (fuel fuel' : nat) :
  (fuel <= fuel')%nat ->
  forall k floor tel ins element pos w r,
    coarsen_recursive_loop fuel forest tt ts k floor tel ins element pos w
    = Done r ->
    coarsen_recursive_loop fuel' forest tt ts k floor tel ins element pos w
    = Done r.
Proof.
  revert fuel'. induction fuel as [| fuel IH];
    intros fuel' Hle k floor tel ins element pos w r;
    (destruct fuel' as [| fuel']; [try lia |]);
    cbn [coarsen_recursive_loop];
    destruct ((floor <=? pos) && (t8_element_child_id ts element =? k - 1));
    try discriminate; try (intros H; exact H).
  destruct (coarsen_family ts tel pos (Z.to_nat k) 0 []) as [[b fam] | |];
    cbn [bind]; try discriminate.
  destruct b; [| intros H; exact H].
  destruct (call_adapt forest w tt k fam) as [r0 w1].
  destruct (r0 <? 0); [| intros H; exact H].
  destruct (sc_array_resize tel (ins - (k - 1))) as [tel1 |];
    cbn [of_option bind]; try discriminate.
  destruct (nth_error fam 0) as [fam0 |]; cbn [of_option bind];
    try discriminate.
  destruct (sc_array_write tel1 pos (t8_element_parent ts fam0)) as [tel2 |];
    cbn [of_option bind]; try discriminate.
  apply IH. lia.
Qed.

Lemma coarsen_recursive_mono (fuel fuel' : nat) :
  (fuel <= fuel')%nat ->
  forall tel floor ins w r,
    t8_forest_adapt_coarsen_recursive fuel forest tt ts tel floor ins w
    = Done r ->
    t8_forest_adapt_coarsen_recursive fuel' forest tt ts tel floor ins w
    = Done r.
Proof.
  intros Hle tel floor ins w r. unfold t8_forest_adapt_coarsen_recursive.
  destruct (sc_array_index tel (ins - 1)) as [element |];
    cbn [of_option bind]; [| discriminate].
  now apply coarsen_recursive_loop_mono.
Qed.

Lemma refine_recursive_mono (fuel fuel' : nat) :
  (fuel <= fuel')%nat ->
  forall stack tel ins w r,
    t8_forest_adapt_refine_recursive fuel forest tt ts stack tel ins w
    = Done r ->
    t8_forest_adapt_refine_recursive fuel' forest tt ts stack tel ins w
    = Done r.
Proof.
  revert fuel'. induction fuel as [| fuel IH];
    intros fuel' Hle stack tel ins w r;
    (destruct fuel' as [| fuel']; [try lia |]);
    cbn [t8_forest_adapt_refine_recursive];
    destruct stack as [| e stack];
    try discriminate; try (intros H; exact H).
  destruct (call_adapt forest w tt 1 [e]) as [r0 w1].
  destruct (r0 >? 0).
  - destruct (sc_list_prepend_down
                (t8_element_children ts e (t8_element_num_children ts e))
                (Z.to_nat (t8_element_num_children ts e)) stack)
      as [l | |]; cbn [bind]; try discriminate.
    apply IH. lia.
  - apply IH. lia.
Qed.

Lemma adapt_body_mono (fuel fuel' : nat) :
  (fuel <= fuel')%nat ->
  forall src k st st',
    t8_forest_adapt_body fuel forest tt ts src k st = Done st' ->
    t8_forest_adapt_body fuel' forest tt ts src k st = Done st'.
Proof.
  intros Hle src k st st'. unfold t8_forest_adapt_body.
  destruct (adapt_window ts src (el_considered st) (Z.to_nat k) 0 [])
    as [[zz buf] | |]; cbn [bind]; try discriminate.
  destruct (call_adapt forest (st_world st) tt
              (if zz =? k then k else 1)
              (firstn (Z.to_nat (if zz =? k then k else 1)) buf)) as [r w1].
  destruct (nth_error buf 0) as [from0 |]; cbn [of_option bind];
    [| intros H; exact H].
  destruct (r >? 0).
  - destruct (set_adapt_recursive forest); [| intros H; exact H].
    destruct (sc_list_prepend_down (t8_element_children ts from0 k)
                (Z.to_nat k) []) as [l | |]; cbn [bind]; try discriminate.
    intros H. apply bind_Done in H.
    destruct H as ([[[l' tel'] ins'] w3] & H1 & H2).
    now rewrite (refine_recursive_mono fuel fuel' Hle _ _ _ _ _ H1).
  - destruct (r <? 0); intros H; apply bind_Done in H;
      destruct H as ([[tel2 ins2] w3] & H1 & H2);
      match type of H1 with
      | (if ?c then _ else _) = _ =>
          destruct c;
          [apply (coarsen_recursive_mono fuel fuel' Hle) in H1 |];
          now rewrite H1
      end.
Qed.

Lemma adapt_loop_mono (fuel fuel' : nat) :
  (fuel <= fuel')%nat ->
  forall src k st st',
    t8_forest_adapt_loop fuel forest tt ts src k st = Done st' ->
    t8_forest_adapt_loop fuel' forest tt ts src k st = Done st'.
Proof.
  revert fuel'. induction fuel as [| fuel IH];
    intros fuel' Hle src k st st';
    (destruct fuel' as [| fuel']; [try lia |]);
    cbn [t8_forest_adapt_loop];
    destruct (el_considered st <? elem_count src);
    try discriminate; try (intros H; exact H).
  intros H. apply bind_Done in H. destruct H as (st1 & H1 & H2).
  rewrite (adapt_body_mono fuel fuel' ltac:(lia) _ _ _ _ H1). cbn [bind].
  apply IH; [lia | exact H2].
Qed.

End Fuel.

Section Termination.

Variable t8_element_t : Type.
Variable user_data_t : Type.
Variable forest : t8_forest t8_element_t user_data_t.
Variable tt : Z.
Variable ts : t8_eclass_scheme_c t8_element_t.
Variable k : Z.
Hypothesis laws : scheme_laws ts k.
Hypothesis contract : adapt_contract forest tt ts k.

Local Abbreviation children q := (map (t8_element_child ts q) (child_ids k)).

Lemma contract_stops : stops_at_maxlevel forest tt ts.
Proof.
  intros u e He. destruct (contract u 1 [e]) as [_ Hpos].
  destruct (Z.ltb_spec 0 (fst (set_adapt_fn forest u tt 1 [e]))) as [Hr | Hr];
    [| exact Hr].
  specialize (Hpos Hr e eq_refl). unfold refinable in Hpos. lia.
Qed.

Lemma coarsen_fuel_app (l1 l2 : list t8_element_t) :
  coarsen_fuel ts (l1 ++ l2) = (coarsen_fuel ts l1 + coarsen_fuel ts l2)%nat.
Proof. unfold coarsen_fuel. now rewrite map_app, list_sum_app. Qed.

(** A parent weighs less than its children. *)
Lemma coarsen_fuel_family (q : t8_element_t) :
  refinable ts q ->
  (coarsen_fuel ts [q] < coarsen_fuel ts (children q))%nat.
Proof.
  intros Hq. pose proof (law_some_child laws) as Hk.
  pose proof (law_level_nonneg laws q) as H0.
  assert (E1 : coarsen_fuel ts [q] = Z.to_nat (t8_element_level ts q + 1))
    by apply Nat.add_0_r.
  rewrite E1. unfold coarsen_fuel.
  rewrite (list_sum_constant _ (Z.to_nat (t8_element_level ts q + 2))).
  - rewrite length_map, child_ids_length.
    replace (Z.to_nat (t8_element_level ts q + 2))
      with (S (Z.to_nat (t8_element_level ts q + 1))) by lia.
    destruct (Z.to_nat k) as [| m] eqn:Em; [lia |]. cbn [Nat.mul].
    apply Nat.lt_le_trans with (S (Z.to_nat (t8_element_level ts q + 1)));
      [lia | apply Nat.le_add_r].
  - intros x Hx. apply in_map_iff in Hx. destruct Hx as (i & <- & Hi).
    apply (child_ids_range k) in Hi.
    rewrite (law_level_child laws) by assumption. f_equal. lia.
Qed.

(** The coarsening loop ends within [coarsen_fuel] passes. *)
Lemma coarsen_recursive_loop_total (floor : Z) (fuel : nat) :
  0 <= floor ->
  forall tel ins element pos w,
    ins = elem_count tel -> pos = ins - k ->
    (coarsen_fuel ts tel < fuel)%nat ->
    exists r,
      coarsen_recursive_loop fuel forest tt ts k floor tel ins element pos w
      = Done r.
Proof.
  intros Hfloor. pose proof (law_some_child laws) as Hk.
  induction fuel as [| fuel IH]; intros tel ins element pos w Hins Hpos Hfuel;
    [lia |].
  cbn [coarsen_recursive_loop].
  destruct ((floor <=? pos) && (t8_element_child_id ts element =? k - 1))
    eqn:G; [| eauto].
  apply andb_true_iff in G. destruct G as [G _]. apply Z.leb_le in G.
  destruct (coarsen_family_spec _ ts tel pos ltac:(lia) (Z.to_nat k) 0 [])
    as (b & fam & Hscan & Hfam);
    [lia | reflexivity | reflexivity | now intros [| ?] ? | lia |].
  rewrite Hscan. cbn [bind].
  destruct b; [| eauto].
  destruct (Hfam eq_refl) as (Efam & _ & Hids).
  destruct (family_split _ ts k laws tel fam pos) as (A & -> & HA & Hcount);
    [lia | lia | exact Efam |].
  destruct (call_adapt forest w tt k fam) as [r w1] eqn:Ecall.
  destruct (Z.ltb_spec r 0) as [Hr | Hr]; [| eauto].
  destruct (proj1 (call_adapt_contract _ _ forest tt ts k contract
                     _ _ _ _ _ Ecall) Hr) as (q & Hq & Eq).
  assert (Hne : fam <> []) by (rewrite Eq; apply (children_not_nil _ _ k laws)).
  destruct (sc_array_replace_tail _ A fam
              (t8_element_parent ts (t8_element_child ts q 0)) Hne)
    as (b & Hb1 & Hb2).
  replace (ins - (k - 1))
    with (elem_count (A ++ fam) - (elem_count fam - 1)) by lia.
  rewrite Hb1. cbn [of_option bind].
  assert (E0 : nth_error fam 0 = Some (t8_element_child ts q 0)).
  { rewrite Eq. destruct (child_ids_first _ ts k laws) as [l ->]. reflexivity. }
  rewrite E0. cbn [of_option bind].
  rewrite Hpos, Hins.
  replace (elem_count (A ++ fam) - k) with (elem_count A)
    by (unfold elem_count in *; rewrite length_app; lia).
  rewrite Hb2. cbn [of_option bind].
  apply IH.
  - unfold elem_count in *. rewrite !length_app in *. simpl. lia.
  - unfold elem_count in *. rewrite !length_app in *. simpl. lia.
  - rewrite (law_parent_child laws) by (assumption || lia).
    rewrite coarsen_fuel_app in *.
    pose proof (coarsen_fuel_family q Hq) as Hlt. rewrite <- Eq in Hlt. lia.
Qed.

(** So does the call of the helper after an element has been pushed. *)
Lemma coarsen_recursive_total (floor : Z) (b : bool)
  (tel : list t8_element_t) (e : t8_element_t)
  (w : world t8_element_t user_data_t) :
  0 <= floor ->
  exists fuel r,
    (if b
     then t8_forest_adapt_coarsen_recursive fuel forest tt ts (tel ++ [e])
            floor (elem_count tel + 1) w
     else Done (tel ++ [e], elem_count tel + 1, w)) = Done r.
Proof.
  intros Hfloor. destruct b; [| exists 0%nat; eauto].
  exists (S (coarsen_fuel ts (tel ++ [e]))).
  unfold t8_forest_adapt_coarsen_recursive.
  assert (E : sc_array_index (tel ++ [e]) (elem_count tel + 1 - 1) = Some e).
  { apply sc_array_index_Some. unfold elem_count. split; [lia |].
    replace (Z.to_nat (Z.of_nat (length tel) + 1 - 1)) with (length tel) by lia.
    now rewrite nth_error_app2, Nat.sub_diag by lia. }
  rewrite E. cbn [of_option bind]. rewrite (law_num_children laws).
  apply coarsen_recursive_loop_total; try assumption; try lia.
  unfold elem_count. rewrite length_app. simpl. lia.
Qed.

Variable src : list t8_element_t.
Hypothesis src_levels : levels_ok ts src.

(** A pass of the main loop ends. *)
Lemma adapt_body_total (st : adapt_state t8_element_t user_data_t) :
  adapt_inv ts src st ->
  el_considered st < elem_count src ->
  exists fuel st', t8_forest_adapt_body fuel forest tt ts src k st = Done st'.
Proof.
  intros [Hc Hins Hfl Hcont Hlev] Hlt.
  pose proof (law_some_child laws) as Hk.
  destruct (adapt_window_cases _ ts k laws src (el_considered st)
              ltac:(lia))
    as (zz & buf & from0 & Hwin & Hrest & Hbuf0 & Hcases).
  set (n := if zz =? k then k else 1).
  assert (Hhd : hd_error (firstn (Z.to_nat n) buf) = Some from0).
  { destruct buf as [| x buf]; [discriminate |]. injection Hbuf0 as ->.
    replace (Z.to_nat n) with (S (Z.to_nat (n - 1)));
      [reflexivity | unfold n; destruct (zz =? k); lia]. }
  destruct (call_adapt forest (st_world st) tt n (firstn (Z.to_nat n) buf))
    as [r w1] eqn:Ecall.
  destruct (call_adapt_contract _ _ forest tt ts k contract _ _ _ _ _ Ecall)
    as [_ Cpos].
  destruct (Z.gtb_spec r 0) as [Hr | Hr].
  - assert (Hfrom : refinable ts from0) by (apply Cpos; [lia | exact Hhd]).
    destruct (refine_recursive_total _ _ forest tt ts k laws contract_stops
                (refine_fuel ts k (children from0)) (children from0)
                (telements st) (el_inserted st)
                (call_replace forest w1 tt 1 [from0] k (children from0)))
      as (tel' & ins' & w' & Hrun);
      [now apply (children_levels _ ts k laws) | lia |].
    exists (refine_fuel ts k (children from0)).
    unfold t8_forest_adapt_body. rewrite Hwin. cbn [bind]. fold n.
    rewrite Ecall, Hbuf0. cbn [of_option bind].
    destruct (Z.gtb_spec r 0); [| lia].
    destruct (set_adapt_recursive forest); [| eauto].
    rewrite (prepend_children _ ts k laws from0 [] Hfrom). cbn [bind].
    rewrite app_nil_r, (law_children laws) by assumption.
    rewrite Hrun. cbn [bind]. eauto.
  - destruct (Z.ltb_spec r 0) as [Hneg | Hzero].
    + destruct (coarsen_recursive_total (el_coarsen st)
                  (set_adapt_recursive forest
                   && (t8_element_child_id ts (t8_element_parent ts from0)
                       =? k - 1))
                  (telements st) (t8_element_parent ts from0)
                  (call_replace forest w1 tt k (firstn (Z.to_nat k) buf) 1
                     [t8_element_parent ts from0]) Hfl)
        as (fuel & [[tel2 ins2] w3] & Hrun).
      exists fuel.
      unfold t8_forest_adapt_body. rewrite Hwin. cbn [bind]. fold n.
      rewrite Ecall, Hbuf0. cbn [of_option bind].
      destruct (Z.gtb_spec r 0); [lia |].
      destruct (Z.ltb_spec r 0); [| lia].
      rewrite Hins, Hrun. cbn [bind]. eauto.
    + destruct (coarsen_recursive_total (el_coarsen st)
                  (set_adapt_recursive forest
                   && (t8_element_child_id ts from0 =? k - 1))
                  (telements st) from0 w1 Hfl)
        as (fuel & [[tel2 ins2] w3] & Hrun).
      exists fuel.
      unfold t8_forest_adapt_body. rewrite Hwin. cbn [bind]. fold n.
      rewrite Ecall, Hbuf0. cbn [of_option bind].
      destruct (Z.gtb_spec r 0); [lia |].
      destruct (Z.ltb_spec r 0); [lia |].
      rewrite Hins, Hrun. cbn [bind]. eauto.
Qed.

(** A pass considers at least one more source element. *)
Lemma adapt_body_progress (fuel : nat)
  (st st' : adapt_state t8_element_t user_data_t) :
  0 <= el_considered st < elem_count src ->
  t8_forest_adapt_body fuel forest tt ts src k st = Done st' ->
  el_considered st < el_considered st'.
Proof.
  intros Hc Hrun. pose proof (law_some_child laws) as Hk.
  destruct (adapt_body_cases _ _ forest tt ts k laws contract src fuel st st'
              Hc Hrun)
    as (from0 & n & elems & r & w1 & _ & _ & _ & _ & _ & Hbranch).
  destruct Hbranch as [(_ & _ & _ & Ec & _)
                      | [(_ & _ & _ & ->)
                      | [(_ & _ & Ec & _)
                      | (_ & Ec & _)]]]; cbn; lia.
Qed.

(** The main loop ends. *)
Lemma adapt_loop_total (n : nat) :
  forall st : adapt_state t8_element_t user_data_t,
    adapt_inv ts src st ->
    (Z.to_nat (elem_count src - el_considered st) <= n)%nat ->
    exists fuel st', t8_forest_adapt_loop fuel forest tt ts src k st = Done st'.
Proof.
  induction n as [| n IH]; intros st Hinv Hn;
    destruct (Z.ltb_spec (el_considered st) (elem_count src)) as [Hlt | Hge];
    try lia;
    try (exists 0%nat, st; cbn [t8_forest_adapt_loop];
         destruct (Z.ltb_spec (el_considered st) (elem_count src));
         [lia | reflexivity]).
  destruct (adapt_body_total st Hinv Hlt) as (fuel1 & st1 & Hbody).
  pose proof (inv_considered Hinv) as Hc.
  pose proof (adapt_body_progress fuel1 st st1 ltac:(lia) Hbody) as Hprog.
  destruct (adapt_body_inv _ _ forest tt ts k laws contract src src_levels
              (fun _ => True) ltac:(intros; exact I) ltac:(intros; exact I)
              fuel1 st st1 Hinv I Hlt Hbody) as [Hinv1 _].
  destruct (IH st1 Hinv1 ltac:(lia)) as (fuel2 & st2 & Hloop).
  exists (S (Nat.max fuel1 fuel2)), st2. cbn [t8_forest_adapt_loop].
  destruct (Z.ltb_spec (el_considered st) (elem_count src)); [| lia].
  rewrite (adapt_body_mono _ _ forest tt ts fuel1 (Nat.max fuel1 fuel2)
             (Nat.le_max_l _ _) _ _ _ _ Hbody).
  cbn [bind].
  apply (adapt_loop_mono _ _ forest tt ts fuel2 (Nat.max fuel1 fuel2)
           (Nat.le_max_r _ _) _ _ _ _ Hloop).
Qed.

End Termination.

Section ForestTermination.

Variable t8_element_t : Type.
Variable user_data_t : Type.
Variable forest : t8_forest t8_element_t user_data_t.

Lemma adapt_tree_mono (fuel fuel' : nat) :
  (fuel <= fuel')%nat ->
  forall tt tree off w r,
    t8_forest_adapt_tree fuel forest tt tree off w = Done r ->
    t8_forest_adapt_tree fuel' forest tt tree off w = Done r.
Proof.
  intros Hle tt tree off w r. unfold t8_forest_adapt_tree.
  destruct (sc_array_index (set_from forest) tt) as [tf |];
    cbn [of_option bind]; [| discriminate].
  destruct (sc_array_index (elements tf) 0) as [first |];
    cbn [of_option bind]; [| discriminate].
  intros H. apply bind_Done in H. destruct H as (st & H1 & H2).
  now rewrite (adapt_loop_mono _ _ forest tt _ fuel fuel' Hle _ _ _ _ H1).
Qed.

Lemma adapt_trees_mono (fuel fuel' : nat) :
  (fuel <= fuel')%nat ->
  forall todo tt off loc w r,
    t8_forest_adapt_trees fuel forest tt todo off loc w = Done r ->
    t8_forest_adapt_trees fuel' forest tt todo off loc w = Done r.
Proof.
  intros Hle. induction todo as [| tree rest IH]; intros tt off loc w r;
    cbn [t8_forest_adapt_trees]; [intros H; exact H |].
  intros H. apply bind_Done in H. destruct H as ([[tree1 ins1] w1] & H1 & H).
  apply bind_Done in H. destruct H as ([[rest1 loc1] w2] & H2 & H3).
  rewrite (adapt_tree_mono fuel fuel' Hle _ _ _ _ _ H1). cbn [bind].
  now rewrite (IH _ _ _ _ _ H2).
Qed.

(** The body of the loop over the trees ends on a tree that is ready. *)
Lemma adapt_tree_ends (tt : Z) (tree tree_from : t8_tree t8_element_t)
  (off : Z) (w : world t8_element_t user_data_t) :
  sc_array_index (set_from forest) tt = Some tree_from ->
  tree_ready forest tt tree tree_from ->
  exists fuel r, t8_forest_adapt_tree fuel forest tt tree off w = Done r.
Proof.
  intros Etf (Hempty & k & laws & contract & Hsrc).
  unfold tree_scheme in *.
  set (ts := eclass_schemes forest (eclass tree)) in *.
  set (src := elements tree_from) in *.
  assert (Hpos : 0 < elem_count src).
  { pose proof (committed_some Hsrc). unfold elem_count.
    destruct src; [congruence | simpl; lia]. }
  destruct (@sc_array_index_in_range _ src 0 ltac:(lia)) as [first Hfirst].
  set (st0 := {| telements := elements tree; el_considered := 0;
                 el_inserted := 0; el_coarsen := 0; st_world := w |}).
  assert (Hinv : adapt_inv ts src st0).
  { constructor; cbn; rewrite ?Hempty; try (unfold elem_count; simpl; lia).
    - apply (committed_contiguous Hsrc).
    - constructor. }
  destruct (adapt_loop_total _ _ forest tt ts k laws contract src
              (committed_levels Hsrc) (Z.to_nat (elem_count src)) st0 Hinv
              ltac:(cbn; lia)) as (fuel & st' & Hloop).
  destruct (adapt_loop_inv _ _ forest tt ts k laws contract src
              (committed_levels Hsrc) (fun _ => True)
              ltac:(intros; exact I) ltac:(intros; exact I)
              fuel st0 st' Hinv I Hloop) as (Hinv' & _).
  exists fuel. unfold t8_forest_adapt_tree. rewrite Etf.
  cbn [of_option bind]. fold src. rewrite Hfirst. cbn [of_option bind].
  fold ts. rewrite (law_num_children laws). fold st0. rewrite Hloop.
  cbn [bind]. rewrite (inv_inserted Hinv'), sc_array_resize_full.
  cbn [of_option bind]. eauto.
Qed.

Lemma adapt_trees_ends (todo : list (t8_tree t8_element_t)) :
  forall tt off loc w,
    (forall i tree,
        nth_error todo i = Some tree ->
        exists tree_from,
          sc_array_index (set_from forest) (tt + Z.of_nat i) = Some tree_from /\
          tree_ready forest (tt + Z.of_nat i) tree tree_from) ->
    exists fuel r,
      t8_forest_adapt_trees fuel forest tt todo off loc w = Done r.
Proof.
  induction todo as [| tree rest IH]; intros tt off loc w Hready;
    [exists 0%nat; cbn; eauto |].
  destruct (Hready 0%nat tree eq_refl) as (tf & Etf & Htree).
  rewrite Z.add_0_r in Etf, Htree.
  destruct (adapt_tree_ends tt tree tf off w Etf Htree)
    as (fuel1 & [[tree1 ins1] w1] & H1).
  destruct (IH (tt + 1) (off + ins1) (loc + ins1) w1)
    as (fuel2 & [[rest1 loc1] w2] & H2).
  { intros i tr Hi. destruct (Hready (S i) tr Hi) as (tf' & E & Htr).
    replace (tt + Z.of_nat (S i)) with (tt + 1 + Z.of_nat i) in E, Htr by lia.
    now exists tf'. }
  exists (Nat.max fuel1 fuel2). cbn [t8_forest_adapt_trees].
  rewrite (adapt_tree_mono fuel1 _ (Nat.le_max_l _ _) _ _ _ _ _ H1).
  cbn [bind].
  rewrite (adapt_trees_mono fuel2 _ (Nat.le_max_r _ _) _ _ _ _ _ _ H2).
  cbn [bind]. eauto.
Qed.

(** [t8_forest_adapt] ends on a forest that is ready. *)
Lemma adapt_forest_ends :
  forest_ready forest ->
  exists fuel forest', t8_forest_adapt fuel forest = Done forest'.
Proof.
  intros [Hlen Hready].
  destruct (adapt_trees_ends (trees forest) 0 0 0 (forest_world forest))
    as (fuel & [[trees' loc] w'] & Hrun).
  { intros i tree Hi.
    destruct (nth_error_same_length _ _ i tree Hlen Hi) as [tf Htf].
    exists tf. rewrite Z.add_0_l. split; [| now apply Hready].
    apply sc_array_index_Some. split; [lia |]. now rewrite Nat2Z.id. }
  exists fuel. unfold t8_forest_adapt. rewrite Hrun. cbn [bind]. eauto.
Qed.

(** With enough fuel the run does not depend on the fuel. *)
Lemma adapt_forest_mono (fuel fuel' : nat)
  (forest' : t8_forest t8_element_t user_data_t) :
  (fuel <= fuel')%nat ->
  t8_forest_adapt fuel forest = Done forest' ->
  t8_forest_adapt fuel' forest = Done forest'.
Proof.
  intros Hle. unfold t8_forest_adapt. intros H. apply bind_Done in H.
  destruct H as ([[trees' loc] w'] & H1 & H2).
  now rewrite (adapt_trees_mono fuel fuel' Hle _ _ _ _ _ _ H1).
Qed.

End ForestTermination.

(** ** The scheme with two children meets the laws *)

Module LineFacts.

Import Line.

Lemma compare_refl (a : element) : compare a a = 0.
Proof.
  induction a as [| x a IH]; [reflexivity |].
  simpl. now rewrite Bool.eqb_reflx.
Qed.

Lemma compare_trans (a b c : element) :
  compare a b < 0 -> compare b c < 0 -> compare a c < 0.
Proof.
  revert b c. induction a as [| x a IH]; intros [| y b] [| z c]; simpl;
    try lia.
  destruct x, y, z; simpl; try lia; apply IH.
Qed.

Lemma compare_snoc (e : element) (x y : bool) :
  compare (e ++ [x]) (e ++ [y])
  = if Bool.eqb x y then 0 else if x then 1 else -1.
Proof.
  induction e as [| z e IH]; simpl.
  - now destruct (Bool.eqb x y), x.
  - now rewrite Bool.eqb_reflx.
Qed.

Lemma compare_ancestor (e : element) (x : bool) : compare e (e ++ [x]) < 0.
Proof.
  induction e as [| z e IH]; simpl; [lia |]. now rewrite Bool.eqb_reflx.
Qed.

Lemma compare_descend (a b : element) (x : bool) :
  compare a b < 0 -> (forall s, b <> a ++ s) -> compare (a ++ [x]) b < 0.
Proof.
  revert b. induction a as [| y a IH]; intros [| z b] Hlt Hpre; simpl in *;
    try lia.
  - now destruct (Hpre (z :: b)).
  - destruct (Bool.eqb y z) eqn:E; [| exact Hlt].
    apply Bool.eqb_prop in E. subst z. apply IH; [exact Hlt |].
    intros s Hs. apply (Hpre s). now rewrite Hs.
Qed.

Lemma child_bit (i : Z) : 0 <= i < 2 -> (if 0 <? i then 1 else 0) = i.
Proof. intros Hi. destruct (Z.ltb_spec 0 i); lia. Qed.

Lemma within_prefix (maxlevel : Z) (a : element) (s : list bool) :
  Z.of_nat (length (a ++ s)) <= maxlevel ->
  within (scheme maxlevel) a (a ++ s).
Proof.
  induction s as [| x s IH] using rev_ind; intros Hlen.
  - rewrite app_nil_r. constructor.
  - rewrite app_assoc in *. rewrite length_app in Hlen. simpl in Hlen.
    replace ((a ++ s) ++ [x])
      with (t8_element_child (scheme maxlevel) (a ++ s) (if x then 1 else 0))
      by (simpl; unfold child; now destruct x).
    apply within_child.
    + apply IH. lia.
    + unfold refinable. simpl. lia.
    + simpl. destruct x; lia.
Qed.

Lemma laws (maxlevel : Z) : scheme_laws (scheme maxlevel) 2.
Proof.
  constructor; simpl; unfold refinable, sfc_lt, child; simpl.
  - reflexivity.
  - lia.
  - intros e. destruct (last e false); lia.
  - reflexivity.
  - intros e. lia.
  - intros e i _ _. rewrite length_app. simpl. lia.
  - intros e i _ _. apply removelast_last.
  - intros e i _ Hi. rewrite last_last. now apply child_bit.
  - apply compare_refl.
  - apply compare_trans.
  - intros e i j _ Hi Hj. rewrite compare_snoc.
    destruct (Z.ltb_spec 0 i), (Z.ltb_spec 0 j); simpl; lia.
  - intros e i _ _. apply compare_ancestor.
  - intros a b i _ _ Hb Hlt Hnot. apply compare_descend; [exact Hlt |].
    intros s ->. apply Hnot. now apply within_prefix.
Qed.

Lemma adjacent_siblings_line (maxlevel : Z) (q : element) :
  Z.of_nat (length q) < maxlevel ->
  adjacent (scheme maxlevel) (q ++ [false]) (q ++ [true]).
Proof. intros Hq. now apply (@adjacent_siblings _ (scheme maxlevel) q 0). Qed.

Lemma adjacent_last_line (maxlevel : Z) (a b : element) :
  adjacent (scheme maxlevel) a b -> Z.of_nat (length a) < maxlevel ->
  adjacent (scheme maxlevel) (a ++ [true]) b.
Proof. intros H Ha. now apply (@adjacent_last _ (scheme maxlevel) a b). Qed.

Lemma adjacent_first_line (maxlevel : Z) (a b : element) :
  adjacent (scheme maxlevel) a b -> Z.of_nat (length b) < maxlevel ->
  adjacent (scheme maxlevel) a (b ++ [false]).
Proof. intros H Hb. now apply (@adjacent_first _ (scheme maxlevel) a b). Qed.

End LineFacts.

(** ** The forest of the examples *)

Module DemoFacts.

Import Line Demo.

Lemma family_b_spec (a b : element) :
  family_b a b = true -> is_family (scheme maxlevel) 2 [a; b].
Proof.
  unfold family_b. intros H.
  destruct (rev a) as [| [|] qa] eqn:Ea; try discriminate.
  destruct (rev b) as [| [|] qb] eqn:Eb; try discriminate.
  apply andb_true_iff in H. destruct H as [Hq Hl].
  destruct (list_eq_dec bool_dec qa qb) as [<- |]; [| discriminate].
  apply Z.ltb_lt in Hl. exists (rev qa). split; [exact Hl |].
  apply (f_equal (@rev _)) in Ea, Eb. rewrite rev_involutive in Ea, Eb.
  now rewrite Ea, Eb.
Qed.

Lemma decide_contract (n : Z) (elems : list element) :
  (decide n elems < 0 -> is_family (scheme maxlevel) 2 elems) /\
  (0 < decide n elems ->
   forall e, hd_error elems = Some e -> refinable (scheme maxlevel) e).
Proof.
  assert (Hlow : forall a : element,
             0 < (if level a <? 2 then 1 else 0) ->
             refinable (scheme maxlevel) a).
  { intros a. unfold refinable, level, maxlevel. simpl.
    destruct (Z.ltb_spec (Z.of_nat (length a)) 2); lia. }
  unfold decide. destruct elems as [| a [| b [| c l]]]; simpl.
  - split; [lia | discriminate].
  - split; [destruct (level a <? 2); lia |].
    intros H e [= <-]. now apply Hlow.
  - destruct ((n =? 2) && family_b a b && (level a =? 3)) eqn:E.
    + split; [| lia]. intros _.
      apply andb_true_iff in E. destruct E as [E _].
      apply andb_true_iff in E. destruct E as [_ E].
      now apply family_b_spec.
    + split; [destruct (level a <? 2); lia |].
      intros H e [= <-]. now apply Hlow.
  - split; [destruct (level a <? 2); lia |].
    intros H e [= <-]. now apply Hlow.
Qed.

Lemma adapt_fn_contract (recursive : bool) (from : list (list element))
  (ltreeid : Z) :
  adapt_contract (forest_of adapt_fn recursive from) ltreeid
    (scheme maxlevel) 2.
Proof. intros u n elems. apply decide_contract. Qed.

Lemma source_committed : committed_elements (scheme maxlevel) source.
Proof.
  constructor.
  - discriminate.
  - unfold source, contiguous. repeat constructor.
    + apply (LineFacts.adjacent_last_line maxlevel [false]); [| reflexivity].
      now apply (LineFacts.adjacent_siblings_line maxlevel []).
    + apply (LineFacts.adjacent_last_line maxlevel [false; false]);
        [| reflexivity].
      now apply (LineFacts.adjacent_siblings_line maxlevel [false]).
    + now apply (LineFacts.adjacent_siblings_line maxlevel [false; false]).
  - unfold source, levels_ok, maxlevel. repeat constructor; simpl; lia.
Qed.

(** A forest of trees of lines is ready when the predicate keeps the
    contract and the source trees are committed. *)
Lemma forest_of_ready (fn : t8_forest_adapt_t element nat) (recursive : bool)
  (from : list (list element)) :
  (forall ltreeid,
      adapt_contract (forest_of fn recursive from) ltreeid (scheme maxlevel) 2) ->
  Forall (committed_elements (scheme maxlevel)) from ->
  forest_ready (forest_of fn recursive from).
Proof.
  intros Hfn Hfrom. split; [simpl; now rewrite !length_map |].
  intros i tree tree_from. simpl. rewrite !nth_error_map.
  destruct (nth_error from i) as [l |] eqn:E; [| discriminate].
  simpl. intros [= <-] [= <-]. split; [reflexivity |].
  exists 2. split; [apply LineFacts.laws |]. split; [apply Hfn |].
  rewrite Forall_forall in Hfrom. apply Hfrom.
  now apply nth_error_In with i.
Qed.

Lemma forest_ready_demo : forest_ready forest.
Proof.
  apply forest_of_ready; [apply adapt_fn_contract |].
  constructor; [apply source_committed | constructor].
Qed.

Lemma keep_fn_contract (recursive : bool) (from : list (list element))
  (ltreeid : Z) :
  adapt_contract (forest_of keep_fn recursive from) ltreeid
    (scheme maxlevel) 2.
Proof. intros u n elems. simpl. lia. Qed.

Lemma halves_committed : committed_elements (scheme maxlevel) [[false]; [true]].
Proof.
  constructor.
  - discriminate.
  - repeat constructor.
    now apply (LineFacts.adjacent_siblings_line maxlevel []).
  - unfold levels_ok, maxlevel. repeat constructor; simpl; lia.
Qed.

Lemma adapt_fn_stops (recursive : bool) (from : list (list element))
  (ltreeid : Z) :
  stops_at_maxlevel (forest_of adapt_fn recursive from) ltreeid
    (scheme maxlevel).
Proof.
  intros u e He. simpl in *. unfold level, maxlevel in *.
  destruct (Z.ltb_spec (Z.of_nat (length e)) 2); lia.
Qed.

Lemma source4_committed : committed_elements (scheme maxlevel) source4.
Proof.
  constructor.
  - discriminate.
  - unfold source4, contiguous. repeat constructor.
    + apply (LineFacts.adjacent_last_line maxlevel [true; false]);
        [| reflexivity].
      now apply (LineFacts.adjacent_siblings_line maxlevel [true]).
    + now apply (LineFacts.adjacent_siblings_line maxlevel [true; false]).
    + apply (LineFacts.adjacent_first_line maxlevel [false] [true; false]);
        [| reflexivity].
      apply (LineFacts.adjacent_first_line maxlevel [false] [true]);
        [| reflexivity].
      now apply (LineFacts.adjacent_siblings_line maxlevel []).
  - unfold source4, levels_ok, maxlevel. repeat constructor; simpl; lia.
Qed.

Lemma start_inv (l : list element) :
  committed_elements (scheme maxlevel) l ->
  adapt_inv (scheme maxlevel) l start.
Proof.
  intros [_ Hc Hl]. constructor; cbn; try (unfold elem_count; lia).
  - exact Hc.
  - constructor.
Qed.

Lemma refine_all_forest_ready :
  refine_coarsen_ready refine_all_forest coarsen_families_fn.
Proof.
  split; [reflexivity |].
  intros i tree tree_from Htree Hfrom.
  assert (Hcases : (tree_from = line_tree halves \/ tree_from = line_tree [[]])
                   /\ tree = line_tree []).
  { destruct i as [| [| [| i]]]; cbn in Htree, Hfrom; try discriminate;
      injection Htree as <-; injection Hfrom as <-; auto. }
  destruct Hcases as [Hfrom' ->]. split; [reflexivity |].
  split; [destruct Hfrom' as [-> | ->]; discriminate |].
  exists 2. split; [apply LineFacts.laws |]. split.
  - destruct Hfrom' as [-> | ->]; repeat constructor.
  - intros u q _. cbn. lia.
Qed.

Lemma forest_ready_keep : forest_ready keep_forest.
Proof.
  apply forest_of_ready; [apply keep_fn_contract |].
  constructor; [apply source_committed |].
  constructor; [apply halves_committed | constructor].
Qed.

End DemoFacts.

(** ** The order of the output *)

Section OutputOrder.

Variable t8_element_t : Type.
Variable user_data_t : Type.


End OutputOrder.


(** ** The coarsen floor *)

Section CoarsenFloor.

Variable t8_element_t : Type.
Variable user_data_t : Type.
Variable forest : t8_forest t8_element_t user_data_t.
Variable tt : Z.
Variable ts : t8_eclass_scheme_c t8_element_t.
Variable src : list t8_element_t.
Variable k : Z.


End CoarsenFloor.



(** ** The branch that coarsens *)

Section CoarsenBranch.

Variable t8_element_t : Type.
Variable user_data_t : Type.
Variable forest : t8_forest t8_element_t user_data_t.
Variable tt : Z.
Variable ts : t8_eclass_scheme_c t8_element_t.
Variable src : list t8_element_t.
Variable k : Z.

(** C5.  When the window at the cursor is a candidate family [fam] (the
    scan ends with [zz = num_children]) and the predicate answers it with a
    negative number, the pass pushes one element, the parent of the first
    element of [fam], and moves the cursor on by [num_children]; [fam] is
    the [num_children] source elements at the cursor.  A replace callback
    that is set is called once, with [fam] as the [num_children] old
    elements and the parent as the one new element.  In a recursive adapt
    the coarsening loop may follow the push. *)
Theorem coarsen_pushes_parent (fuel : nat)
  (st : adapt_state t8_element_t user_data_t) (fam : list t8_element_t)
  (r : Z) (w1 : world t8_element_t user_data_t) (e0 : t8_element_t) :
  0 <= el_considered st ->
  adapt_window ts src (el_considered st) (Z.to_nat k) 0 [] = Done (k, fam) ->
  call_adapt forest (st_world st) tt k fam = (r, w1) ->
  r < 0 ->
  hd_error fam = Some e0 ->
  let parent := t8_element_parent ts e0 in
  let pushed := telements st ++ [parent] in
  let w2 := call_replace forest w1 tt k fam 1 [parent] in
  elem_count fam = k /\
  fam = firstn (Z.to_nat k) (skipn (Z.to_nat (el_considered st)) src) /\
  (forall f, set_replace_fn forest = Some f ->
     w2 = {| user_data := f (user_data w1) tt k fam 1 [parent];
             trace := trace w1 ++ [Ev_replace tt k fam 1 [parent]] |}) /\
  (set_replace_fn forest = None -> w2 = w1) /\
  t8_forest_adapt_body fuel forest tt ts src k st
  = ('(telements2, el_inserted2, w3) <-
       (if set_adapt_recursive forest
           && (t8_element_child_id ts parent =? k - 1)
        then t8_forest_adapt_coarsen_recursive fuel forest tt ts pushed
               (el_coarsen st) (el_inserted st + 1) w2
        else Done (pushed, el_inserted st + 1, w2)) ;;
     Done {| telements := telements2;
             el_considered := el_considered st + k;
             el_inserted := el_inserted2;
             el_coarsen := el_coarsen st;
             st_world := w3 |}) /\
  (set_adapt_recursive forest = false ->
   t8_forest_adapt_body fuel forest tt ts src k st
   = Done {| telements := pushed;
             el_considered := el_considered st + k;
             el_inserted := el_inserted st + 1;
             el_coarsen := el_coarsen st;
             st_world := w2 |}).
Proof.
  intros Hc Hwin Hcall Hr Hhd parent pushed w2.
  destruct (adapt_window_spec _ ts src (el_considered st) Hc (Z.to_nat k) 0 [])
    as (zz & buf & Hrun & Hzz & Hbuf & Hfull & _);
    [lia | reflexivity | reflexivity | now intros [| ?] ? |].
  rewrite Hwin in Hrun. injection Hrun as <- <-.
  assert (Hk : 0 <= k) by lia.
  destruct Hfull as [Hlen _]; [lia |].
  assert (Hfirst : firstn (Z.to_nat k) fam = fam)
    by (apply firstn_all2; lia).
  assert (Hbody :
    t8_forest_adapt_body fuel forest tt ts src k st
    = ('(telements2, el_inserted2, w3) <-
         (if set_adapt_recursive forest
             && (t8_element_child_id ts parent =? k - 1)
          then t8_forest_adapt_coarsen_recursive fuel forest tt ts pushed
                 (el_coarsen st) (el_inserted st + 1) w2
          else Done (pushed, el_inserted st + 1, w2)) ;;
       Done {| telements := telements2;
               el_considered := el_considered st + k;
               el_inserted := el_inserted2;
               el_coarsen := el_coarsen st;
               st_world := w3 |})).
  { unfold t8_forest_adapt_body. rewrite Hwin. cbn [bind].
    rewrite Z.eqb_refl, Hfirst, Hcall.
    destruct (Z.gtb_spec r 0); [lia |].
    destruct (Z.ltb_spec r 0); [| lia].
    destruct fam as [| x fam']; [discriminate |].
    injection Hhd as ->. reflexivity. }
  split; [unfold elem_count; lia |].
  split; [now rewrite Hbuf at 1; rewrite Hlen |].
  split; [intros f Hf; unfold w2, call_replace; now rewrite Hf |].
  split; [intros Hf; unfold w2, call_replace; now rewrite Hf |].
  split; [exact Hbody |].
  intros Hrec. rewrite Hbody, Hrec. reflexivity.
Qed.

End CoarsenBranch.

Lemma coarsen_pushes_parent_witness :
  0 <= el_considered Demo.start /\
  adapt_window (Line.scheme Demo.maxlevel) Demo.source
    (el_considered Demo.start) (Z.to_nat 2) 0 []
  = Done (2, [[false; false; false]; [false; false; true]]) /\
  call_adapt Demo.forest (st_world Demo.start) 0 2
    [[false; false; false]; [false; false; true]]
  = (-1, {| user_data := 1%nat;
            trace := [Ev_adapt 0 2
                        [[false; false; false]; [false; false; true]] (-1)] |})
  /\
  -1 < 0 /\
  hd_error [[false; false; false]; [false; false; true]]
  = Some [false; false; false] /\
  t8_forest_adapt_body 10 Demo.forest 0 (Line.scheme Demo.maxlevel)
    Demo.source 2 Demo.start
  = Done {| telements := [[false; false]];
            el_considered := 2;
            el_inserted := 1;
            el_coarsen := 0;
            st_world :=
              {| user_data := 101%nat;
                 trace :=
                   [Ev_adapt 0 2
                      [[false; false; false]; [false; false; true]] (-1);
                    Ev_replace 0 2
                      [[false; false; false]; [false; false; true]] 1
                      [[false; false]]] |} |}.
Proof.
  split; [discriminate |]. split; [reflexivity |]. split; [reflexivity |].
  split; [reflexivity |]. split; [reflexivity |].
  pose proof (coarsen_pushes_parent _ _ Demo.forest 0
                (Line.scheme Demo.maxlevel) Demo.source 2 10 Demo.start
                [[false; false; false]; [false; false; true]] (-1) _
                [false; false; false]
                ltac:(discriminate) eq_refl eq_refl eq_refl eq_refl) as H.
  cbv zeta in H. destruct H as (_ & _ & _ & _ & H & _).
  rewrite H. reflexivity.
Defined.

(** ** Offsets and counts *)

Section Offsets.

Variable t8_element_t : Type.
Variable user_data_t : Type.
Variable forest : t8_forest t8_element_t user_data_t.

Lemma adapt_tree_count (fuel : nat) (tt : Z)
  (tree tree' : t8_tree t8_element_t) (off ins : Z)
  (w w' : world t8_element_t user_data_t) :
  t8_forest_adapt_tree fuel forest tt tree off w = Done (tree', ins, w') ->
  elements_offset tree' = off /\ ins = elem_count (elements tree').
Proof.
  intros Hrun. unfold t8_forest_adapt_tree in Hrun.
  apply bind_Done in Hrun. destruct Hrun as (tree_from & _ & Hrun).
  apply bind_Done in Hrun. destruct Hrun as (first & _ & Hrun).
  apply bind_Done in Hrun. destruct Hrun as (st & _ & Hrun).
  apply bind_Done in Hrun. destruct Hrun as (tel & Hresize & Hrun).
  injection Hrun as <- <- <-. cbn. split; [reflexivity |].
  destruct (sc_array_resize (telements st) (el_inserted st)) as [tel' |] eqn:E;
    [| discriminate].
  injection Hresize as ->. apply sc_array_resize_Some in E.
  destruct E as (_ & E & _). now rewrite E.
Qed.

Lemma adapt_trees_offsets (fuel : nat) (todo : list (t8_tree t8_element_t)) :
  forall tt el_offset local_num w trees' local_num' w',
    t8_forest_adapt_trees fuel forest tt todo el_offset local_num w
    = Done (trees', local_num', w') ->
    (forall i tree',
        nth_error trees' i = Some tree' ->
        elements_offset tree' = el_offset + count_elements (firstn i trees'))
    /\ local_num' = local_num + count_elements trees'.
Proof.
  induction todo as [| tree rest IH];
    intros tt off loc w trees' loc' w' Hrun; cbn [t8_forest_adapt_trees] in Hrun.
  - injection Hrun as <- <- <-. split; [now intros [| ?] | simpl; lia].
  - apply bind_Done in Hrun. destruct Hrun as ([[tree1 ins1] w1] & Htree & Hrun).
    apply bind_Done in Hrun. destruct Hrun as ([[rest1 loc1] w2] & Hrest & Hd).
    injection Hd as <- <- <-.
    apply adapt_tree_count in Htree. destruct Htree as [Hoff Hins].
    destruct (IH _ _ _ _ _ _ _ Hrest) as [Hnth Hloc]. split.
    + intros [| i] tree' Hi.
      * injection Hi as <-. simpl. lia.
      * simpl in Hi. rewrite (Hnth i tree' Hi). simpl. lia.
    + simpl. lia.
Qed.

(** C9.  When [t8_forest_adapt] is done, the offset of every tree is the
    number of elements of the trees before it, and the local element count
    of the forest is the number of elements of all its trees. *)
Theorem adapt_offsets_are_prefix_sums (fuel : nat)
  (forest' : t8_forest t8_element_t user_data_t) :
  t8_forest_adapt fuel forest = Done forest' ->
  (forall i tree',
      nth_error (trees forest') i = Some tree' ->
      elements_offset tree' = count_elements (firstn i (trees forest'))) /\
  local_num_elements forest' = count_elements (trees forest').
Proof.
  unfold t8_forest_adapt. intros Hrun. apply bind_Done in Hrun.
  destruct Hrun as ([[trees' loc] w] & Hrun & Hd). injection Hd as <-. cbn.
  apply adapt_trees_offsets in Hrun. exact Hrun.
Qed.

End Offsets.

Lemma adapt_offsets_are_prefix_sums_witness :
  t8_forest_adapt 10 Demo.forest3 = Done Demo.result3 /\
  (forall i tree',
      nth_error (trees Demo.result3) i = Some tree' ->
      elements_offset tree' = count_elements (firstn i (trees Demo.result3)))
  /\ local_num_elements Demo.result3 = count_elements (trees Demo.result3).
Proof.
  assert (Erun : t8_forest_adapt 10 Demo.forest3 = Done Demo.result3)
    by (vm_compute; reflexivity).
  split; [exact Erun |].
  exact (adapt_offsets_are_prefix_sums _ _ Demo.forest3 10 Demo.result3 Erun).
Defined.

(** The three trees of the example get the offsets 0, 4 and 8. *)
Example offsets_of_three_trees :
  map (fun tree => (elem_count (elements tree), elements_offset tree))
    (trees Demo.result3) = [(4, 0); (4, 4); (4, 8)]
  /\ local_num_elements Demo.result3 = 12.
Proof. split; reflexivity. Qed.

(** ** The first element of a tree *)

Section FirstElement.

Variable t8_element_t : Type.
Variable user_data_t : Type.
Variable forest : t8_forest t8_element_t user_data_t.
Variable tt : Z.

Lemma adapt_window_num_children (ts : t8_eclass_scheme_c t8_element_t)
  (f : t8_element_t -> Z) (src : list t8_element_t) (c : Z) (n : nat) :
  forall zz buf,
    adapt_window (with_num_children ts f) src c n zz buf
    = adapt_window ts src c n zz buf.
Proof.
  induction n as [| n IH]; intros zz buf; [reflexivity |].
  cbn [adapt_window]. destruct (c + zz <? elem_count src); [| reflexivity].
  destruct (sc_array_index src (c + zz)) as [e |]; [| reflexivity].
  cbn [of_option bind t8_element_child_id with_num_children].
  destruct (t8_element_child_id ts e =? zz); [apply IH | reflexivity].
Qed.

Lemma adapt_body_num_children (ts : t8_eclass_scheme_c t8_element_t)
  (f : t8_element_t -> Z) (src : list t8_element_t) (k : Z) (fuel : nat)
  (st : adapt_state t8_element_t user_data_t) :
  set_adapt_recursive forest = false ->
  t8_forest_adapt_body fuel forest tt (with_num_children ts f) src k st
  = t8_forest_adapt_body fuel forest tt ts src k st.
Proof.
  intros Hrec. unfold t8_forest_adapt_body.
  rewrite adapt_window_num_children, Hrec. reflexivity.
Qed.

Lemma adapt_loop_num_children (ts : t8_eclass_scheme_c t8_element_t)
  (f : t8_element_t -> Z) (src : list t8_element_t) (k : Z) (fuel : nat) :
  set_adapt_recursive forest = false ->
  forall st,
    t8_forest_adapt_loop fuel forest tt (with_num_children ts f) src k st
    = t8_forest_adapt_loop fuel forest tt ts src k st.
Proof.
  intros Hrec. induction fuel as [| fuel IH]; intros st; [reflexivity |].
  cbn [t8_forest_adapt_loop].
  destruct (el_considered st <? elem_count src); [| reflexivity].
  rewrite adapt_body_num_children by assumption.
  destruct (t8_forest_adapt_body fuel forest tt ts src k st); try reflexivity.
  apply IH.
Qed.


End FirstElement.


(** ** The predicate that keeps every element *)

Section Identity.

Variable t8_element_t : Type.
Variable user_data_t : Type.
Variable forest : t8_forest t8_element_t user_data_t.
Variable tt : Z.
Variable ts : t8_eclass_scheme_c t8_element_t.
Variable k : Z.
Hypothesis laws : scheme_laws ts k.
Hypothesis keep : forall u n elems, fst (set_adapt_fn forest u tt n elems) = 0.
Variable src : list t8_element_t.

Lemma call_adapt_keep (w : world t8_element_t user_data_t) (n : Z)
  (elems : list t8_element_t) :
  exists w1, call_adapt forest w tt n elems = (0, w1).
Proof.
  unfold call_adapt. pose proof (keep (user_data w) n elems) as H.
  destruct (set_adapt_fn forest (user_data w) tt n elems) as [r u].
  simpl in H. subst r. eauto.
Qed.

(** The coarsening loop asks the predicate at most once and changes
    nothing. *)
Lemma coarsen_recursive_keep (fuel : nat) (tel : list t8_element_t)
  (el_coarsen : Z) (w : world t8_element_t user_data_t) :
  0 <= el_coarsen -> tel <> [] ->
  exists w',
    t8_forest_adapt_coarsen_recursive (S fuel) forest tt ts tel el_coarsen
      (elem_count tel) w = Done (tel, elem_count tel, w').
Proof.
  intros Hfloor Hne. pose proof (law_some_child laws) as Hk.
  unfold t8_forest_adapt_coarsen_recursive.
  destruct (@sc_array_index_in_range _ tel (elem_count tel - 1)) as [e He].
  { unfold elem_count. destruct tel; [now destruct Hne | cbn [length]; lia]. }
  rewrite He. cbn [of_option bind]. rewrite (law_num_children laws).
  cbn [coarsen_recursive_loop].
  destruct ((el_coarsen <=? elem_count tel - k)
            && (t8_element_child_id ts e =? k - 1)) eqn:G; [| eauto].
  apply andb_true_iff in G. destruct G as [G _]. apply Z.leb_le in G.
  destruct (coarsen_family_spec _ ts tel (elem_count tel - k) ltac:(lia)
              (Z.to_nat k) 0 [])
    as (b & fam & Hscan & _);
    [lia | reflexivity | reflexivity | now intros [| ?] ? | lia |].
  rewrite Hscan. cbn [bind]. destruct b; [| eauto].
  destruct (call_adapt_keep w k fam) as [w1 ->].
  destruct (Z.ltb_spec 0 0); [lia | eauto].
Qed.

(** One pass copies the element at the cursor. *)
Lemma adapt_body_keep (fuel : nat)
  (st : adapt_state t8_element_t user_data_t) :
  0 <= el_considered st < elem_count src ->
  el_inserted st = elem_count (telements st) ->
  0 <= el_coarsen st ->
  exists from0 w',
    skipn (Z.to_nat (el_considered st)) src
    = from0 :: skipn (Z.to_nat (el_considered st + 1)) src /\
    t8_forest_adapt_body (S fuel) forest tt ts src k st
    = Done {| telements := telements st ++ [from0];
              el_considered := el_considered st + 1;
              el_inserted := el_inserted st + 1;
              el_coarsen := el_coarsen st;
              st_world := w' |}.
Proof.
  intros Hc Hins Hfloor.
  destruct (adapt_window_cases _ ts k laws src (el_considered st) Hc)
    as (zz & buf & from0 & Hwin & Hrest & Hbuf0 & _).
  unfold t8_forest_adapt_body. rewrite Hwin. cbn [bind].
  destruct (call_adapt_keep (st_world st) (if zz =? k then k else 1)
              (firstn (Z.to_nat (if zz =? k then k else 1)) buf))
    as [w1 ->].
  destruct (Z.gtb_spec 0 0); [lia |]. destruct (Z.ltb_spec 0 0); [lia |].
  rewrite Hbuf0. cbn [of_option bind].
  assert (Hcount : el_inserted st + 1 = elem_count (telements st ++ [from0]))
    by (unfold elem_count in *; rewrite length_app; simpl; lia).
  destruct (set_adapt_recursive forest
            && (t8_element_child_id ts from0 =? k - 1)).
  - destruct (coarsen_recursive_keep fuel (telements st ++ [from0])
                (el_coarsen st) w1 Hfloor) as [w' Hco];
      [now destruct (telements st) |].
    rewrite Hcount, Hco. cbn [bind]. rewrite <- Hcount. eauto.
  - cbn [bind]. eauto.
Qed.

(** The loop copies the source elements from the cursor on. *)
Lemma adapt_loop_keep (fuel : nat) :
  forall st : adapt_state t8_element_t user_data_t,
    0 <= el_considered st <= elem_count src ->
    el_inserted st = elem_count (telements st) ->
    0 <= el_coarsen st ->
    elem_count src - el_considered st + 1 <= Z.of_nat fuel ->
    exists st',
      t8_forest_adapt_loop fuel forest tt ts src k st = Done st' /\
      telements st' = telements st ++ skipn (Z.to_nat (el_considered st)) src /\
      el_inserted st' = elem_count (telements st').
Proof.
  induction fuel as [| fuel IH]; intros st Hc Hins Hfloor Hfuel; [lia |].
  cbn [t8_forest_adapt_loop].
  destruct (Z.ltb_spec (el_considered st) (elem_count src)) as [Hlt | Hge].
  - destruct fuel as [| fuel]; [lia |].
    destruct (adapt_body_keep fuel st ltac:(lia) Hins Hfloor)
      as (from0 & w' & Hrest & ->).
    cbn [bind].
    destruct (IH {| telements := telements st ++ [from0];
                    el_considered := el_considered st + 1;
                    el_inserted := el_inserted st + 1;
                    el_coarsen := el_coarsen st;
                    st_world := w' |})
      as (st' & Hrun & Htel & Hins'); cbn.
    + lia.
    + unfold elem_count in *. rewrite length_app. simpl. lia.
    + assumption.
    + lia.
    + exists st'. split; [exact Hrun |]. split; [| exact Hins'].
      cbn in Htel. now rewrite Htel, Hrest, <- app_assoc.
  - exists st. split; [reflexivity |]. split; [| exact Hins].
    rewrite skipn_all2, app_nil_r; [reflexivity |].
    unfold elem_count in *. lia.
Qed.

End Identity.

Section IdentityForest.

Variable t8_element_t : Type.
Variable user_data_t : Type.
Variable forest : t8_forest t8_element_t user_data_t.
Hypothesis ready : forest_ready forest.
Hypothesis keep :
  forall u tt n elems, fst (set_adapt_fn forest u tt n elems) = 0.

Lemma adapt_tree_keep (fuel : nat) (i : nat)
  (tree tree_from : t8_tree t8_element_t) (off : Z)
  (w : world t8_element_t user_data_t) :
  nth_error (trees forest) i = Some tree ->
  nth_error (set_from forest) i = Some tree_from ->
  elem_count (elements tree_from) + 1 <= Z.of_nat fuel ->
  exists w',
    t8_forest_adapt_tree fuel forest (Z.of_nat i) tree off w
    = Done ({| eclass := eclass tree;
               elements := elements tree_from;
               elements_offset := off |},
            elem_count (elements tree_from), w').
Proof.
  intros Htree Hfrom Hfuel.
  destruct ready as [_ Hready].
  destruct (Hready i tree tree_from Htree Hfrom)
    as (Hempty & k & laws & _ & [Hsome _ _]).
  unfold t8_forest_adapt_tree. unfold tree_scheme in *.
  assert (E : sc_array_index (set_from forest) (Z.of_nat i) = Some tree_from).
  { apply sc_array_index_Some. split; [lia |]. now rewrite Nat2Z.id. }
  rewrite E. cbn [of_option bind].
  destruct (elements tree_from) as [| first rest] eqn:Esrc;
    [now destruct Hsome |].
  cbn [sc_array_index Z.ltb Z.compare Z.to_nat nth_error of_option bind].
  rewrite (law_num_children laws).
  destruct (adapt_loop_keep _ _ forest (Z.of_nat i) _ k laws
              (fun u n elems => keep u (Z.of_nat i) n elems)
              (first :: rest) fuel
              {| telements := elements tree;
                 el_considered := 0;
                 el_inserted := 0;
                 el_coarsen := 0;
                 st_world := w |})
    as (st' & Hrun & Htel & Hins);
    cbn [telements el_considered el_inserted el_coarsen] in *.
  - unfold elem_count. lia.
  - now rewrite Hempty.
  - lia.
  - lia.
  - rewrite Hrun. cbn [bind]. rewrite Hempty in Htel.
    cbn [Z.to_nat skipn app] in Htel.
    rewrite Hins, sc_array_resize_full. cbn [of_option bind].
    rewrite Htel. eauto.
Qed.

(** C2.  With a predicate that answers every call with 0, with and
    without recursion, [t8_forest_adapt] on a ready forest ends, and the
    elements of every tree of the result are the elements of the source
    tree, one for one. *)
Theorem adapt_identity :
  exists fuel forest',
    t8_forest_adapt fuel forest = Done forest' /\
    map (@elements _) (trees forest') = map (@elements _) (set_from forest).
Proof.
  set (fuel := S (Z.to_nat (count_elements (set_from forest)))).
  destruct (adapt_forest_total _ _ forest
              (fun i tree' =>
                 forall tree_from,
                   nth_error (set_from forest) (Z.to_nat i) = Some tree_from ->
                   elements tree' = elements tree_from) fuel)
    as (forest' & Hrun & Hlen & HQ).
  - intros i tree Htree off w0.
    destruct (nth_error (set_from forest) i) as [tree_from |] eqn:Efrom.
    + destruct (adapt_tree_keep fuel i tree tree_from off w0 Htree Efrom)
        as [w' Hrun].
      * pose proof (count_elements_nth _ _ _ _ Efrom). unfold fuel. lia.
      * eexists _, _, _. split; [exact Hrun |].
        intros tf Htf. rewrite Nat2Z.id, Efrom in Htf. now injection Htf as <-.
    + apply nth_error_None in Efrom. destruct ready as [Hl _].
      assert (nth_error (trees forest) i <> None) as Hn by congruence.
      apply nth_error_Some in Hn. lia.
  - exists fuel, forest'. split; [exact Hrun |].
    apply nth_error_ext. intros n. rewrite !nth_error_map.
    destruct ready as [Hl _].
    destruct (nth_error (trees forest') n) as [tree' |] eqn:E1;
      destruct (nth_error (set_from forest) n) as [tree_from |] eqn:E2;
      cbn [option_map].
    + f_equal. apply (HQ n tree' E1). now rewrite Nat2Z.id.
    + apply nth_error_None in E2.
      assert (nth_error (trees forest') n <> None) as Hn by congruence.
      apply nth_error_Some in Hn. lia.
    + apply nth_error_None in E1.
      assert (nth_error (set_from forest) n <> None) as Hn by congruence.
      apply nth_error_Some in Hn. lia.
    + reflexivity.
Qed.

End IdentityForest.

Lemma adapt_identity_witness :
  forest_ready Demo.keep_forest /\
  (forall u tt n elems,
      fst (set_adapt_fn Demo.keep_forest u tt n elems) = 0) /\
  exists fuel forest',
    t8_forest_adapt fuel Demo.keep_forest = Done forest' /\
    map (@elements _) (trees forest')
    = [Demo.source; [[false]; [true]]].
Proof.
  split; [exact DemoFacts.forest_ready_keep |].
  split; [reflexivity |].
  exact (adapt_identity _ _ Demo.keep_forest DemoFacts.forest_ready_keep
           (fun _ _ _ _ => eq_refl)).
Defined.

(** ** The calls of the predicate *)

Section Calls.

Variable t8_element_t : Type.
Variable user_data_t : Type.
Variable forest : t8_forest t8_element_t user_data_t.

Local Abbreviation calls_ok := (calls_ok forest).

Lemma calls_ok_replace (w : world t8_element_t user_data_t) (tt n_out : Z)
  (out : list t8_element_t) (n_in : Z) (inc : list t8_element_t) :
  calls_ok w -> calls_ok (call_replace forest w tt n_out out n_in inc).
Proof.
  intros HW. unfold call_replace.
  destruct (set_replace_fn forest); [| exact HW].
  intros ev Hin. cbn in Hin. apply in_app_or in Hin.
  destruct Hin as [Hin | [<- | []]]; [now apply HW | right; exact I].
Qed.

Lemma calls_ok_adapt (i : nat) (tree : t8_tree t8_element_t) (k : Z)
  (w w1 : world t8_element_t user_data_t) (n r : Z)
  (elems : list t8_element_t) :
  nth_error (trees forest) i = Some tree ->
  scheme_laws (tree_scheme forest tree) k ->
  call_adapt forest w (Z.of_nat i) n elems = (r, w1) ->
  n = 1 \/ (n = k /\ is_family (tree_scheme forest tree) k elems) ->
  calls_ok w -> calls_ok w1.
Proof.
  intros Htree laws Hcall Hn HW ev Hin.
  rewrite (call_adapt_trace _ _ _ _ _ _ _ _ _ Hcall) in Hin.
  apply in_app_or in Hin. destruct Hin as [Hin | [<- | []]]; [now apply HW |].
  right. exists tree, k. split; [| split; [exact laws |]].
  - apply sc_array_index_Some. split; [lia |]. now rewrite Nat2Z.id.
  - destruct Hn as [Hn | [Hn Hfam]]; [now left | right].
    split; [exact Hn |]. split; [exact Hfam |].
    now apply (is_family_by_ids _ _ k laws).
Qed.


End Calls.


(** ** Elements that a refinement has inserted *)

Section Fresh.

Variable t8_element_t : Type.
Variable user_data_t : Type.
Variable forest : t8_forest t8_element_t user_data_t.
Variable tt : Z.
Variable ts : t8_eclass_scheme_c t8_element_t.
Variable k : Z.
Hypothesis laws : scheme_laws ts k.
Hypothesis contract : adapt_contract forest tt ts k.

Local Abbreviation children q := (map (t8_element_child ts q) (child_ids k)).
Local Abbreviation last_id l :=
  (exists e, last_error l = Some e /\ t8_element_child_id ts e = k - 1).

(** The refinement loop appends to the array, and the last element that
    it appends carries the child id of the last candidate. *)
Lemma refine_recursive_appends fuel stack tel ins w l' tel' ins' w' :
  ins = elem_count tel ->
  last_id stack ->
  t8_forest_adapt_refine_recursive fuel forest tt ts stack tel ins w
  = Done (l', tel', ins', w') ->
  exists added, tel' = tel ++ added /\ last_id added.
Proof.
  intros Hins Hlast Hrun. pose proof (law_some_child laws) as Hk.
  apply (refine_recursive_rule _ _ forest tt ts k laws contract
           (fun stack0 tel0 _ =>
              exists added,
                tel0 = tel ++ added /\
                (last_id stack0 \/ (stack0 = [] /\ last_id added)))) in Hrun;
    [| | exact Hins | exists []; rewrite app_nil_r; split; [reflexivity | now left]].
  - destruct Hrun as (_ & (added & Htel & [(e & He & _) | [_ Hl]]) & _);
      [discriminate | now exists added].
  - clear - laws.
    intros e stack0 tel0 w0 r w1 _ (added & -> & Hcase).
    destruct Hcase as [(x & Hx & Hid) | [Hnil _]]; [| discriminate].
    split.
    + intros _. exists (added ++ [e]). rewrite app_assoc. split; [reflexivity |].
      destruct stack0 as [| y stack0].
      * right. split; [reflexivity |]. exists e.
        rewrite last_error_snoc. cbn in Hx. injection Hx as ->. now split.
      * left. exists x. split; [| exact Hid].
        now rewrite <- Hx.
    + intros _ Href. exists added. split; [reflexivity |]. left.
      destruct stack0 as [| y stack0].
      * rewrite app_nil_r. exists (t8_element_child ts e (k - 1)).
        split; [apply (children_last _ ts k laws) |].
        pose proof (law_some_child laws).
        apply (law_child_id_child laws); (assumption || lia).
      * exists x. split; [| exact Hid].
        rewrite last_error_app by discriminate. now rewrite <- Hx.
Qed.

(** Behind a prefix [X] of the array whose last element carries the child
    id [num_children - 1], the coarsening loop never reaches into [X]. *)
Lemma coarsen_recursive_prefix (X : list t8_element_t) el_coarsen (b : bool)
  fuel tel ins w tel' ins' w' :
  0 <= el_coarsen ->
  last_id X ->
  ins = elem_count tel ->
  (exists rest, rest <> [] /\ tel = X ++ rest) ->
  (if b
   then t8_forest_adapt_coarsen_recursive fuel forest tt ts tel el_coarsen
          ins w
   else Done (tel, ins, w)) = Done (tel', ins', w') ->
  exists rest, tel' = X ++ rest.
Proof.
  intros Hfloor (x & Hx & Hid) Hins Htel Hrun.
  apply (coarsen_recursive_call_rule _ _ forest tt ts k laws contract
           el_coarsen
           (fun tel0 _ => exists rest, rest <> [] /\ tel0 = X ++ rest)
           Hfloor) in Hrun; [| | exact Hins | exact Htel].
  - destruct Hrun as ((rest & _ & ->) & _). now exists rest.
  - clear - laws Hx Hid.
    intros A fam w0 r w1 Hlen Hids _ _ (rest & Hne & Heq).
    split; [intros _; now exists rest |].
    intros _ q _ _.
    assert (Hshort : (length X <= length A)%nat).
    { destruct (Nat.le_gt_cases (length X) (length A)) as [H | H];
        [exact H | exfalso].
      assert (Hlen' : length (A ++ fam) = length (X ++ rest))
        by now rewrite Heq.
      rewrite !length_app in Hlen'.
      assert (0 < length rest)%nat by (destruct rest; [easy | simpl; lia]).
      rewrite last_error_nth in Hx.
      assert (E : nth_error (A ++ fam) (length X - 1) = Some x).
      { rewrite Heq, nth_error_app1 by lia. exact Hx. }
      rewrite nth_error_app2 in E by lia.
      apply Hids in E. unfold elem_count in Hlen. lia. }
    destruct (app_prefix_short _ _ _ _ _ Heq Hshort) as [rest' ->].
    exists (rest' ++ [q]). split; [now destruct rest' |].
    now rewrite app_assoc.
Qed.

Variable src : list t8_element_t.
Hypothesis src_levels : levels_ok ts src.

(** A pass of the loop keeps such a prefix of the array. *)
Lemma adapt_body_prefix (X : list t8_element_t) (fuel : nat)
  (st st' : adapt_state t8_element_t user_data_t) :
  last_id X ->
  adapt_inv ts src st ->
  el_considered st < elem_count src ->
  (exists rest, telements st = X ++ rest) ->
  t8_forest_adapt_body fuel forest tt ts src k st = Done st' ->
  exists rest, telements st' = X ++ rest.
Proof.
  intros HX [Hc Hins Hfl _ _] Hlt (rest & Htel) Hrun.
  pose proof (law_some_child laws) as Hk.
  destruct (adapt_body_cases _ _ forest tt ts k laws contract src fuel st st'
              ltac:(lia) Hrun)
    as (from0 & n & elems & r & w1 & _ & _ & _ & _ & _ & Hbranch).
  destruct Hbranch as [(_ & Href & _ & _ & _ & l' & Hrun')
                      | [(_ & _ & _ & ->)
                      | [(_ & _ & _ & _ & q & _ & _ & Hrun')
                      | (_ & _ & _ & Hrun')]]].
  - apply refine_recursive_appends in Hrun'; [| exact Hins |].
    + destruct Hrun' as (added & -> & _). exists (rest ++ added).
      now rewrite Htel, app_assoc.
    + exists (t8_element_child ts from0 (k - 1)).
      split; [apply (children_last _ ts k laws) |].
      apply (law_child_id_child laws); (assumption || lia).
  - cbn. exists (rest ++ children from0). now rewrite Htel, app_assoc.
  - apply (coarsen_recursive_prefix X) in Hrun'; try assumption.
    + unfold elem_count in *. rewrite length_app. simpl. lia.
    + exists (rest ++ [q]). split; [now destruct rest |].
      now rewrite Htel, app_assoc.
  - apply (coarsen_recursive_prefix X) in Hrun'; try assumption.
    + unfold elem_count in *. rewrite length_app. simpl. lia.
    + exists (rest ++ [from0]). split; [now destruct rest |].
      now rewrite Htel, app_assoc.
Qed.

Lemma adapt_loop_prefix (X : list t8_element_t) (fuel : nat) :
  last_id X ->
  forall st st' : adapt_state t8_element_t user_data_t,
    adapt_inv ts src st ->
    (exists rest, telements st = X ++ rest) ->
    t8_forest_adapt_loop fuel forest tt ts src k st = Done st' ->
    exists rest, telements st' = X ++ rest.
Proof.
  intros HX. induction fuel as [| fuel IH]; intros st st' Hinv Htel Hrun;
    cbn [t8_forest_adapt_loop] in Hrun;
    destruct (Z.ltb_spec (el_considered st) (elem_count src)) as [Hlt | Hge];
    try discriminate; try (now injection Hrun as <-).
  apply bind_Done in Hrun. destruct Hrun as (st1 & Hbody & Hloop).
  apply (IH st1 st'); [| | exact Hloop].
  - now apply (adapt_body_inv _ _ forest tt ts k laws contract src src_levels
                 (fun _ => True) (fun _ _ _ _ _ _ _ _ => I)
                 (fun _ _ _ _ _ _ => I) fuel st st1 Hinv I Hlt Hbody).
  - now apply (adapt_body_prefix X fuel st).
Qed.


End Fresh.


(** In this run the array is [[FF; FT]] after the first pass and
    [[FF; FT; TF; TT]] at the end. *)
Example refined4_final4 :
  telements Demo.refined4 = [[false; false]; [false; true]] /\
  telements Demo.final4
  = [[false; false]; [false; true]; [true; false]; [true; true]].
Proof. split; reflexivity. Qed.

Lemma refine_recursive_terminates_witness :
  stops_at_maxlevel Demo.root_forest 0 (Line.scheme Demo.maxlevel) /\
  levels_ok (Line.scheme Demo.maxlevel) [[false]; [true]] /\
  contiguous (Line.scheme Demo.maxlevel) ([] ++ [[false]; [true]]) /\
  exists fuel tel' ins' w' added,
    t8_forest_adapt_refine_recursive fuel Demo.root_forest 0
      (Line.scheme Demo.maxlevel) [[false]; [true]] []
      (elem_count (@nil Line.element))
      (forest_world Demo.root_forest) = Done ([], tel', ins', w') /\
    tel' = [] ++ added /\ NoDup added /\ NoDup tel'.
Proof.
  pose proof DemoFacts.halves_committed as [_ Hc Hl].
  split; [apply DemoFacts.adapt_fn_stops |].
  split; [exact Hl |]. split; [exact Hc |].
  exact (refine_recursive_terminates _ _ Demo.root_forest 0
           (Line.scheme Demo.maxlevel) 2 (LineFacts.laws Demo.maxlevel)
           (DemoFacts.adapt_fn_stops true [[[]]] 0)
           [[false]; [true]] [] (forest_world Demo.root_forest) Hl Hc).
Defined.

(** The run of the example: six passes, four elements. *)
Example refine_root_children :
  t8_forest_adapt_refine_recursive 6 Demo.root_forest 0
    (Line.scheme Demo.maxlevel) [[false]; [true]] [] 0
    (forest_world Demo.root_forest)
  = Done ([], [[false; false]; [false; true]; [true; false]; [true; true]], 4,
          {| user_data := 206%nat;
             trace :=
               [Ev_adapt 0 1 [[false]] 1;
                Ev_replace 0 1 [[false]] 2 [[false; false]; [false; true]];
                Ev_adapt 0 1 [[false; false]] 0;
                Ev_adapt 0 1 [[false; true]] 0;
                Ev_adapt 0 1 [[true]] 1;
                Ev_replace 0 1 [[true]] 2 [[true; false]; [true; true]];
                Ev_adapt 0 1 [[true; false]] 0;
                Ev_adapt 0 1 [[true; true]] 0] |}).
Proof. reflexivity. Qed.

(** ** Refining every element, coarsening every family *)

Section RefineAll.

Variable t8_element_t : Type.
Variable user_data_t : Type.
Variable forest : t8_forest t8_element_t user_data_t.
Variable tt : Z.
Variable ts : t8_eclass_scheme_c t8_element_t.
Variable k : Z.
Hypothesis laws : scheme_laws ts k.
Hypothesis no_recursion : set_adapt_recursive forest = false.
Hypothesis refine_all :
  forall u n elems, 0 < fst (set_adapt_fn forest u tt n elems).
Variable src : list t8_element_t.
Hypothesis src_refinable : Forall (refinable ts) src.

Local Abbreviation children q := (map (t8_element_child ts q) (child_ids k)).

(** One pass appends the children of the element at the cursor. *)
Lemma adapt_body_refine_all (fuel : nat)
  (st : adapt_state t8_element_t user_data_t) :
  0 <= el_considered st < elem_count src ->
  exists from0 w',
    skipn (Z.to_nat (el_considered st)) src
    = from0 :: skipn (Z.to_nat (el_considered st + 1)) src /\
    t8_forest_adapt_body fuel forest tt ts src k st
    = Done {| telements := telements st ++ children from0;
              el_considered := el_considered st + 1;
              el_inserted := el_inserted st + k;
              el_coarsen := el_coarsen st;
              st_world := w' |}.
Proof.
  intros Hc.
  destruct (adapt_window_cases _ ts k laws src (el_considered st) Hc)
    as (zz & buf & from0 & Hwin & Hrest & Hbuf0 & _).
  assert (Hfrom : refinable ts from0).
  { rewrite <- (firstn_skipn (Z.to_nat (el_considered st)) src), Hrest
      in src_refinable.
    apply Forall_app in src_refinable. destruct src_refinable as [_ H].
    now inversion H. }
  exists from0. unfold t8_forest_adapt_body. rewrite Hwin. cbn [bind].
  pose proof (refine_all (user_data (st_world st))
                (if zz =? k then k else 1)
                (firstn (Z.to_nat (if zz =? k then k else 1)) buf)) as Hr.
  unfold call_adapt.
  destruct (set_adapt_fn forest (user_data (st_world st)) tt
              (if zz =? k then k else 1)
              (firstn (Z.to_nat (if zz =? k then k else 1)) buf)) as [r u].
  cbn [fst] in Hr. destruct (Z.gtb_spec r 0); [| lia].
  rewrite Hbuf0, no_recursion. cbn [of_option bind].
  rewrite (law_children laws) by assumption. eauto.
Qed.

(** The loop appends the children of the source elements from the cursor
    on. *)
Lemma adapt_loop_refine_all (fuel : nat) :
  forall st : adapt_state t8_element_t user_data_t,
    0 <= el_considered st <= elem_count src ->
    el_inserted st = elem_count (telements st) ->
    elem_count src - el_considered st <= Z.of_nat fuel ->
    exists st',
      t8_forest_adapt_loop fuel forest tt ts src k st = Done st' /\
      telements st'
      = telements st
        ++ flat_map (fun e => children e)
             (skipn (Z.to_nat (el_considered st)) src) /\
      el_inserted st' = elem_count (telements st').
Proof.
  induction fuel as [| fuel IH]; intros st Hc Hins Hfuel;
    cbn [t8_forest_adapt_loop];
    destruct (Z.ltb_spec (el_considered st) (elem_count src)) as [Hlt | Hge];
    try lia.
  - exists st. split; [reflexivity |]. split; [| exact Hins].
    rewrite skipn_all2, app_nil_r; [reflexivity |]. unfold elem_count in *. lia.
  - destruct (adapt_body_refine_all fuel st ltac:(lia))
      as (from0 & w' & Hrest & ->).
    cbn [bind].
    destruct (IH {| telements := telements st ++ children from0;
                    el_considered := el_considered st + 1;
                    el_inserted := el_inserted st + k;
                    el_coarsen := el_coarsen st;
                    st_world := w' |})
      as (st' & Hrun & Htel & Hins');
      cbn [telements el_considered el_inserted].
    + lia.
    + pose proof (children_length _ ts k laws from0) as Hlen.
      unfold elem_count in *. rewrite length_app. lia.
    + lia.
    + exists st'. split; [exact Hrun |]. split; [| exact Hins'].
      cbn [telements el_considered] in Htel.
      rewrite Htel, Hrest. cbn [flat_map]. now rewrite <- app_assoc.
  - exists st. split; [reflexivity |]. split; [| exact Hins].
    rewrite skipn_all2, app_nil_r; [reflexivity |]. unfold elem_count in *. lia.
Qed.

End RefineAll.

Section CoarsenAll.

Variable t8_element_t : Type.
Variable user_data_t : Type.
Variable forest : t8_forest t8_element_t user_data_t.
Variable tt : Z.
Variable ts : t8_eclass_scheme_c t8_element_t.
Variable k : Z.
Hypothesis laws : scheme_laws ts k.
Hypothesis no_recursion : set_adapt_recursive forest = false.

Local Abbreviation children q := (map (t8_element_child ts q) (child_ids k)).

Hypothesis coarsen_all :
  forall u q, refinable ts q ->
              fst (set_adapt_fn forest u tt k (children q)) < 0.
Variable src : list t8_element_t.

Lemma skipn_app_length (c : Z) (l rest : list t8_element_t) :
  0 <= c -> l <> [] ->
  skipn (Z.to_nat c) src = l ++ rest ->
  c + elem_count l <= elem_count src /\
  skipn (Z.to_nat (c + elem_count l)) src = rest.
Proof.
  intros Hc Hne H. unfold elem_count. split.
  - apply (f_equal (@length _)) in H.
    rewrite length_skipn, length_app in H.
    destruct l as [| x l]; [now destruct Hne | cbn [length] in *; lia].
  - replace (Z.to_nat (c + Z.of_nat (length l)))
      with (length l + Z.to_nat c)%nat by lia.
    rewrite <- skipn_skipn, H, skipn_app, Nat.sub_diag, skipn_all.
    reflexivity.
Qed.

(** At the first element of a family the scan finds the whole family. *)
Lemma adapt_window_family (c : Z) (q : t8_element_t)
  (rest : list t8_element_t) :
  0 <= c -> refinable ts q ->
  skipn (Z.to_nat c) src = children q ++ rest ->
  adapt_window ts src c (Z.to_nat k) 0 [] = Done (k, children q).
Proof.
  intros Hc Hq Hsrc. pose proof (law_some_child laws) as Hk.
  pose proof (children_length _ ts k laws q) as Hlen.
  destruct (skipn_app_length c _ _ Hc (children_not_nil _ ts k laws q) Hsrc)
    as [Hle _].
  rewrite Hlen in Hle.
  destruct (adapt_window_spec _ ts src c Hc (Z.to_nat k) 0 [])
    as (zz & buf & Hrun & Hzz & Hbuf & Hfull & Hpart);
    [lia | reflexivity | reflexivity | now intros [| ?] ? |].
  assert (Ezz : zz = k).
  { destruct (Z.eq_dec zz k) as [E | E]; [exact E | exfalso].
    specialize (Hpart ltac:(lia)).
    destruct (Z.ltb_spec (c + zz) (elem_count src)); [| lia].
    destruct Hpart as (e & He & Hl & Hid). apply Hid.
    rewrite Hbuf, Hl, Hsrc in He.
    rewrite nth_error_firstn in He.
    destruct (Nat.ltb_spec (Z.to_nat zz) (S (Z.to_nat zz))); [| lia].
    rewrite nth_error_app1 in He
      by (rewrite length_map, child_ids_length; lia).
    rewrite nth_error_map, child_ids_nth in He by lia.
    injection He as <-. rewrite (law_child_id_child laws) by (assumption || lia).
    lia. }
  rewrite Hrun. do 2 f_equal; [exact Ezz |].
  destruct Hfull as [Hl _]; [lia |].
  rewrite Hbuf, Hl, Ezz, Hsrc, firstn_app.
  unfold elem_count in Hlen.
  replace (Z.to_nat k - length (children q))%nat with 0%nat by lia.
  rewrite firstn_O, app_nil_r. apply firstn_all2. lia.
Qed.

(** One pass puts the parent in the place of the family at the cursor. *)
Lemma adapt_body_coarsen_all (fuel : nat)
  (st : adapt_state t8_element_t user_data_t) (q : t8_element_t)
  (rest : list t8_element_t) :
  0 <= el_considered st -> refinable ts q ->
  skipn (Z.to_nat (el_considered st)) src = children q ++ rest ->
  exists w',
    t8_forest_adapt_body fuel forest tt ts src k st
    = Done {| telements := telements st ++ [q];
              el_considered := el_considered st + k;
              el_inserted := el_inserted st + 1;
              el_coarsen := el_coarsen st;
              st_world := w' |}.
Proof.
  intros Hc Hq Hsrc. pose proof (law_some_child laws) as Hk.
  unfold t8_forest_adapt_body.
  rewrite (adapt_window_family _ q rest Hc Hq Hsrc). cbn [bind].
  rewrite Z.eqb_refl.
  assert (Hfirst : firstn (Z.to_nat k) (children q) = children q).
  { apply firstn_all2. rewrite length_map, child_ids_length. lia. }
  rewrite Hfirst.
  pose proof (coarsen_all (user_data (st_world st)) q Hq) as Hr.
  unfold call_adapt.
  destruct (set_adapt_fn forest (user_data (st_world st)) tt k (children q))
    as [r u].
  cbn [fst] in Hr. destruct (Z.gtb_spec r 0); [lia |].
  destruct (Z.ltb_spec r 0); [| lia].
  destruct (child_ids_first _ ts k laws) as [l El].
  rewrite El. cbn [map nth_error of_option bind].
  rewrite (law_parent_child laws) by (assumption || lia).
  rewrite no_recursion. cbn [andb bind]. eauto.
Qed.

(** The loop puts the parents [l] in the place of their families. *)
Lemma adapt_loop_coarsen_all (l : list t8_element_t) :
  Forall (refinable ts) l ->
  forall fuel (st : adapt_state t8_element_t user_data_t),
    0 <= el_considered st ->
    el_inserted st = elem_count (telements st) ->
    skipn (Z.to_nat (el_considered st)) src
    = flat_map (fun e => children e) l ->
    (length l <= fuel)%nat ->
    exists st',
      t8_forest_adapt_loop fuel forest tt ts src k st = Done st' /\
      telements st' = telements st ++ l /\
      el_inserted st' = elem_count (telements st').
Proof.
  pose proof (law_some_child laws) as Hk.
  induction 1 as [| q l Hq Hl IH]; intros fuel st Hc Hins Hsrc Hfuel.
  - exists st. rewrite app_nil_r. split; [| now split].
    cbn [flat_map] in Hsrc. apply (f_equal (@length _)) in Hsrc.
    rewrite length_skipn in Hsrc. cbn [length] in Hsrc.
    destruct fuel; cbn [t8_forest_adapt_loop];
      destruct (Z.ltb_spec (el_considered st) (elem_count src));
      try reflexivity; unfold elem_count in *; lia.
  - cbn [flat_map] in Hsrc.
    destruct (skipn_app_length _ _ _ Hc (children_not_nil _ ts k laws q) Hsrc)
      as [Hle Hrest].
    rewrite (children_length _ ts k laws q) in Hle, Hrest.
    destruct fuel as [| fuel]; [cbn [length] in Hfuel; lia |].
    cbn [t8_forest_adapt_loop].
    destruct (Z.ltb_spec (el_considered st) (elem_count src)); [| lia].
    destruct (adapt_body_coarsen_all fuel st q _ Hc Hq Hsrc) as [w' ->].
    cbn [bind].
    destruct (IH fuel {| telements := telements st ++ [q];
                         el_considered := el_considered st + k;
                         el_inserted := el_inserted st + 1;
                         el_coarsen := el_coarsen st;
                         st_world := w' |})
      as (st' & Hrun & Htel & Hins');
      cbn [telements el_considered el_inserted].
    + lia.
    + unfold elem_count in *. rewrite length_app. cbn [length]. lia.
    + exact Hrest.
    + cbn [length] in Hfuel. lia.
    + exists st'. split; [exact Hrun |]. split; [| exact Hins'].
      cbn [telements] in Htel. now rewrite Htel, <- app_assoc.
Qed.

End CoarsenAll.

Section CoarsenAllTree.

Variable t8_element_t : Type.
Variable user_data_t : Type.
Variable forest : t8_forest t8_element_t user_data_t.
Hypothesis no_recursion : set_adapt_recursive forest = false.

(** The second run, on one tree whose source elements are the children of
    the elements [l]. *)
Lemma adapt_tree_coarsen_all (fuel i : nat)
  (tree tree_from : t8_tree t8_element_t) (off : Z)
  (w : world t8_element_t user_data_t) (k : Z) (l : list t8_element_t) :
  nth_error (set_from forest) i = Some tree_from ->
  elements tree = [] ->
  scheme_laws (tree_scheme forest tree) k ->
  l <> [] ->
  Forall (refinable (tree_scheme forest tree)) l ->
  elements tree_from
  = flat_map (fun e => map (t8_element_child (tree_scheme forest tree) e)
                         (child_ids k)) l ->
  (forall u q,
      refinable (tree_scheme forest tree) q ->
      fst (set_adapt_fn forest u (Z.of_nat i) k
             (map (t8_element_child (tree_scheme forest tree) q)
                (child_ids k))) < 0) ->
  (length l <= fuel)%nat ->
  exists w',
    t8_forest_adapt_tree fuel forest (Z.of_nat i) tree off w
    = Done ({| eclass := eclass tree;
               elements := l;
               elements_offset := off |},
            elem_count l, w').
Proof.
  intros Hfrom Hempty laws Hne Href Hsrc Hfn Hfuel.
  destruct (adapt_loop_coarsen_all _ _ forest (Z.of_nat i) _ k laws
              no_recursion Hfn (elements tree_from) l Href fuel
              {| telements := elements tree;
                 el_considered := 0;
                 el_inserted := 0;
                 el_coarsen := 0;
                 st_world := w |})
    as (st' & Hloop & Htel & Hins);
    cbn [telements el_considered el_inserted] in *.
  - lia.
  - now rewrite Hempty.
  - exact Hsrc.
  - exact Hfuel.
  - rewrite Hempty in Htel. cbn [app] in Htel.
    exists (st_world st'). rewrite <- Htel.
    apply (adapt_tree_from_loop _ _ forest fuel i tree tree_from off w k);
      try assumption.
    rewrite Hsrc. destruct l as [| e l']; [now destruct Hne |].
    cbn [flat_map]. intros H. apply app_eq_nil in H. destruct H as [H _].
    now apply (children_not_nil _ _ k laws) in H.
Qed.

End CoarsenAllTree.

Section RefineCoarsen.

Variable t8_element_t : Type.
Variable user_data_t : Type.
Variable forest : t8_forest t8_element_t user_data_t.
Variable fn2 : t8_forest_adapt_t t8_element_t user_data_t.
Hypothesis no_recursion : set_adapt_recursive forest = false.
Hypothesis ready : refine_coarsen_ready forest fn2.
Hypothesis refine_all :
  forall u tt n elems, 0 < fst (set_adapt_fn forest u tt n elems).

Local Abbreviation refined tree k l :=
  (flat_map (fun e => map (t8_element_child (tree_scheme forest tree) e)
                        (child_ids k)) l).

(** The first run, on one tree. *)
Lemma adapt_tree_refine_all (fuel i : nat)
  (tree tree_from : t8_tree t8_element_t) (off : Z)
  (w : world t8_element_t user_data_t) :
  nth_error (trees forest) i = Some tree ->
  nth_error (set_from forest) i = Some tree_from ->
  elem_count (elements tree_from) <= Z.of_nat fuel ->
  exists k w',
    scheme_laws (tree_scheme forest tree) k /\
    t8_forest_adapt_tree fuel forest (Z.of_nat i) tree off w
    = Done ({| eclass := eclass tree;
               elements := refined tree k (elements tree_from);
               elements_offset := off |},
            elem_count (refined tree k (elements tree_from)), w').
Proof.
  intros Htree Hfrom Hfuel. destruct ready as [_ Hready].
  destruct (Hready i tree tree_from Htree Hfrom)
    as (Hempty & Hne & k & laws & Href & _).
  destruct (adapt_loop_refine_all _ _ forest (Z.of_nat i) _ k laws
              no_recursion (fun u n elems => refine_all u (Z.of_nat i) n elems)
              (elements tree_from) Href fuel
              {| telements := elements tree;
                 el_considered := 0;
                 el_inserted := 0;
                 el_coarsen := 0;
                 st_world := w |})
    as (st' & Hloop & Htel & Hins);
    cbn [telements el_considered el_inserted] in *.
  - unfold elem_count. lia.
  - now rewrite Hempty.
  - lia.
  - rewrite Hempty in Htel. cbn [Z.to_nat skipn app] in Htel.
    exists k, (st_world st'). split; [exact laws |].
    rewrite <- Htel.
    now apply (adapt_tree_from_loop _ _ forest fuel i tree tree_from off w k).
Qed.

(** C8, as the code has it.  A run without recursion whose predicate
    answers every call with a positive number, followed by a run without
    recursion on its result whose predicate answers every family with a
    negative number: both runs end, and the elements of every tree are
    again those of the source tree of the first run.  The source elements
    lie below the maximum level. *)
Theorem refine_then_coarsen_is_identity :
  exists fuel1 forest1 fuel2 forest2,
    t8_forest_adapt fuel1 forest = Done forest1 /\
    t8_forest_adapt fuel2 (t8_forest_set_adapt forest1 fn2 false)
    = Done forest2 /\
    map (@elements _) (trees forest2) = map (@elements _) (set_from forest).
Proof.
  pose proof ready as [Hlen Hready].
  set (fuel := S (Z.to_nat (count_elements (set_from forest)))).
  destruct (adapt_forest_total _ _ forest
              (fun i tree' =>
                 exists tree tree_from k,
                   nth_error (trees forest) (Z.to_nat i) = Some tree /\
                   nth_error (set_from forest) (Z.to_nat i) = Some tree_from /\
                   scheme_laws (tree_scheme forest tree) k /\
                   eclass tree' = eclass tree /\
                   elements tree' = refined tree k (elements tree_from)) fuel)
    as (forest1 & Hrun1 & Hlen1 & HQ1).
  { intros i tree Htree off w0.
    destruct (nth_error_same_length _ (set_from forest) i tree Hlen Htree)
      as [tree_from Hfrom].
    destruct (adapt_tree_refine_all fuel i tree tree_from off w0 Htree Hfrom)
      as (k & w' & laws & Hrun).
    - pose proof (count_elements_nth _ _ _ _ Hfrom). unfold fuel. lia.
    - eexists _, _, _. split; [exact Hrun |].
      exists tree, tree_from, k. rewrite Nat2Z.id.
      split; [exact Htree |]. split; [exact Hfrom |]. split; [exact laws |].
      split; reflexivity. }
  destruct (adapt_forest_fields _ _ forest fuel forest1 Hrun1)
    as (Hschemes & _ & _).
  destruct (adapt_forest_total _ _ (t8_forest_set_adapt forest1 fn2 false)
              (fun i tree' =>
                 forall tree_from,
                   nth_error (set_from forest) (Z.to_nat i) = Some tree_from ->
                   elements tree' = elements tree_from) fuel)
    as (forest2 & Hrun2 & Hlen2 & HQ2).
  { intros i tree2 Htree2 off w0. cbn [t8_forest_set_adapt trees] in Htree2.
    rewrite nth_error_map in Htree2.
    destruct (nth_error (trees forest1) i) as [tree1 |] eqn:Etree1;
      [| discriminate].
    injection Htree2 as <-.
    destruct (HQ1 i tree1 Etree1)
      as (tree & tree_from & k & Htree & Hfrom & laws & Hec & Hel).
    rewrite Nat2Z.id in Htree, Hfrom.
    destruct (Hready i tree tree_from Htree Hfrom)
      as (_ & Hne & k' & laws' & Href & Hfn).
    assert (k' = k) as ->.
    { destruct (elements tree_from) as [| e ?]; [now destruct Hne |].
      now rewrite <- (law_num_children laws e), <- (law_num_children laws' e). }
    destruct (adapt_tree_coarsen_all _ _
                (t8_forest_set_adapt forest1 fn2 false) eq_refl fuel i
                {| eclass := eclass tree1;
                   elements := [];
                   elements_offset := 0 |}
                tree1 off w0 k (elements tree_from))
      as [w' Hrun]; unfold tree_scheme in *;
      cbn [t8_forest_set_adapt set_from eclass elements eclass_schemes
             set_adapt_fn];
      rewrite ?Hschemes, ?Hec; try assumption; try reflexivity.
    - pose proof (count_elements_nth _ _ _ _ Hfrom).
      unfold fuel, elem_count in *. lia.
    - cbn [eclass] in Hrun. rewrite ?Hschemes, ?Hec in Hrun.
      eexists _, _, _. split; [exact Hrun |].
      intros tf Htf. rewrite Nat2Z.id, Hfrom in Htf. now injection Htf as <-. }
  exists fuel, forest1, fuel, forest2.
  split; [exact Hrun1 |]. split; [exact Hrun2 |].
  cbn [t8_forest_set_adapt trees] in Hlen2. rewrite length_map in Hlen2.
  apply nth_error_ext. intros n. rewrite !nth_error_map.
  destruct (nth_error (trees forest2) n) as [tree' |] eqn:E1;
    destruct (nth_error (set_from forest) n) as [tree_from |] eqn:E2;
    cbn [option_map].
  - f_equal. apply (HQ2 n tree' E1). now rewrite Nat2Z.id.
  - apply nth_error_None in E2.
    assert (nth_error (trees forest2) n <> None) as Hn by congruence.
    apply nth_error_Some in Hn. lia.
  - apply nth_error_None in E1.
    assert (nth_error (set_from forest) n <> None) as Hn by congruence.
    apply nth_error_Some in Hn. lia.
  - reflexivity.
Qed.

End RefineCoarsen.

Lemma refine_then_coarsen_is_identity_witness :
  set_adapt_recursive Demo.refine_all_forest = false /\
  refine_coarsen_ready Demo.refine_all_forest Demo.coarsen_families_fn /\
  (forall u tt n elems,
      0 < fst (set_adapt_fn Demo.refine_all_forest u tt n elems)) /\
  exists fuel1 forest1 fuel2 forest2,
    t8_forest_adapt fuel1 Demo.refine_all_forest = Done forest1 /\
    t8_forest_adapt fuel2
      (t8_forest_set_adapt forest1 Demo.coarsen_families_fn false)
    = Done forest2 /\
    map (@elements _) (trees forest2) = [Demo.halves; [[]]].
Proof.
  split; [reflexivity |].
  split; [exact DemoFacts.refine_all_forest_ready |].
  split; [intros; cbn; lia |].
  exact (refine_then_coarsen_is_identity _ _ Demo.refine_all_forest
           Demo.coarsen_families_fn eq_refl
           DemoFacts.refine_all_forest_ready
           (fun _ _ _ _ => eq_refl)).
Defined.

(** C8, as it is stated, fails in two ways.  A predicate that answers
    every single element with +1 may answer a family with -1: the first
    run then coarsens the two children of the root, and the second run
    keeps the root.  And when the second run is recursive, its coarsening
    loop goes on to coarsen the restored elements, again down to the
    root. *)
Lemma refine_then_coarsen_differs :
  (forall u tt elems, fst (Demo.refine_singletons_fn u tt 1 elems) = 1) /\
  (forall u tt n elems, fst (Demo.refine_all_fn u tt n elems) = 1) /\
  (forall u tt elems, fst (Demo.coarsen_families_fn u tt 2 elems) = -1) /\
  (exists forest1 forest2,
      t8_forest_adapt 10
        (Demo.forest_of Demo.refine_singletons_fn false [Demo.halves])
      = Done forest1 /\
      t8_forest_adapt 10
        (t8_forest_set_adapt forest1 Demo.coarsen_families_fn false)
      = Done forest2 /\
      map (@elements _) (trees forest1) = [[[]]] /\
      map (@elements _) (trees forest2) = [[[]]] /\
      map (@elements _) (trees forest2) <> [Demo.halves]) /\
  (exists forest1 forest2,
      t8_forest_adapt 10
        (Demo.forest_of Demo.refine_all_fn false [Demo.halves])
      = Done forest1 /\
      t8_forest_adapt 10
        (t8_forest_set_adapt forest1 Demo.coarsen_families_fn true)
      = Done forest2 /\
      map (@elements _) (trees forest1)
      = [[[false; false]; [false; true]; [true; false]; [true; true]]] /\
      map (@elements _) (trees forest2) = [[[]]] /\
      map (@elements _) (trees forest2) <> [Demo.halves]).
Proof.
  split; [reflexivity |]. split; [reflexivity |]. split; [reflexivity |].
  split.
  - eexists _, _. split; [vm_compute; reflexivity |].
    split; [vm_compute; reflexivity |].
    split; [reflexivity |]. split; [reflexivity | discriminate].
  - eexists _, _. split; [vm_compute; reflexivity |].
    split; [vm_compute; reflexivity |].
    split; [reflexivity |]. split; [reflexivity | discriminate].
Qed.
(** ** Properties of the elements that the engine keeps *)

Section ElementInvariant.

Variable t8_element_t : Type.
Variable user_data_t : Type.
Variable forest : t8_forest t8_element_t user_data_t.
Variable tt : Z.
Variable ts : t8_eclass_scheme_c t8_element_t.
Variable k : Z.
Hypothesis laws : scheme_laws ts k.
Hypothesis contract : adapt_contract forest tt ts k.

Local Abbreviation children q := (map (t8_element_child ts q) (child_ids k)).

(** [Q] holds of the children of an element with [Q] that the predicate
    wants refined, and of the parent of a family with [Q] that the
    predicate wants coarsened. *)
Variable Q : t8_element_t -> Prop.
Hypothesis Q_refine :
  forall w n elems r w1 e,
    call_adapt forest w tt n elems = (r, w1) ->
    0 < r -> hd_error elems = Some e -> refinable ts e -> Q e ->
    Forall Q (children e).
Hypothesis Q_coarsen :
  forall w r w1 q,
    call_adapt forest w tt k (children q) = (r, w1) ->
    r < 0 -> refinable ts q -> Forall Q (children q) -> Q q.

Lemma refine_recursive_forall fuel stack tel ins w l' tel' ins' w' :
  ins = elem_count tel ->
  Forall Q tel -> Forall Q stack ->
  t8_forest_adapt_refine_recursive fuel forest tt ts stack tel ins w
  = Done (l', tel', ins', w') ->
  Forall Q tel'.
Proof.
  intros Hins Htel Hstack Hrun.
  apply (refine_recursive_rule _ _ forest tt ts k laws contract
           (fun stack0 tel0 _ => Forall Q tel0 /\ Forall Q stack0)) in Hrun;
    [| | exact Hins | now split].
  - now destruct Hrun as (_ & (H & _) & _).
  - intros e stack0 tel0 w0 r w1 Hcall (H1 & H2).
    inversion H2 as [| ? ? He Hrest]; subst. split.
    + intros _. split; [| exact Hrest].
      apply Forall_app. split; [exact H1 | now constructor].
    + intros Hr Href. split; [exact H1 |].
      apply Forall_app. split; [| exact Hrest].
      now apply (Q_refine w0 1 [e] r w1 e).
Qed.

Lemma coarsen_recursive_forall floor (b : bool) fuel tel ins w tel' ins' w' :
  0 <= floor ->
  ins = elem_count tel ->
  Forall Q tel ->
  (if b
   then t8_forest_adapt_coarsen_recursive fuel forest tt ts tel floor ins w
   else Done (tel, ins, w)) = Done (tel', ins', w') ->
  Forall Q tel'.
Proof.
  intros Hfloor Hins Htel Hrun.
  apply (coarsen_recursive_call_rule _ _ forest tt ts k laws contract
           floor (fun tel0 _ => Forall Q tel0) Hfloor) in Hrun;
    [| | exact Hins | exact Htel].
  - now destruct Hrun.
  - intros A fam w0 r w1 _ _ _ Hcall HP. split; [intros _; exact HP |].
    intros Hr q Hq Eq. apply Forall_app in HP. destruct HP as [HA Hfam].
    apply Forall_app. split; [exact HA |]. constructor; [| constructor].
    rewrite Eq in Hcall, Hfam. now apply (Q_coarsen w0 r w1 q).
Qed.

Variable src : list t8_element_t.
Hypothesis src_levels : levels_ok ts src.
Hypothesis Q_src : Forall Q src.

Lemma adapt_body_forall (fuel : nat)
  (st st' : adapt_state t8_element_t user_data_t) :
  adapt_inv ts src st ->
  el_considered st < elem_count src ->
  Forall Q (telements st) ->
  t8_forest_adapt_body fuel forest tt ts src k st = Done st' ->
  Forall Q (telements st').
Proof.
  intros [Hc Hins Hfl _ _] Hlt Htel Hrun.
  pose proof (law_some_child laws) as Hk.
  destruct (adapt_body_cases _ _ forest tt ts k laws contract src fuel st st'
              ltac:(lia) Hrun)
    as (from0 & n & elems & r & w1 & Hrest & Hhd & Ecall & _ & Hwin & Hbranch).
  assert (Hskip : Forall Q (skipn (Z.to_nat (el_considered st)) src)).
  { rewrite <- (firstn_skipn (Z.to_nat (el_considered st)) src) in Q_src.
    now apply Forall_app in Q_src. }
  assert (Hfrom : Q from0) by (rewrite Hrest in Hskip; now inversion Hskip).
  assert (Helems : Forall Q elems).
  { destruct Hwin as [(_ & -> & _) | (_ & ->)]; [| now constructor].
    rewrite <- (firstn_skipn (Z.to_nat k)
                  (skipn (Z.to_nat (el_considered st)) src)) in Hskip.
    now apply Forall_app in Hskip. }
  destruct Hbranch as [(Hr & Href & _ & _ & _ & l' & Hrun')
                      | [(Hr & Href & _ & ->)
                      | [(Hr & En & _ & _ & q & Hq & Eq & Hrun')
                      | (_ & _ & _ & Hrun')]]].
  - apply refine_recursive_forall in Hrun'; try assumption.
    now apply (Q_refine _ _ _ _ _ _ Ecall).
  - cbn. apply Forall_app. split; [exact Htel |].
    now apply (Q_refine _ _ _ _ _ _ Ecall).
  - apply (coarsen_recursive_forall (el_coarsen st)) in Hrun';
      try assumption.
    + unfold elem_count in *. rewrite length_app. simpl. lia.
    + apply Forall_app. split; [exact Htel |]. constructor; [| constructor].
      rewrite En, Eq in Ecall. rewrite Eq in Helems.
      now apply (Q_coarsen _ _ _ _ Ecall).
  - apply (coarsen_recursive_forall (el_coarsen st)) in Hrun';
      try assumption.
    + unfold elem_count in *. rewrite length_app. simpl. lia.
    + apply Forall_app. split; [exact Htel |]. now constructor.
Qed.

Lemma adapt_loop_forall (fuel : nat) :
  forall st st' : adapt_state t8_element_t user_data_t,
    adapt_inv ts src st ->
    Forall Q (telements st) ->
    t8_forest_adapt_loop fuel forest tt ts src k st = Done st' ->
    Forall Q (telements st').
Proof.
  induction fuel as [| fuel IH]; intros st st' Hinv Htel Hrun;
    cbn [t8_forest_adapt_loop] in Hrun;
    destruct (Z.ltb_spec (el_considered st) (elem_count src)) as [Hlt | Hge];
    try discriminate; try (now injection Hrun as <-).
  apply bind_Done in Hrun. destruct Hrun as (st1 & Hbody & Hloop).
  apply (IH st1 st'); [| | exact Hloop].
  - now apply (adapt_body_inv _ _ forest tt ts k laws contract src src_levels
                 (fun _ => True) (fun _ _ _ _ _ _ _ _ => I)
                 (fun _ _ _ _ _ _ => I) fuel st st1 Hinv I Hlt Hbody).
  - now apply (adapt_body_forall fuel st).
Qed.

End ElementInvariant.

Section ElementInvariantTree.

Variable t8_element_t : Type.
Variable user_data_t : Type.
Variable forest : t8_forest t8_element_t user_data_t.

(** The same for the body of the loop over the trees. *)
Lemma adapt_tree_forall (Q : t8_element_t -> Prop) (fuel : nat) (tt : Z)
  (tree tree' tree_from : t8_tree t8_element_t) (off ins : Z)
  (w w' : world t8_element_t user_data_t) :
  sc_array_index (set_from forest) tt = Some tree_from ->
  tree_ready forest tt tree tree_from ->
  (forall k, scheme_laws (tree_scheme forest tree) k ->
     (forall w0 n elems r w1 e,
         call_adapt forest w0 tt n elems = (r, w1) ->
         0 < r -> hd_error elems = Some e ->
         refinable (tree_scheme forest tree) e -> Q e ->
         Forall Q (map (t8_element_child (tree_scheme forest tree) e)
                     (child_ids k))) /\
     (forall w0 r w1 q,
         call_adapt forest w0 tt k
           (map (t8_element_child (tree_scheme forest tree) q) (child_ids k))
         = (r, w1) ->
         r < 0 -> refinable (tree_scheme forest tree) q ->
         Forall Q (map (t8_element_child (tree_scheme forest tree) q)
                     (child_ids k)) ->
         Q q)) ->
  Forall Q (elements tree_from) ->
  t8_forest_adapt_tree fuel forest tt tree off w = Done (tree', ins, w') ->
  Forall Q (elements tree').
Proof.
  intros Etf (Hempty & k & laws & contract & Hsrc) HQ Hfrom Hrun.
  destruct (HQ k laws) as [Q_refine Q_coarsen].
  unfold t8_forest_adapt_tree in Hrun. rewrite Etf in Hrun.
  cbn [of_option bind] in Hrun.
  apply bind_Done in Hrun. destruct Hrun as (first & _ & Hrun).
  apply bind_Done in Hrun. destruct Hrun as (st & Hloop & Hrun).
  unfold tree_scheme in *. rewrite (law_num_children laws) in Hloop.
  assert (Hinv : adapt_inv (eclass_schemes forest (eclass tree))
                   (elements tree_from)
                   {| telements := elements tree; el_considered := 0;
                      el_inserted := 0; el_coarsen := 0; st_world := w |}).
  { constructor; cbn; rewrite ?Hempty; try (unfold elem_count; simpl; lia).
    - apply (committed_contiguous Hsrc).
    - constructor. }
  pose proof (adapt_loop_forall _ _ forest tt _ k laws contract Q
                Q_refine Q_coarsen _ (committed_levels Hsrc) Hfrom fuel _ st
                Hinv ltac:(cbn; rewrite Hempty; constructor) Hloop) as HQ'.
  destruct (adapt_loop_inv _ _ forest tt _ k laws contract _
              (committed_levels Hsrc) (fun _ => True)
              ltac:(intros; exact I) ltac:(intros; exact I)
              fuel _ st Hinv I Hloop) as (Hinv' & _).
  rewrite (inv_inserted Hinv'), sc_array_resize_full in Hrun.
  cbn [of_option bind] in Hrun. now injection Hrun as <- _ _.
Qed.

(** What [adapt_forest_nth] says, with the source tree and what is known
    of a ready forest. *)
Lemma adapt_forest_tree (fuel : nat)
  (forest' : t8_forest t8_element_t user_data_t) (i : nat)
  (tree' : t8_tree t8_element_t) :
  forest_ready forest ->
  t8_forest_adapt fuel forest = Done forest' ->
  nth_error (trees forest') i = Some tree' ->
  exists tree tree_from off w0 ins w1,
    nth_error (trees forest) i = Some tree /\
    nth_error (set_from forest) i = Some tree_from /\
    sc_array_index (set_from forest) (Z.of_nat i) = Some tree_from /\
    tree_ready forest (Z.of_nat i) tree tree_from /\
    tree_scheme forest' tree' = tree_scheme forest tree /\
    t8_forest_adapt_tree fuel forest (Z.of_nat i) tree off w0
    = Done (tree', ins, w1).
Proof.
  intros [Hlen Hready] Hrun Hi.
  destruct (adapt_forest_fields _ _ forest fuel forest' Hrun) as (Es & _).
  destruct (adapt_forest_nth _ _ forest fuel forest' Hrun) as [_ Hnth].
  destruct (Hnth i tree' Hi) as (tree & off & w0 & ins & w1 & Htree & Hrun').
  destruct (nth_error_same_length _ _ i tree Hlen Htree) as [tf Htf].
  assert (Etf : sc_array_index (set_from forest) (Z.of_nat i) = Some tf).
  { apply sc_array_index_Some. split; [lia |]. now rewrite Nat2Z.id. }
  exists tree, tf, off, w0, ins, w1.
  split; [exact Htree |]. split; [exact Htf |]. split; [exact Etf |].
  split; [now apply Hready |]. split; [| exact Hrun'].
  - pose proof Hrun' as Hrun''.
    apply (adapt_tree_contiguous _ _ _ _ _ _ _ _ _ _ _ (fun _ => True))
      in Hrun''; try (intros; exact I).
    + destruct Hrun'' as (Hec & _). unfold tree_scheme. now rewrite Es, Hec.
    + intros tf' Htf'. rewrite Etf in Htf'. injection Htf' as <-.
      now apply Hready.
Qed.



End ElementInvariantTree.

(** ** The result is a committed forest again *)

Section Committed.

Variable t8_element_t : Type.
Variable user_data_t : Type.
Variable forest : t8_forest t8_element_t user_data_t.
Variable tt : Z.
Variable ts : t8_eclass_scheme_c t8_element_t.
Variable k : Z.
Hypothesis laws : scheme_laws ts k.
Hypothesis contract : adapt_contract forest tt ts k.
Variable src : list t8_element_t.
Hypothesis src_levels : levels_ok ts src.

Local Abbreviation children q := (map (t8_element_child ts q) (child_ids k)).

(** After a pass the array holds an element. *)
Lemma adapt_body_some (fuel : nat)
  (st st' : adapt_state t8_element_t user_data_t) :
  adapt_inv ts src st ->
  el_considered st < elem_count src ->
  t8_forest_adapt_body fuel forest tt ts src k st = Done st' ->
  telements st' <> [].
Proof.
  intros [Hc Hins Hfl _ _] Hlt Hrun.
  pose proof (law_some_child laws) as Hk.
  destruct (adapt_body_cases _ _ forest tt ts k laws contract src fuel st st'
              ltac:(lia) Hrun)
    as (from0 & n & elems & r & w1 & _ & _ & _ & _ & _ & Hbranch).
  assert (Hsnoc : forall (l : list t8_element_t) x, l ++ [x] <> [])
    by (intros l x H; now apply app_eq_nil in H).
  destruct Hbranch as [(_ & Href & _ & _ & _ & l' & Hrun')
                      | [(_ & _ & _ & ->)
                      | [(_ & _ & _ & _ & q & _ & _ & Hrun')
                      | (_ & _ & _ & Hrun')]]].
  - apply (refine_recursive_appends _ _ forest tt ts k laws contract)
      in Hrun'; [| exact Hins |].
    + destruct Hrun' as (added & -> & e & He & _). intros H.
      apply app_eq_nil in H. destruct H as [_ ->]. discriminate.
    + exists (t8_element_child ts from0 (k - 1)).
      split; [apply (children_last _ ts k laws) |].
      apply (law_child_id_child laws); (assumption || lia).
  - cbn. intros H. apply app_eq_nil in H. destruct H as [_ H].
    now apply (children_not_nil _ ts k laws) in H.
  - apply (coarsen_recursive_call_rule _ _ forest tt ts k laws contract
             (el_coarsen st) (fun tel _ => tel <> []) Hfl) in Hrun'.
    + now destruct Hrun'.
    + intros A fam w r0 w0 _ _ _ _ HP. split; [intros _; exact HP |].
      intros _ q0 _ _. apply Hsnoc.
    + unfold elem_count in *. rewrite length_app. simpl. lia.
    + apply Hsnoc.
  - apply (coarsen_recursive_call_rule _ _ forest tt ts k laws contract
             (el_coarsen st) (fun tel _ => tel <> []) Hfl) in Hrun'.
    + now destruct Hrun'.
    + intros A fam w r0 w0 _ _ _ _ HP. split; [intros _; exact HP |].
      intros _ q0 _ _. apply Hsnoc.
    + unfold elem_count in *. rewrite length_app. simpl. lia.
    + apply Hsnoc.
Qed.

Lemma adapt_loop_some (fuel : nat) :
  forall st st' : adapt_state t8_element_t user_data_t,
    adapt_inv ts src st ->
    telements st <> [] \/ el_considered st < elem_count src ->
    t8_forest_adapt_loop fuel forest tt ts src k st = Done st' ->
    telements st' <> [].
Proof.
  induction fuel as [| fuel IH]; intros st st' Hinv Hsome Hrun;
    cbn [t8_forest_adapt_loop] in Hrun;
    destruct (Z.ltb_spec (el_considered st) (elem_count src)) as [Hlt | Hge];
    try discriminate;
    try (injection Hrun as <-; destruct Hsome; [assumption | lia]).
  apply bind_Done in Hrun. destruct Hrun as (st1 & Hbody & Hloop).
  apply (IH st1 st'); [| | exact Hloop].
  - now apply (adapt_body_inv _ _ forest tt ts k laws contract src src_levels
                 (fun _ => True) (fun _ _ _ _ _ _ _ _ => I)
                 (fun _ _ _ _ _ _ => I) fuel st st1 Hinv I Hlt Hbody).
  - left. now apply (adapt_body_some fuel st).
Qed.

End Committed.

Section CommittedForest.

Variable t8_element_t : Type.
Variable user_data_t : Type.
Variable forest : t8_forest t8_element_t user_data_t.

Lemma adapt_tree_some (fuel : nat) (tt : Z)
  (tree tree' tree_from : t8_tree t8_element_t) (off ins : Z)
  (w w' : world t8_element_t user_data_t) :
  sc_array_index (set_from forest) tt = Some tree_from ->
  tree_ready forest tt tree tree_from ->
  t8_forest_adapt_tree fuel forest tt tree off w = Done (tree', ins, w') ->
  elements tree' <> [].
Proof.
  intros Etf (Hempty & k & laws & contract & Hsrc) Hrun.
  unfold t8_forest_adapt_tree in Hrun. rewrite Etf in Hrun.
  cbn [of_option bind] in Hrun.
  apply bind_Done in Hrun. destruct Hrun as (first & _ & Hrun).
  apply bind_Done in Hrun. destruct Hrun as (st & Hloop & Hrun).
  unfold tree_scheme in *. rewrite (law_num_children laws) in Hloop.
  assert (Hpos : 0 < elem_count (elements tree_from)).
  { pose proof (committed_some Hsrc). unfold elem_count.
    destruct (elements tree_from); [congruence | simpl; lia]. }
  assert (Hinv : adapt_inv (eclass_schemes forest (eclass tree))
                   (elements tree_from)
                   {| telements := elements tree; el_considered := 0;
                      el_inserted := 0; el_coarsen := 0; st_world := w |}).
  { constructor; cbn; rewrite ?Hempty; try (unfold elem_count; simpl; lia).
    - apply (committed_contiguous Hsrc).
    - constructor. }
  pose proof (adapt_loop_some _ _ forest tt _ k laws contract _
                (committed_levels Hsrc) fuel _ st Hinv
                ltac:(right; exact Hpos) Hloop) as Hsome.
  destruct (adapt_loop_inv _ _ forest tt _ k laws contract _
              (committed_levels Hsrc) (fun _ => True)
              ltac:(intros; exact I) ltac:(intros; exact I)
              fuel _ st Hinv I Hloop) as (Hinv' & _).
  rewrite (inv_inserted Hinv'), sc_array_resize_full in Hrun.
  cbn [of_option bind] in Hrun. now injection Hrun as <- _ _.
Qed.


End CommittedForest.

(** ** What the two helpers do to the array *)

Section HelperResults.

Variable t8_element_t : Type.
Variable user_data_t : Type.
Variable forest : t8_forest t8_element_t user_data_t.
Variable tt : Z.
Variable ts : t8_eclass_scheme_c t8_element_t.
Variable k : Z.
Hypothesis laws : scheme_laws ts k.
Hypothesis contract : adapt_contract forest tt ts k.

Local Abbreviation children q := (map (t8_element_child ts q) (child_ids k)).

Lemma within_children (q : t8_element_t) :
  refinable ts q -> Forall (within ts q) (children q).
Proof.
  intros Hq. apply Forall_forall. intros c Hc. apply in_map_iff in Hc.
  destruct Hc as (j & <- & Hj). apply (child_ids_range k) in Hj.
  constructor; [constructor | assumption |].
  now rewrite (law_num_children laws).
Qed.


(** The loop of the coarsening helper makes no more passes than the level
    of the last element of the array, and one more. *)
Lemma coarsen_recursive_loop_passes (floor : Z) (fuel : nat) :
  0 <= floor ->
  forall tel ins element pos w,
    ins = elem_count tel -> pos = ins - k ->
    last_error tel = Some element ->
    (Z.to_nat (t8_element_level ts element) < fuel)%nat ->
    exists r,
      coarsen_recursive_loop fuel forest tt ts k floor tel ins element pos w
      = Done r.
Proof.
  intros Hfloor. pose proof (law_some_child laws) as Hk.
  induction fuel as [| fuel IH];
    intros tel ins element pos w Hins Hpos Hlast Hfuel; [lia |].
  cbn [coarsen_recursive_loop].
  destruct ((floor <=? pos) && (t8_element_child_id ts element =? k - 1))
    eqn:G; [| eauto].
  apply andb_true_iff in G. destruct G as [G _]. apply Z.leb_le in G.
  destruct (coarsen_family_spec _ ts tel pos ltac:(lia) (Z.to_nat k) 0 [])
    as (b & fam & Hscan & Hfam);
    [lia | reflexivity | reflexivity | now intros [| ?] ? | lia |].
  rewrite Hscan. cbn [bind].
  destruct b; [| eauto].
  destruct (Hfam eq_refl) as (Efam & _ & Hids).
  destruct (family_split _ ts k laws tel fam pos) as (A & -> & HA & Hcount);
    [lia | lia | exact Efam |].
  destruct (call_adapt forest w tt k fam) as [r w1] eqn:Ecall.
  destruct (Z.ltb_spec r 0) as [Hr | Hr]; [| eauto].
  destruct (proj1 (call_adapt_contract _ _ forest tt ts k contract
                     _ _ _ _ _ Ecall) Hr) as (q & Hq & Eq).
  assert (Hne : fam <> []) by (rewrite Eq; apply (children_not_nil _ _ k laws)).
  destruct (sc_array_replace_tail _ A fam
              (t8_element_parent ts (t8_element_child ts q 0)) Hne)
    as (b & Hb1 & Hb2).
  replace (ins - (k - 1))
    with (elem_count (A ++ fam) - (elem_count fam - 1)) by lia.
  rewrite Hb1. cbn [of_option bind].
  assert (E0 : nth_error fam 0 = Some (t8_element_child ts q 0)).
  { rewrite Eq. destruct (child_ids_first _ ts k laws) as [l ->]. reflexivity. }
  rewrite E0. cbn [of_option bind].
  rewrite Hpos, Hins.
  replace (elem_count (A ++ fam) - k) with (elem_count A)
    by (unfold elem_count in *; rewrite length_app; lia).
  rewrite Hb2. cbn [of_option bind].
  rewrite (law_parent_child laws) by (assumption || lia).
  apply IH.
  - unfold elem_count in *. rewrite !length_app in *. simpl. lia.
  - unfold elem_count in *. rewrite !length_app in *. simpl. lia.
  - apply last_error_snoc.
  - rewrite last_error_app in Hlast by exact Hne.
    rewrite Eq, (children_last _ ts k laws) in Hlast. injection Hlast as <-.
    rewrite (law_level_child laws) in Hfuel by (assumption || lia).
    pose proof (law_level_nonneg laws q). lia.
Qed.


End HelperResults.

Section RefineResults.

Variable t8_element_t : Type.
Variable user_data_t : Type.
Variable forest : t8_forest t8_element_t user_data_t.
Variable tt : Z.
Variable ts : t8_eclass_scheme_c t8_element_t.
Variable k : Z.
Hypothesis laws : scheme_laws ts k.
Hypothesis contract : adapt_contract forest tt ts k.

Local Abbreviation children q := (map (t8_element_child ts q) (child_ids k)).


Lemma call_replace_trace_eq (w : world t8_element_t user_data_t) n_out out
  n_in inc :
  trace (call_replace forest w tt n_out out n_in inc)
  = trace w ++ match set_replace_fn forest with
               | Some _ => [Ev_replace tt n_out out n_in inc]
               | None => []
               end.
Proof.
  unfold call_replace. destruct (set_replace_fn forest); [reflexivity |].
  now rewrite app_nil_r.
Qed.

Lemma refine_event_ok_more (added added' : list t8_element_t)
  (ev : event t8_element_t) :
  incl added added' ->
  refine_event_ok ts k tt added ev -> refine_event_ok ts k tt added' ev.
Proof.
  intros Hincl. destruct ev as [t n elems r | t n_out out n_in inc];
    [| easy].
  intros (H1 & H2 & e & H3 & H4 & H5). repeat split; try assumption.
  exists e. repeat split; try assumption. intros Hr. now apply Hincl, H4.
Qed.


End RefineResults.

(** ** The calls of the replace callback *)

Section WorldRule.

Variable t8_element_t : Type.
Variable user_data_t : Type.
Variable forest : t8_forest t8_element_t user_data_t.
Variable tt : Z.
Variable ts : t8_eclass_scheme_c t8_element_t.
Variable k : Z.
Hypothesis laws : scheme_laws ts k.
Hypothesis contract : adapt_contract forest tt ts k.

Local Abbreviation children q := (map (t8_element_child ts q) (child_ids k)).

(** A property [W] of the world that is kept by every call of the
    predicate, by a call of the replace callback with an element and its
    children, and by one with a family and its parent. *)
Variable W : world t8_element_t user_data_t -> Prop.
Hypothesis W_adapt :
  forall w n elems r w1,
    call_adapt forest w tt n elems = (r, w1) -> W w -> W w1.
Hypothesis W_refine :
  forall w q, refinable ts q -> W w ->
              W (call_replace forest w tt 1 [q] k (children q)).
Hypothesis W_coarsen :
  forall w q, refinable ts q -> W w ->
              W (call_replace forest w tt k (children q) 1 [q]).

Lemma refine_recursive_world fuel stack tel ins w l' tel' ins' w' :
  ins = elem_count tel -> W w ->
  t8_forest_adapt_refine_recursive fuel forest tt ts stack tel ins w
  = Done (l', tel', ins', w') ->
  W w'.
Proof.
  intros Hins HW Hrun.
  apply (refine_recursive_rule _ _ forest tt ts k laws contract
           (fun _ _ w0 => W w0)) in Hrun; [| | exact Hins | exact HW].
  - now destruct Hrun as (_ & H & _).
  - intros e stack0 tel0 w0 r w1 Hcall HW0.
    pose proof (W_adapt _ _ _ _ _ Hcall HW0) as HW1.
    split; [intros _; exact HW1 |]. intros _ Href. now apply W_refine.
Qed.

Lemma coarsen_recursive_world floor (b : bool) fuel tel ins w tel' ins' w' :
  0 <= floor -> ins = elem_count tel -> W w ->
  (if b
   then t8_forest_adapt_coarsen_recursive fuel forest tt ts tel floor ins w
   else Done (tel, ins, w)) = Done (tel', ins', w') ->
  W w'.
Proof.
  intros Hfloor Hins HW Hrun.
  apply (coarsen_recursive_call_rule _ _ forest tt ts k laws contract
           floor (fun _ w0 => W w0) Hfloor) in Hrun;
    [| | exact Hins | exact HW].
  - now destruct Hrun.
  - intros A fam w0 r w1 _ _ _ Hcall HW0.
    pose proof (W_adapt _ _ _ _ _ Hcall HW0) as HW1.
    split; [intros _; exact HW1 |]. intros _ q Hq ->. now apply W_coarsen.
Qed.

Variable src : list t8_element_t.
Hypothesis src_levels : levels_ok ts src.

Lemma adapt_body_world (fuel : nat)
  (st st' : adapt_state t8_element_t user_data_t) :
  adapt_inv ts src st ->
  el_considered st < elem_count src ->
  W (st_world st) ->
  t8_forest_adapt_body fuel forest tt ts src k st = Done st' ->
  W (st_world st').
Proof.
  intros [Hc Hins Hfl _ _] Hlt HW Hrun.
  pose proof (law_some_child laws) as Hk.
  destruct (adapt_body_cases _ _ forest tt ts k laws contract src fuel st st'
              ltac:(lia) Hrun)
    as (from0 & n & elems & r & w1 & _ & _ & Ecall & _ & _ & Hbranch).
  pose proof (W_adapt _ _ _ _ _ Ecall HW) as HW1.
  destruct Hbranch as [(_ & Href & _ & _ & _ & l' & Hrun')
                      | [(_ & Href & _ & ->)
                      | [(_ & _ & _ & _ & q & Hq & Eq & Hrun')
                      | (_ & _ & _ & Hrun')]]].
  - apply refine_recursive_world in Hrun'; try assumption.
    now apply W_refine.
  - cbn. now apply W_refine.
  - apply (coarsen_recursive_world (el_coarsen st)) in Hrun';
      try assumption.
    + unfold elem_count in *. rewrite length_app. simpl. lia.
    + rewrite Eq. now apply W_coarsen.
  - apply (coarsen_recursive_world (el_coarsen st)) in Hrun';
      try assumption.
    unfold elem_count in *. rewrite length_app. simpl. lia.
Qed.

Lemma adapt_loop_world (fuel : nat) :
  forall st st' : adapt_state t8_element_t user_data_t,
    adapt_inv ts src st ->
    W (st_world st) ->
    t8_forest_adapt_loop fuel forest tt ts src k st = Done st' ->
    W (st_world st').
Proof.
  induction fuel as [| fuel IH]; intros st st' Hinv HW Hrun;
    cbn [t8_forest_adapt_loop] in Hrun;
    destruct (Z.ltb_spec (el_considered st) (elem_count src)) as [Hlt | Hge];
    try discriminate; try (now injection Hrun as <-).
  apply bind_Done in Hrun. destruct Hrun as (st1 & Hbody & Hloop).
  apply (IH st1 st'); [| | exact Hloop].
  - now apply (adapt_body_inv _ _ forest tt ts k laws contract src src_levels
                 (fun _ => True) (fun _ _ _ _ _ _ _ _ => I)
                 (fun _ _ _ _ _ _ => I) fuel st st1 Hinv I Hlt Hbody).
  - now apply (adapt_body_world fuel st).
Qed.

End WorldRule.

Section ReplaceCalls.

Variable t8_element_t : Type.
Variable user_data_t : Type.
Variable forest : t8_forest t8_element_t user_data_t.

Lemma adapt_tree_world (W : world t8_element_t user_data_t -> Prop)
  (fuel : nat) (tt : Z) (tree tree' tree_from : t8_tree t8_element_t)
  (off ins : Z) (w w' : world t8_element_t user_data_t) :
  sc_array_index (set_from forest) tt = Some tree_from ->
  tree_ready forest tt tree tree_from ->
  (forall k, scheme_laws (tree_scheme forest tree) k ->
     (forall w0 n elems r w1,
         call_adapt forest w0 tt n elems = (r, w1) -> W w0 -> W w1) /\
     (forall w0 q, refinable (tree_scheme forest tree) q -> W w0 ->
        W (call_replace forest w0 tt 1 [q] k
             (map (t8_element_child (tree_scheme forest tree) q)
                (child_ids k)))) /\
     (forall w0 q, refinable (tree_scheme forest tree) q -> W w0 ->
        W (call_replace forest w0 tt k
             (map (t8_element_child (tree_scheme forest tree) q)
                (child_ids k)) 1 [q]))) ->
  W w ->
  t8_forest_adapt_tree fuel forest tt tree off w = Done (tree', ins, w') ->
  W w'.
Proof.
  intros Etf (Hempty & k & laws & contract & Hsrc) HW Hw Hrun.
  destruct (HW k laws) as (W_adapt & W_refine & W_coarsen).
  unfold t8_forest_adapt_tree in Hrun. rewrite Etf in Hrun.
  cbn [of_option bind] in Hrun.
  apply bind_Done in Hrun. destruct Hrun as (first & _ & Hrun).
  apply bind_Done in Hrun. destruct Hrun as (st & Hloop & Hrun).
  unfold tree_scheme in *. rewrite (law_num_children laws) in Hloop.
  assert (Hinv : adapt_inv (eclass_schemes forest (eclass tree))
                   (elements tree_from)
                   {| telements := elements tree; el_considered := 0;
                      el_inserted := 0; el_coarsen := 0; st_world := w |}).
  { constructor; cbn; rewrite ?Hempty; try (unfold elem_count; simpl; lia).
    - apply (committed_contiguous Hsrc).
    - constructor. }
  pose proof (adapt_loop_world _ _ forest tt _ k laws contract W
                W_adapt W_refine W_coarsen _ (committed_levels Hsrc) fuel _ st
                Hinv Hw Hloop) as HW'.
  apply bind_Done in Hrun. destruct Hrun as (tel & _ & Hrun).
  now injection Hrun as _ _ <-.
Qed.


End ReplaceCalls.

(** ** The cost of an adapt without recursion *)

Section Cost.

Variable t8_element_t : Type.
Variable user_data_t : Type.
Variable forest : t8_forest t8_element_t user_data_t.
Variable tt : Z.
Variable ts : t8_eclass_scheme_c t8_element_t.
Variable k : Z.
Hypothesis laws : scheme_laws ts k.
Hypothesis contract : adapt_contract forest tt ts k.
Hypothesis no_recursion : set_adapt_recursive forest = false.
Variable src : list t8_element_t.
Hypothesis src_levels : levels_ok ts src.

Local Abbreviation children q := (map (t8_element_child ts q) (child_ids k)).

Lemma count_adapt_calls_app (l1 l2 : list (event t8_element_t)) :
  count_adapt_calls (l1 ++ l2) = count_adapt_calls l1 + count_adapt_calls l2.
Proof.
  unfold count_adapt_calls, elem_count. rewrite filter_app, length_app. lia.
Qed.

Lemma count_replace_calls_app (l1 l2 : list (event t8_element_t)) :
  count_replace_calls (l1 ++ l2)
  = count_replace_calls l1 + count_replace_calls l2.
Proof.
  unfold count_replace_calls, elem_count. rewrite filter_app, length_app. lia.
Qed.

(** A pass asks the predicate once and calls the replace callback once at
    most; it pushes [num_children] elements for one source element, one
    for [num_children], or one for one. *)
Lemma adapt_body_cost (fuel : nat)
  (st st' : adapt_state t8_element_t user_data_t) :
  adapt_inv ts src st ->
  el_considered st < elem_count src ->
  t8_forest_adapt_body fuel forest tt ts src k st = Done st' ->
  exists asked,
    trace (st_world st') = trace (st_world st) ++ asked /\
    count_adapt_calls asked = 1 /\
    0 <= count_replace_calls asked <= 1 /\
    1 <= el_considered st' - el_considered st <= k /\
    1 <= elem_count (telements st') - elem_count (telements st) <= k.
Proof.
  intros [Hc Hins Hfl _ _] Hlt Hrun.
  pose proof (law_some_child laws) as Hk.
  destruct (adapt_body_cases _ _ forest tt ts k laws contract src fuel st st'
              ltac:(lia) Hrun)
    as (from0 & n & elems & r & w1 & _ & _ & Ecall & _ & _ & Hbranch).
  pose proof (call_adapt_trace _ _ forest tt _ _ _ _ _ Ecall) as Htr.
  assert (Hrep : forall n_out out n_in inc,
             exists more,
               trace (call_replace forest w1 tt n_out out n_in inc)
               = trace (st_world st)
                 ++ Ev_adapt tt n elems r :: more /\
               count_adapt_calls more = 0 /\
               0 <= count_replace_calls more <= 1).
  { intros n_out out n_in inc. unfold call_replace.
    destruct (set_replace_fn forest).
    - exists [Ev_replace tt n_out out n_in inc]. cbn [trace].
      rewrite Htr, <- app_assoc. repeat split; cbv; congruence.
    - exists []. rewrite Htr. repeat split; cbv; congruence. }
  rewrite no_recursion in Hbranch. cbn [andb] in Hbranch.
  destruct Hbranch as [(_ & _ & Hrec & _)
                      | [(_ & _ & _ & ->)
                      | [(_ & _ & Ec & _ & q & _ & _ & Hrun')
                      | (_ & Ec & _ & Hrun')]]]; [discriminate | | |].
  - cbn [st_world el_considered telements].
    destruct (Hrep 1 [from0] k (children from0)) as (more & E & H1 & H2).
    exists (Ev_adapt tt n elems r :: more). split; [exact E |].
    change (Ev_adapt tt n elems r :: more)
      with ([Ev_adapt tt n elems r] ++ more).
    rewrite count_adapt_calls_app, count_replace_calls_app, H1.
    unfold elem_count. rewrite length_app, length_map, child_ids_length.
    repeat split; try (cbv; congruence); cbn; lia.
  - injection Hrun' as E1 E2 E3.
    destruct (Hrep k elems 1 [q]) as (more & E & H1 & H2).
    exists (Ev_adapt tt n elems r :: more).
    split; [now rewrite <- E3 |].
    change (Ev_adapt tt n elems r :: more)
      with ([Ev_adapt tt n elems r] ++ more).
    rewrite count_adapt_calls_app, count_replace_calls_app, H1, <- E1.
    unfold elem_count. rewrite length_app.
    repeat split; try (cbv; congruence); cbn; lia.
  - injection Hrun' as E1 E2 E3.
    exists [Ev_adapt tt n elems r]. split; [now rewrite <- E3 |].
    rewrite <- E1. unfold elem_count. rewrite length_app.
    repeat split; try (cbv; congruence); cbn; lia.
Qed.

Lemma adapt_loop_cost (fuel : nat) :
  forall st st' : adapt_state t8_element_t user_data_t,
    adapt_inv ts src st ->
    t8_forest_adapt_loop fuel forest tt ts src k st = Done st' ->
    exists asked,
      trace (st_world st') = trace (st_world st) ++ asked /\
      0 <= count_replace_calls asked <= count_adapt_calls asked /\
      count_adapt_calls asked <= el_considered st' - el_considered st
      <= k * count_adapt_calls asked /\
      count_adapt_calls asked
      <= elem_count (telements st') - elem_count (telements st)
      <= k * count_adapt_calls asked.
Proof.
  pose proof (law_some_child laws) as Hk.
  induction fuel as [| fuel IH]; intros st st' Hinv Hrun;
    cbn [t8_forest_adapt_loop] in Hrun;
    destruct (Z.ltb_spec (el_considered st) (elem_count src)) as [Hlt | Hge];
    try discriminate;
    try (injection Hrun as <-; exists []; rewrite app_nil_r;
         repeat split; cbn; lia).
  apply bind_Done in Hrun. destruct Hrun as (st1 & Hbody & Hloop).
  destruct (adapt_body_cost fuel st st1 Hinv Hlt Hbody)
    as (a1 & E1 & Ha1 & Hr1 & Hc1 & Ht1).
  assert (Hinv1 : adapt_inv ts src st1).
  { now apply (adapt_body_inv _ _ forest tt ts k laws contract src src_levels
                 (fun _ => True) (fun _ _ _ _ _ _ _ _ => I)
                 (fun _ _ _ _ _ _ => I) fuel st st1 Hinv I Hlt Hbody). }
  destruct (IH st1 st' Hinv1 Hloop) as (a2 & E2 & Hr2 & Hc2 & Ht2).
  exists (a1 ++ a2). split; [now rewrite E2, E1, app_assoc |].
  rewrite count_adapt_calls_app, count_replace_calls_app, Ha1.
  rewrite Z.mul_add_distr_l, Z.mul_1_r. repeat split; lia.
Qed.

End Cost.

Section CostTree.

Variable t8_element_t : Type.
Variable user_data_t : Type.
Variable forest : t8_forest t8_element_t user_data_t.


End CostTree.

(** ** The result covers the source *)

Section Cover.

Variable t8_element_t : Type.
Variable user_data_t : Type.
Variable forest : t8_forest t8_element_t user_data_t.
Variable tt : Z.
Variable ts : t8_eclass_scheme_c t8_element_t.
Variable k : Z.
Hypothesis laws : scheme_laws ts k.
Hypothesis contract : adapt_contract forest tt ts k.

Local Abbreviation children q := (map (t8_element_child ts q) (child_ids k)).
Local Abbreviation covered tel s :=
  (exists o, In o tel /\ (within ts o s \/ within ts s o)).

Lemma firstn_add {X : Type} (n m : nat) (l : list X) :
  firstn (n + m) l = firstn n l ++ firstn m (skipn n l).
Proof.
  revert l. induction n as [| n IH]; intros [| x l]; cbn;
    try reflexivity; [now rewrite firstn_nil | now rewrite IH].
Qed.

(** The refinement helper keeps what the array holds, and appends an
    element of each candidate. *)
Lemma refine_recursive_covers (c0 : t8_element_t) fuel stack tel ins w l'
  tel' ins' w' :
  ins = elem_count tel ->
  In c0 stack ->
  t8_forest_adapt_refine_recursive fuel forest tt ts stack tel ins w
  = Done (l', tel', ins', w') ->
  incl tel tel' /\ exists e, In e tel' /\ within ts c0 e.
Proof.
  intros Hins Hc0 Hrun.
  apply (refine_recursive_rule _ _ forest tt ts k laws contract
           (fun stack0 tel0 _ =>
              incl tel tel0 /\
              exists e, In e (tel0 ++ stack0) /\ within ts c0 e))
    in Hrun; [| | exact Hins |].
  - destruct Hrun as (_ & (H1 & e & He & Hw) & _).
    rewrite app_nil_r in He. split; [exact H1 | now exists e].
  - clear Hrun. intros e stack0 tel0 w0 r w1 _ (Hincl & x & Hx & Hw).
    split.
    + intros _. split.
      * intros y Hy. apply in_or_app. left. now apply Hincl.
      * exists x. split; [| exact Hw]. now rewrite <- app_assoc.
    + intros _ Href. split; [exact Hincl |].
      apply in_app_or in Hx. destruct Hx as [Hx | [<- | Hx]].
      * exists x. split; [apply in_or_app; now left | exact Hw].
      * destruct (child_ids_first _ ts k laws) as [l El].
        pose proof (within_children _ ts k laws e Href) as Hch.
        rewrite El in Hch. inversion Hch as [| ? ? H0 _]; subst.
        exists (t8_element_child ts e 0). split.
        -- apply in_or_app. right. apply in_or_app. left.
           rewrite El. now left.
        -- now apply (within_trans _ ts c0 e).
      * exists x. split; [| exact Hw].
        apply in_or_app. right. apply in_or_app. now right.
  - split; [now intros y Hy |]. exists c0.
    split; [apply in_or_app; now right | constructor].
Qed.

(** The coarsening helper covers what the array covered. *)
Lemma coarsen_recursive_covers (S : list t8_element_t) floor (b : bool) fuel
  tel ins w tel' ins' w' :
  0 <= floor -> ins = elem_count tel ->
  (forall s, In s S -> covered tel s) ->
  (if b
   then t8_forest_adapt_coarsen_recursive fuel forest tt ts tel floor ins w
   else Done (tel, ins, w)) = Done (tel', ins', w') ->
  forall s, In s S -> covered tel' s.
Proof.
  intros Hfloor Hins Hcov Hrun. pose proof (law_some_child laws) as Hk.
  apply (coarsen_recursive_call_rule _ _ forest tt ts k laws contract
           floor (fun tel0 _ => forall s, In s S -> covered tel0 s) Hfloor)
    in Hrun; [| | exact Hins | exact Hcov].
  - now destruct Hrun.
  - clear Hrun. intros A fam w0 r w1 _ _ _ _ HP.
    split; [intros _; exact HP |].
    intros _ q Hq -> s Hs. destruct (HP s Hs) as (o & Ho & Hrel).
    apply in_app_or in Ho. destruct Ho as [Ho | Ho].
    + exists o. split; [apply in_or_app; now left | exact Hrel].
    + exists q. split; [apply in_or_app; right; now left |].
      pose proof (within_children _ ts k laws q Hq) as Hch.
      rewrite Forall_forall in Hch. specialize (Hch o Ho).
      apply in_map_iff in Ho. destruct Ho as (j & <- & Hj).
      apply (child_ids_range k) in Hj.
      destruct Hrel as [Hrel | Hrel].
      * left. now apply (within_trans _ ts q (t8_element_child ts q j)).
      * destruct (within_child_inv _ ts k laws s q j Hq Hj Hrel)
          as [-> | H]; [now left | now right].
Qed.

Variable src : list t8_element_t.
Hypothesis src_levels : levels_ok ts src.

Lemma adapt_body_covers (fuel : nat)
  (st st' : adapt_state t8_element_t user_data_t) :
  adapt_inv ts src st ->
  el_considered st < elem_count src ->
  (forall s, In s (firstn (Z.to_nat (el_considered st)) src) ->
             covered (telements st) s) ->
  t8_forest_adapt_body fuel forest tt ts src k st = Done st' ->
  forall s, In s (firstn (Z.to_nat (el_considered st')) src) ->
            covered (telements st') s.
Proof.
  intros [Hc Hins Hfl _ _] Hlt Hcov Hrun.
  pose proof (law_some_child laws) as Hk.
  destruct (adapt_body_cases _ _ forest tt ts k laws contract src fuel st st'
              ltac:(lia) Hrun)
    as (from0 & n & elems & r & w1 & Hrest & Hhd & _ & _ & Hwin & Hbranch).
  assert (Hone : forall s,
             In s (firstn (Z.to_nat (el_considered st + 1)) src) ->
             In s (firstn (Z.to_nat (el_considered st)) src) \/ s = from0).
  { intros s Hs.
    replace (Z.to_nat (el_considered st + 1))
      with (Z.to_nat (el_considered st) + 1)%nat in Hs by lia.
    rewrite firstn_add, Hrest in Hs. cbn in Hs.
    apply in_app_or in Hs. destruct Hs as [Hs | [<- | []]]; auto. }
  assert (Hmore : forall (tel tel1 : list t8_element_t) s,
             incl tel tel1 -> covered tel s -> covered tel1 s).
  { intros tel tel1 s Hincl (o & Ho & Hrel). exists o.
    split; [now apply Hincl | exact Hrel]. }
  assert (Hchild0 : forall q, refinable ts q ->
             In (t8_element_child ts q 0) (children q) /\
             within ts q (t8_element_child ts q 0)).
  { intros q Hq. destruct (child_ids_first _ ts k laws) as [l El].
    pose proof (within_children _ ts k laws q Hq) as Hch.
    rewrite El in *. cbn [map] in *. split; [now left | now inversion Hch]. }
  destruct Hbranch as [(_ & Href & _ & Ec & _ & l' & Hrun')
                      | [(_ & Href & _ & ->)
                      | [(_ & En & Ec & _ & q & Hq & Eq & Hrun')
                      | (_ & Ec & _ & Hrun')]]].
  - destruct (Hchild0 from0 Href) as [Hin0 Hw0].
    destruct (refine_recursive_covers _ _ _ _ _ _ _ _ _ _ Hins Hin0 Hrun')
      as (Hincl & e & He & Hw).
    rewrite Ec. intros s Hs. destruct (Hone s Hs) as [Hs' | ->].
    + apply (Hmore (telements st)); [exact Hincl | now apply Hcov].
    + exists e. split; [exact He |]. right.
      now apply (within_trans _ ts from0 (t8_element_child ts from0 0)).
  - cbn [el_considered telements]. intros s Hs.
    destruct (Hone s Hs) as [Hs' | ->].
    + apply (Hmore (telements st)); [| now apply Hcov].
      intros y Hy. apply in_or_app. now left.
    + destruct (Hchild0 from0 Href) as [Hin0 Hw0].
      exists (t8_element_child ts from0 0).
      split; [apply in_or_app; now right | now right].
  - rewrite Ec.
    apply (coarsen_recursive_covers
             (firstn (Z.to_nat (el_considered st + k)) src) (el_coarsen st))
      with (4 := Hrun'); try assumption.
    + unfold elem_count in *. rewrite length_app. simpl. lia.
    + intros s Hs.
      replace (Z.to_nat (el_considered st + k))
        with (Z.to_nat (el_considered st) + Z.to_nat k)%nat in Hs by lia.
      rewrite firstn_add in Hs. apply in_app_or in Hs.
      destruct Hs as [Hs | Hs].
      * apply (Hmore (telements st)); [| now apply Hcov].
        intros y Hy. apply in_or_app. now left.
      * assert (Hs' : In s (children q)).
        { rewrite <- Eq.
          destruct Hwin as [(_ & -> & _) | (E1 & E2)]; [exact Hs |].
          assert (k = 1) as -> by lia.
          rewrite Hrest in Hs. rewrite E2. exact Hs. }
        pose proof (within_children _ ts k laws q Hq) as Hch.
        rewrite Forall_forall in Hch.
        exists q. split; [apply in_or_app; right; now left |].
        left. now apply Hch.
  - rewrite Ec.
    apply (coarsen_recursive_covers
             (firstn (Z.to_nat (el_considered st + 1)) src) (el_coarsen st))
      with (4 := Hrun'); try assumption.
    + unfold elem_count in *. rewrite length_app. simpl. lia.
    + intros s Hs. destruct (Hone s Hs) as [Hs' | ->].
      * apply (Hmore (telements st)); [| now apply Hcov].
        intros y Hy. apply in_or_app. now left.
      * exists from0. split; [apply in_or_app; right; now left |].
        left. constructor.
Qed.

Lemma adapt_loop_covers (fuel : nat) :
  forall st st' : adapt_state t8_element_t user_data_t,
    adapt_inv ts src st ->
    (forall s, In s (firstn (Z.to_nat (el_considered st)) src) ->
               covered (telements st) s) ->
    t8_forest_adapt_loop fuel forest tt ts src k st = Done st' ->
    forall s, In s (firstn (Z.to_nat (el_considered st')) src) ->
              covered (telements st') s.
Proof.
  induction fuel as [| fuel IH]; intros st st' Hinv Hcov Hrun;
    cbn [t8_forest_adapt_loop] in Hrun;
    destruct (Z.ltb_spec (el_considered st) (elem_count src)) as [Hlt | Hge];
    try discriminate; try (now injection Hrun as <-).
  apply bind_Done in Hrun. destruct Hrun as (st1 & Hbody & Hloop).
  apply (IH st1 st'); [| | exact Hloop].
  - now apply (adapt_body_inv _ _ forest tt ts k laws contract src src_levels
                 (fun _ => True) (fun _ _ _ _ _ _ _ _ => I)
                 (fun _ _ _ _ _ _ => I) fuel st st1 Hinv I Hlt Hbody).
  - now apply (adapt_body_covers fuel st).
Qed.

End Cover.

Section CoverForest.

Variable t8_element_t : Type.
Variable user_data_t : Type.
Variable forest : t8_forest t8_element_t user_data_t.


End CoverForest.

Section CoarsenOnly.

Variable t8_element_t : Type.
Variable user_data_t : Type.
Variable forest : t8_forest t8_element_t user_data_t.


End CoarsenOnly.

(** ** An adapt without recursion changes the level by one at most *)

Section OneLevel.

Variable t8_element_t : Type.
Variable user_data_t : Type.
Variable forest : t8_forest t8_element_t user_data_t.
Variable tt : Z.
Variable ts : t8_eclass_scheme_c t8_element_t.
Variable k : Z.
Hypothesis laws : scheme_laws ts k.
Hypothesis contract : adapt_contract forest tt ts k.
Hypothesis no_recursion : set_adapt_recursive forest = false.
Variable src : list t8_element_t.
Hypothesis src_levels : levels_ok ts src.

Local Abbreviation children q := (map (t8_element_child ts q) (child_ids k)).

Lemma adapt_body_one_level (fuel : nat)
  (st st' : adapt_state t8_element_t user_data_t) :
  adapt_inv ts src st ->
  el_considered st < elem_count src ->
  Forall (one_level ts k src) (telements st) ->
  t8_forest_adapt_body fuel forest tt ts src k st = Done st' ->
  Forall (one_level ts k src) (telements st').
Proof.
  intros [Hc Hins Hfl _ _] Hlt Htel Hrun.
  pose proof (law_some_child laws) as Hk.
  destruct (adapt_body_cases _ _ forest tt ts k laws contract src fuel st st'
              ltac:(lia) Hrun)
    as (from0 & n & elems & r & w1 & Hrest & Hhd & _ & _ & _ & Hbranch).
  assert (Hfrom : In from0 src).
  { rewrite <- (firstn_skipn (Z.to_nat (el_considered st)) src), Hrest.
    apply in_or_app. right. now left. }
  rewrite no_recursion in Hbranch. cbn [andb] in Hbranch.
  destruct Hbranch as [(_ & _ & Hrec & _)
                      | [(_ & Href & _ & ->)
                      | [(_ & _ & _ & _ & q & Hq & Eq & Hrun')
                      | (_ & _ & _ & Hrun')]]]; [discriminate | | |].
  - cbn [telements]. apply Forall_app. split; [exact Htel |].
    apply Forall_forall. intros c Hc'. apply in_map_iff in Hc'.
    destruct Hc' as (j & <- & Hj). apply (child_ids_range k) in Hj.
    exists from0. split; [exact Hfrom |]. right. left.
    split; [exact Href | now exists j].
  - injection Hrun' as <- _ _. apply Forall_app. split; [exact Htel |].
    constructor; [| constructor].
    exists from0. split; [exact Hfrom |]. right. right.
    split; [exact Hq |]. exists 0. split; [lia |].
    rewrite Eq, (children_hd _ ts k laws) in Hhd. now injection Hhd as <-.
  - injection Hrun' as <- _ _. apply Forall_app. split; [exact Htel |].
    constructor; [| constructor].
    exists from0. split; [exact Hfrom | now left].
Qed.

Lemma adapt_loop_one_level (fuel : nat) :
  forall st st' : adapt_state t8_element_t user_data_t,
    adapt_inv ts src st ->
    Forall (one_level ts k src) (telements st) ->
    t8_forest_adapt_loop fuel forest tt ts src k st = Done st' ->
    Forall (one_level ts k src) (telements st').
Proof.
  induction fuel as [| fuel IH]; intros st st' Hinv Htel Hrun;
    cbn [t8_forest_adapt_loop] in Hrun;
    destruct (Z.ltb_spec (el_considered st) (elem_count src)) as [Hlt | Hge];
    try discriminate; try (now injection Hrun as <-).
  apply bind_Done in Hrun. destruct Hrun as (st1 & Hbody & Hloop).
  apply (IH st1 st'); [| | exact Hloop].
  - now apply (adapt_body_inv _ _ forest tt ts k laws contract src src_levels
                 (fun _ => True) (fun _ _ _ _ _ _ _ _ => I)
                 (fun _ _ _ _ _ _ => I) fuel st st1 Hinv I Hlt Hbody).
  - now apply (adapt_body_one_level fuel st).
Qed.

End OneLevel.

Section OneLevelForest.

Variable t8_element_t : Type.
Variable user_data_t : Type.
Variable forest : t8_forest t8_element_t user_data_t.


End OneLevelForest.

(** ** What lies below the coarsen floor *)

Section Floor.

Variable t8_element_t : Type.
Variable user_data_t : Type.
Variable forest : t8_forest t8_element_t user_data_t.
Variable tt : Z.
Variable ts : t8_eclass_scheme_c t8_element_t.
Variable k : Z.
Hypothesis laws : scheme_laws ts k.
Hypothesis contract : adapt_contract forest tt ts k.

Local Abbreviation children q := (map (t8_element_child ts q) (child_ids k)).

Lemma firstn_app_short {X : Type} (n : nat) (l1 l2 : list X) :
  (n <= length l1)%nat -> firstn n (l1 ++ l2) = firstn n l1.
Proof.
  intros H. rewrite firstn_app.
  replace (n - length l1)%nat with 0%nat by lia.
  cbn. apply app_nil_r.
Qed.

(** The refinement helper appends as many elements as there are
    candidates, at least. *)
Lemma refine_recursive_grows fuel stack tel ins w l' tel' ins' w' :
  ins = elem_count tel ->
  t8_forest_adapt_refine_recursive fuel forest tt ts stack tel ins w
  = Done (l', tel', ins', w') ->
  (exists added, tel' = tel ++ added) /\
  ins + elem_count stack <= ins'.
Proof.
  intros Hins Hrun. pose proof (law_some_child laws) as Hk.
  apply (refine_recursive_rule _ _ forest tt ts k laws contract
           (fun stack0 tel0 _ =>
              (exists added, tel0 = tel ++ added) /\
              ins + elem_count stack <= elem_count tel0 + elem_count stack0))
    in Hrun; [| | exact Hins |].
  - destruct Hrun as (_ & (H1 & H2) & ->). split; [exact H1 |].
    unfold elem_count in *. cbn in H2. lia.
  - clear Hrun. intros e stack0 tel0 w0 r w1 _ ((added & ->) & Hle).
    unfold elem_count in *. split.
    + intros _. split; [exists (added ++ [e]); now rewrite app_assoc |].
      rewrite !length_app in *. cbn [length] in *. lia.
    + intros _ _. split; [now exists added |].
      rewrite !length_app, length_map, child_ids_length in *.
      cbn [length] in *. lia.
  - split; [exists []; now rewrite app_nil_r | lia].
Qed.

(** The coarsening helper leaves the entries below the floor alone, and
    one entry above it. *)
Lemma coarsen_recursive_floor floor (b : bool) fuel tel ins w tel' ins' w' :
  0 <= floor -> ins = elem_count tel -> floor < ins ->
  (if b
   then t8_forest_adapt_coarsen_recursive fuel forest tt ts tel floor ins w
   else Done (tel, ins, w)) = Done (tel', ins', w') ->
  firstn (Z.to_nat floor) tel' = firstn (Z.to_nat floor) tel /\
  ins' = elem_count tel' /\ floor < ins'.
Proof.
  intros Hfloor Hins Hlt Hrun.
  apply (coarsen_recursive_call_rule _ _ forest tt ts k laws contract floor
           (fun tel0 _ =>
              firstn (Z.to_nat floor) tel0 = firstn (Z.to_nat floor) tel /\
              floor < elem_count tel0) Hfloor) in Hrun;
    [| | exact Hins | split; [reflexivity | lia]].
  - destruct Hrun as ((H1 & H2) & H3). repeat split; (assumption || lia).
  - clear Hrun. intros A fam w0 r w1 _ _ HA _ (H1 & H2).
    split; [intros _; now split |]. intros _ q _ _.
    unfold elem_count in *. split.
    + rewrite <- H1. rewrite !firstn_app_short by lia. reflexivity.
    + rewrite length_app. cbn. lia.
Qed.

Variable src : list t8_element_t.
Hypothesis src_levels : levels_ok ts src.

Lemma adapt_body_floor (fuel : nat)
  (st st' : adapt_state t8_element_t user_data_t) :
  adapt_inv ts src st ->
  el_considered st < elem_count src ->
  el_coarsen st <= el_inserted st ->
  t8_forest_adapt_body fuel forest tt ts src k st = Done st' ->
  el_coarsen st <= el_coarsen st' <= el_inserted st' /\
  firstn (Z.to_nat (el_coarsen st)) (telements st')
  = firstn (Z.to_nat (el_coarsen st)) (telements st).
Proof.
  intros [Hc Hins Hfl _ _] Hlt Hle Hrun.
  pose proof (law_some_child laws) as Hk.
  destruct (adapt_body_cases _ _ forest tt ts k laws contract src fuel st st'
              ltac:(lia) Hrun)
    as (from0 & n & elems & r & w1 & _ & _ & _ & _ & _ & Hbranch).
  destruct Hbranch as [(_ & Href & _ & _ & Efl & l' & Hrun')
                      | [(_ & _ & _ & ->)
                      | [(_ & _ & _ & Efl & q & _ & _ & Hrun')
                      | (_ & _ & Efl & Hrun')]]].
  - destruct (refine_recursive_grows _ _ _ _ _ _ _ _ _ Hins Hrun')
      as ((added & ->) & Hgrow).
    rewrite (children_length _ ts k laws) in Hgrow.
    split; [lia |]. apply firstn_app_short. unfold elem_count in *. lia.
  - cbn. pose proof (children_length _ ts k laws from0) as Hl.
    split; [lia |]. apply firstn_app_short. unfold elem_count in *. lia.
  - apply (coarsen_recursive_floor (el_coarsen st)) in Hrun';
      [| exact Hfl
       | unfold elem_count in *; rewrite length_app; simpl; lia | lia].
    destruct Hrun' as (H1 & H2 & H3). rewrite Efl. split; [lia |].
    rewrite H1. apply firstn_app_short. unfold elem_count in *. lia.
  - apply (coarsen_recursive_floor (el_coarsen st)) in Hrun';
      [| exact Hfl
       | unfold elem_count in *; rewrite length_app; simpl; lia | lia].
    destruct Hrun' as (H1 & H2 & H3). rewrite Efl. split; [lia |].
    rewrite H1. apply firstn_app_short. unfold elem_count in *. lia.
Qed.


End Floor.

(** ** A recursive refinement goes all the way *)

Section RefinesFully.

Variable t8_element_t : Type.
Variable user_data_t : Type.
Variable forest : t8_forest t8_element_t user_data_t.
Hypothesis recursion : set_adapt_recursive forest = true.
Hypothesis refine_only : never_coarsens forest.
Hypothesis first_only : looks_at_first_only forest.
Variable tt : Z.
Variable ts : t8_eclass_scheme_c t8_element_t.
Variable k : Z.
Hypothesis laws : scheme_laws ts k.
Hypothesis contract : adapt_contract forest tt ts k.
Variable src : list t8_element_t.
Hypothesis src_levels : levels_ok ts src.

Local Abbreviation children q := (map (t8_element_child ts q) (child_ids k)).
Local Abbreviation declined e :=
  (forall u n rest, fst (set_adapt_fn forest u tt n (e :: rest)) = 0).

Lemma call_adapt_answer (w w1 : world t8_element_t user_data_t) (n r : Z)
  (elems : list t8_element_t) (e : t8_element_t) :
  call_adapt forest w tt n elems = (r, w1) ->
  hd_error elems = Some e ->
  0 <= r /\ (r <= 0 -> declined e).
Proof.
  unfold call_adapt. intros Hcall Hhd.
  pose proof (refine_only (user_data w) tt n elems) as H0.
  destruct (set_adapt_fn forest (user_data w) tt n elems) as [r' u'] eqn:E.
  injection Hcall as <- _. cbn in H0. split; [exact H0 |].
  intros Hr u m rest.
  rewrite (first_only u (user_data w) tt m n (e :: rest) elems)
    by (now rewrite Hhd).
  rewrite E. cbn. lia.
Qed.

Lemma adapt_body_declined (fuel : nat)
  (st st' : adapt_state t8_element_t user_data_t) :
  adapt_inv ts src st ->
  el_considered st < elem_count src ->
  Forall (fun e => declined e) (telements st) ->
  t8_forest_adapt_body fuel forest tt ts src k st = Done st' ->
  Forall (fun e => declined e) (telements st').
Proof.
  intros [Hc Hins Hfl _ _] Hlt Htel Hrun.
  pose proof (law_some_child laws) as Hk.
  destruct (adapt_body_cases _ _ forest tt ts k laws contract src fuel st st'
              ltac:(lia) Hrun)
    as (from0 & n & elems & r & w1 & _ & Hhd & Ecall & _ & _ & Hbranch).
  destruct (call_adapt_answer _ _ _ _ _ _ Ecall Hhd) as [Hr0 Hdecl].
  assert (Hco : forall b tel ins w tel' ins' w',
             ins = elem_count tel ->
             Forall (fun e => declined e) tel ->
             (if b : bool
              then t8_forest_adapt_coarsen_recursive fuel forest tt ts tel
                     (el_coarsen st) ins w
              else Done (tel, ins, w)) = Done (tel', ins', w') ->
             Forall (fun e => declined e) tel').
  { intros b tel ins w tel' ins' w' Hi Hall Hrun'.
    apply (coarsen_recursive_call_rule _ _ forest tt ts k laws contract
             (el_coarsen st) (fun tel0 _ => Forall (fun e => declined e) tel0)
             Hfl) in Hrun'; [now destruct Hrun' | | exact Hi | exact Hall].
    intros A fam w0 r0 w2 _ _ _ Hcall HP. split; [intros _; exact HP |].
    intros Hneg. exfalso. unfold call_adapt in Hcall.
    pose proof (refine_only (user_data w0) tt k fam) as H0.
    destruct (set_adapt_fn forest (user_data w0) tt k fam).
    injection Hcall as <- _. cbn in H0. lia. }
  destruct Hbranch as [(_ & Href & _ & _ & _ & l' & Hrun')
                      | [(_ & _ & Hrec & _)
                      | [(Hneg & _)
                      | (Hr & _ & _ & Hrun')]]]; [| congruence | lia |].
  - apply (refine_recursive_rule _ _ forest tt ts k laws contract
             (fun _ tel0 _ => Forall (fun e => declined e) tel0)) in Hrun';
      [now destruct Hrun' as (_ & H & _) | | exact Hins | exact Htel].
    intros e stack0 tel0 w0 r0 w2 Hcall HP.
    destruct (call_adapt_answer _ _ _ _ _ _ Hcall eq_refl) as [_ Hd].
    split; [| now intros _ _]. intros Hle.
    apply Forall_app. split; [exact HP |]. constructor; [| constructor].
    now apply Hd.
  - apply Hco in Hrun'; [exact Hrun' | |].
    + unfold elem_count in *. rewrite length_app. simpl. lia.
    + apply Forall_app. split; [exact Htel |]. constructor; [| constructor].
      apply Hdecl. lia.
Qed.

Lemma adapt_loop_declined (fuel : nat) :
  forall st st' : adapt_state t8_element_t user_data_t,
    adapt_inv ts src st ->
    Forall (fun e => declined e) (telements st) ->
    t8_forest_adapt_loop fuel forest tt ts src k st = Done st' ->
    Forall (fun e => declined e) (telements st').
Proof.
  induction fuel as [| fuel IH]; intros st st' Hinv Htel Hrun;
    cbn [t8_forest_adapt_loop] in Hrun;
    destruct (Z.ltb_spec (el_considered st) (elem_count src)) as [Hlt | Hge];
    try discriminate; try (now injection Hrun as <-).
  apply bind_Done in Hrun. destruct Hrun as (st1 & Hbody & Hloop).
  apply (IH st1 st'); [| | exact Hloop].
  - now apply (adapt_body_inv _ _ forest tt ts k laws contract src src_levels
                 (fun _ => True) (fun _ _ _ _ _ _ _ _ => I)
                 (fun _ _ _ _ _ _ => I) fuel st st1 Hinv I Hlt Hbody).
  - now apply (adapt_body_declined fuel st).
Qed.

End RefinesFully.

Section RefinesFullyForest.

Variable t8_element_t : Type.
Variable user_data_t : Type.
Variable forest : t8_forest t8_element_t user_data_t.

(** X14.  A recursive adapt with a predicate that never wants to coarsen and
    that looks at the first element handed over only goes all the way:
    asked about an element of the result, the predicate answers 0. *)
Theorem adapt_recursive_refines_fully (fuel : nat)
  (forest' : t8_forest t8_element_t user_data_t) :
  forest_ready forest ->
  set_adapt_recursive forest = true ->
  never_coarsens forest ->
  looks_at_first_only forest ->
  t8_forest_adapt fuel forest = Done forest' ->
  forall i tree' e u n rest,
    nth_error (trees forest') i = Some tree' ->
    In e (elements tree') ->
    fst (set_adapt_fn forest' u (Z.of_nat i) n (e :: rest)) = 0.
Proof.
  intros Hready Hrec Hfn Hfirst Hrun i tree' e u n rest Hi He.
  assert (Efn : set_adapt_fn forest' = set_adapt_fn forest).
  { unfold t8_forest_adapt in Hrun. apply bind_Done in Hrun.
    destruct Hrun as ([[trees' loc] w] & _ & Hd). now injection Hd as <-. }
  rewrite Efn.
  destruct (adapt_forest_tree _ _ forest fuel forest' i tree' Hready Hrun Hi)
    as (tree & tf & off & w0 & ins & w1 & Htree & Htf & Etf & Hr & Es & Hrun').
  destruct Hr as (Hempty & k & laws & contract & Hsrc).
  unfold t8_forest_adapt_tree in Hrun'. rewrite Etf in Hrun'.
  cbn [of_option bind] in Hrun'.
  apply bind_Done in Hrun'. destruct Hrun' as (first & _ & Hrun').
  apply bind_Done in Hrun'. destruct Hrun' as (st & Hloop & Hrun').
  unfold tree_scheme in *. rewrite (law_num_children laws) in Hloop.
  assert (Hinv : adapt_inv (eclass_schemes forest (eclass tree))
                   (elements tf)
                   {| telements := elements tree; el_considered := 0;
                      el_inserted := 0; el_coarsen := 0; st_world := w0 |}).
  { constructor; cbn; rewrite ?Hempty; try (unfold elem_count; simpl; lia).
    - apply (committed_contiguous Hsrc).
    - constructor. }
  pose proof (adapt_loop_declined _ _ forest Hrec Hfn Hfirst (Z.of_nat i) _ k
                laws contract _ (committed_levels Hsrc) fuel _ st Hinv
                ltac:(cbn; rewrite Hempty; constructor) Hloop) as Hall.
  destruct (adapt_loop_inv _ _ forest (Z.of_nat i) _ k laws contract _
              (committed_levels Hsrc) (fun _ => True)
              ltac:(intros; exact I) ltac:(intros; exact I)
              fuel _ st Hinv I Hloop) as (Hinv' & _).
  rewrite (inv_inserted Hinv'), sc_array_resize_full in Hrun'.
  cbn [of_option bind] in Hrun'. injection Hrun' as <- _ _.
  cbn [elements] in He. rewrite Forall_forall in Hall. now apply Hall.
Qed.

End RefinesFullyForest.

(** ** The callback of the example as a predicate *)

Section BoundaryFacts.

Variable t8_element_t : Type.
Variable ts : t8_eclass_scheme_c t8_element_t.
Variable fs : t8_face_functions t8_element_t.

Local Abbreviation on_boundary ltree_id e iface :=
  (t8_element_is_root_boundary fs e iface = true /\
   t8_cmesh_tree_face_is_boundary fs
     (t8_forest_ltreeid_to_cmesh_ltreeid fs ltree_id)
     (t8_element_tree_face fs e iface) = true).

Lemma adapt_boundary_faces_spec (ltree_id : Z) (e : t8_element_t) (n : nat) :
  forall iface,
    (adapt_boundary_faces fs ltree_id e n iface = 0 \/
     adapt_boundary_faces fs ltree_id e n iface = 1) /\
    (adapt_boundary_faces fs ltree_id e n iface = 1 <->
     exists j, iface <= j < iface + Z.of_nat n /\ on_boundary ltree_id e j).
Proof.
  induction n as [| n IH]; intros iface; cbn [adapt_boundary_faces].
  - split; [now left |]. split; [discriminate |]. intros (j & Hj & _). lia.
  - destruct (t8_element_is_root_boundary fs e iface
              && t8_cmesh_tree_face_is_boundary fs
                   (t8_forest_ltreeid_to_cmesh_ltreeid fs ltree_id)
                   (t8_element_tree_face fs e iface)) eqn:E.
    + split; [now right |]. split; [| reflexivity]. intros _.
      apply andb_true_iff in E. exists iface. split; [lia | exact E].
    + destruct (IH (iface + 1)) as [H01 Hiff]. split; [exact H01 |].
      rewrite Hiff. split; intros (j & Hj & Hb).
      * exists j. split; [lia | exact Hb].
      * exists j. split; [| exact Hb].
        destruct (Z.eq_dec j iface) as [-> | Hne]; [| lia].
        destruct Hb as [H1 H2]. rewrite H1, H2 in E. discriminate.
Qed.

Lemma geom_adapt_boundary_answer_cases (maxlevel : Z)
  (ltree_id lelement_id is_family num_elements : Z) (e : t8_element_t)
  (rest : list t8_element_t) :
  exists r,
    t8_geom_adapt_boundary ts fs maxlevel ltree_id lelement_id is_family
      num_elements (e :: rest) = Done r /\
    (r = 0 \/ r = 1) /\
    (r = 1 -> t8_element_level ts e < maxlevel).
Proof.
  unfold t8_geom_adapt_boundary. cbn [nth_error of_option bind].
  destruct (Z.geb_spec (t8_element_level ts e) maxlevel) as [Hge | Hlt].
  - exists 0. split; [reflexivity |]. split; [now left | discriminate].
  - destruct (adapt_boundary_faces_spec ltree_id e
                (Z.to_nat (t8_element_num_faces fs e)) 0) as [H01 _].
    eexists. split; [reflexivity |]. split; [exact H01 | now intros _].
Qed.

(** X15.  The callback of the example answers 0 or 1, never a negative number.
    It answers 1 when the first element lies below [maxlevel] and has a
    face on the boundary of its tree whose tree face lies on the boundary
    of the domain, and only then. *)
Theorem geom_adapt_boundary_answer (maxlevel : Z)
  (ltree_id lelement_id is_family num_elements : Z) (e : t8_element_t)
  (rest : list t8_element_t) :
  exists r,
    t8_geom_adapt_boundary ts fs maxlevel ltree_id lelement_id is_family
      num_elements (e :: rest) = Done r /\
    (r = 0 \/ r = 1) /\
    (r = 1 <->
     t8_element_level ts e < maxlevel /\
     exists iface,
       0 <= iface < t8_element_num_faces fs e /\
       t8_element_is_root_boundary fs e iface = true /\
       t8_cmesh_tree_face_is_boundary fs
         (t8_forest_ltreeid_to_cmesh_ltreeid fs ltree_id)
         (t8_element_tree_face fs e iface) = true).
Proof.
  unfold t8_geom_adapt_boundary. cbn [nth_error of_option bind].
  destruct (Z.geb_spec (t8_element_level ts e) maxlevel) as [Hge | Hlt].
  - exists 0. split; [reflexivity |]. split; [now left |].
    split; [discriminate | intros [H _]; lia].
  - destruct (adapt_boundary_faces_spec ltree_id e
                (Z.to_nat (t8_element_num_faces fs e)) 0) as [H01 Hiff].
    eexists. split; [reflexivity |]. split; [exact H01 |].
    rewrite Hiff. split.
    + intros (j & Hj & Hb). split; [exact Hlt |]. exists j.
      split; [lia | exact Hb].
    + intros (_ & j & Hj & Hb). exists j. split; [lia | exact Hb].
Qed.

Lemma boundary_adapt_fn_answer (user_data_t : Type) (maxlevel : Z)
  (u : user_data_t) (ltreeid n : Z) (elems : list t8_element_t) :
  let r :=
    fst (boundary_adapt_fn ts fs user_data_t maxlevel u ltreeid n elems) in
  0 <= r /\
  (0 < r -> forall e, hd_error elems = Some e ->
                      t8_element_level ts e < maxlevel).
Proof.
  unfold boundary_adapt_fn. destruct elems as [| e rest].
  - cbn. split; [lia | discriminate].
  - destruct (geom_adapt_boundary_answer_cases maxlevel ltreeid 0 0 n e rest)
      as (r & -> & H01 & Hiff).
    cbn. split; [lia |]. intros Hr e0 [= <-].
    apply Hiff. lia.
Qed.

Lemma boundary_adapt_fn_first_only (user_data_t : Type) (maxlevel : Z)
  (u u' : user_data_t) (ltreeid n n' : Z) (elems elems' : list t8_element_t) :
  hd_error elems = hd_error elems' ->
  fst (boundary_adapt_fn ts fs user_data_t maxlevel u ltreeid n elems)
  = fst (boundary_adapt_fn ts fs user_data_t maxlevel u' ltreeid n' elems').
Proof.
  unfold boundary_adapt_fn, t8_geom_adapt_boundary.
  destruct elems as [| e rest], elems' as [| e' rest']; cbn;
    try discriminate; [reflexivity |].
  intros [= <-].
  now destruct (t8_element_level ts e >=? maxlevel).
Qed.

End BoundaryFacts.

Section BoundaryForest.

Variable t8_element_t : Type.
Variable user_data_t : Type.
Variable ts : t8_eclass_scheme_c t8_element_t.
Variable fs : t8_face_functions t8_element_t.
Variable forest : t8_forest t8_element_t user_data_t.

Lemma boundary_forest_ready (maxlevel k : Z) :
  set_adapt_fn forest = boundary_adapt_fn ts fs user_data_t maxlevel ->
  scheme_laws ts k ->
  maxlevel <= t8_element_maxlevel ts ->
  length (trees forest) = length (set_from forest) ->
  (forall i tree tree_from,
      nth_error (trees forest) i = Some tree ->
      nth_error (set_from forest) i = Some tree_from ->
      tree_scheme forest tree = ts /\ elements tree = [] /\
      committed_elements ts (elements tree_from)) ->
  forest_ready forest.
Proof.
  intros Hfn laws Hmax Hlen Htrees.
  split; [exact Hlen |]. intros i tree tf Htree Htf.
  destruct (Htrees i tree tf Htree Htf) as (Es & Hempty & Hsrc).
  split; [exact Hempty |]. exists k. rewrite Es.
  split; [exact laws |]. split; [| exact Hsrc].
  intros u n elems. rewrite Hfn.
  destruct (boundary_adapt_fn_answer _ ts fs user_data_t maxlevel u
              (Z.of_nat i) n elems) as [H0 Hpos].
  split; [lia |]. intros Hr e He. unfold refinable.
  specialize (Hpos Hr e He). lia.
Qed.


End BoundaryForest.

(** ** The runs of [Runs] and [Ends] *)

Module RunsFacts.

Import Line Demo.

Lemma quarters_committed : committed_elements (scheme maxlevel) Runs.quarters.
Proof.
  constructor.
  - discriminate.
  - unfold Runs.quarters, contiguous. repeat constructor.
    + now apply (LineFacts.adjacent_siblings_line maxlevel [true]).
    + apply (LineFacts.adjacent_last_line maxlevel [false]); [| reflexivity].
      apply (LineFacts.adjacent_first_line maxlevel [false] [true]);
        [| reflexivity].
      now apply (LineFacts.adjacent_siblings_line maxlevel []).
    + now apply (LineFacts.adjacent_siblings_line maxlevel [false]).
  - unfold Runs.quarters, levels_ok, maxlevel. repeat constructor; simpl; lia.
Qed.

Lemma coarsen_fn_answer (u : nat) (ltreeid n : Z) (elems : list element) :
  let r := fst (Runs.coarsen_fn u ltreeid n elems) in
  r <= 0 /\ (r < 0 -> is_family (scheme maxlevel) 2 elems).
Proof.
  unfold Runs.coarsen_fn. cbn [fst].
  destruct elems as [| a [| b [| c l]]]; try (split; [lia | intros; lia]).
  destruct (n =? 2); cbn [andb]; [| split; [lia | intros; lia]].
  destruct (family_b a b) eqn:E; [| split; [lia | intros; lia]].
  split; [lia |]. intros _. now apply DemoFacts.family_b_spec.
Qed.

Lemma coarsen_forest_ready : forest_ready Runs.coarsen_forest.
Proof.
  apply DemoFacts.forest_of_ready.
  - intros ltreeid u n elems.
    destruct (coarsen_fn_answer u ltreeid n elems) as [Hle Hneg].
    split; [exact Hneg |]. intros Hr. cbn in Hr, Hle. lia.
  - constructor; [apply quarters_committed | constructor].
Qed.

Lemma halves_forest_ready : forest_ready Runs.halves_forest.
Proof.
  apply DemoFacts.forest_of_ready; [apply DemoFacts.adapt_fn_contract |].
  constructor; [apply DemoFacts.halves_committed | constructor].
Qed.

Lemma flat_forest_ready : forest_ready Runs.flat_forest.
Proof.
  apply DemoFacts.forest_of_ready; [apply DemoFacts.adapt_fn_contract |].
  constructor; [apply DemoFacts.source_committed | constructor].
Qed.

Lemma decide_refines_below (n : Z) (elems : list element) (e : element) :
  0 < decide n elems -> hd_error elems = Some e -> level e < 2.
Proof.
  unfold decide.
  destruct elems as [| a [| b [| c l]]]; [discriminate | | |];
    intros Hr [= <-];
    try destruct ((n =? 2) && family_b a b && (level a =? 3));
    try lia;
    destruct (Z.ltb_spec (level a) 2); lia.
Qed.

Lemma ends_forest_trees (i : nat) (tree tree_from : t8_tree element) :
  nth_error (trees Ends.forest) i = Some tree ->
  nth_error (set_from Ends.forest) i = Some tree_from ->
  tree_scheme Ends.forest tree = scheme maxlevel /\ elements tree = [] /\
  committed_elements (scheme maxlevel) (elements tree_from).
Proof.
  destruct i as [| [| i]]; cbn; try discriminate.
  intros [= <-] [= <-]. split; [reflexivity |]. split; [reflexivity |].
  apply DemoFacts.halves_committed.
Qed.

Lemma ends_forest_ready : forest_ready Ends.forest.
Proof.
  apply (boundary_forest_ready _ _ (scheme maxlevel) Ends.faces Ends.forest
           3 2 eq_refl (LineFacts.laws maxlevel) (Z.le_refl 3) eq_refl
           ends_forest_trees).
Qed.

Lemma ends_never_coarsens : never_coarsens Ends.forest.
Proof.
  intros u tt n elems.
  apply (boundary_adapt_fn_answer _ (scheme maxlevel) Ends.faces nat 3
           u tt n elems).
Qed.

Lemma ends_first_only : looks_at_first_only Ends.forest.
Proof.
  intros u u' tt n n' elems elems' Hhd.
  now apply (boundary_adapt_fn_first_only _ (scheme maxlevel) Ends.faces nat
               3 u u' tt n n' elems elems').
Qed.

Lemma refined4_inv : adapt_inv (scheme maxlevel) source4 refined4.
Proof.
  assert (Hbody : t8_forest_adapt_body 10 forest4 0 (scheme maxlevel) source4
                    2 start = Done refined4) by (vm_compute; reflexivity).
  now apply (adapt_body_inv _ _ forest4 0 (scheme maxlevel) 2
               (LineFacts.laws maxlevel)
               (DemoFacts.adapt_fn_contract true [source4] 0) source4
               (committed_levels DemoFacts.source4_committed)
               (fun _ => True) (fun _ _ _ _ _ _ _ _ => I)
               (fun _ _ _ _ _ _ => I) 10 start refined4
               (DemoFacts.start_inv _ DemoFacts.source4_committed) I
               eq_refl Hbody).
Qed.

End RunsFacts.














(** The run of the callback of the example on the two halves of the line:
    the elements at the two ends are refined down to level 3. *)
Example ends_refined :
  t8_forest_adapt 20 Ends.forest = Done Ends.result /\
  map (@elements _) (trees Ends.result)
  = [[[false; false; false]; [false; false; true]; [false; true];
      [true; false]; [true; true; false]; [true; true; true]]].
Proof. split; vm_compute; reflexivity. Qed.


Lemma adapt_recursive_refines_fully_witness :
  forest_ready Ends.forest /\
  set_adapt_recursive Ends.forest = true /\
  never_coarsens Ends.forest /\
  looks_at_first_only Ends.forest /\
  t8_forest_adapt 20 Ends.forest = Done Ends.result /\
  fst (set_adapt_fn Ends.result O 0 1 [[false; false; true]]) = 0.
Proof.
  assert (Erun : t8_forest_adapt 20 Ends.forest = Done Ends.result)
    by (vm_compute; reflexivity).
  split; [exact RunsFacts.ends_forest_ready |]. split; [reflexivity |].
  split; [exact RunsFacts.ends_never_coarsens |].
  split; [exact RunsFacts.ends_first_only |]. split; [exact Erun |].
  apply (adapt_recursive_refines_fully _ _ Ends.forest 20 Ends.result
           RunsFacts.ends_forest_ready eq_refl RunsFacts.ends_never_coarsens
           RunsFacts.ends_first_only Erun 0%nat
           (Demo.line_tree
              [[false; false; false]; [false; false; true]; [false; true];
               [true; false]; [true; true; false]; [true; true; true]])
           [false; false; true] O 1 [] eq_refl).
  cbn. tauto.
Defined.
